(** * The multi-field register of lab4.cpp and demo_lab4.cpp

    A shallow embedding of class [MultiField], of the workload loaders and
    of the workers that run an operation stream against the store, together
    with the properties the specification states about them.

    Conventions.
    - [int] is a [Z] (the programs never do arithmetic on a stored value),
      [size_t] is an [N]; the conversion of an [int] to a [size_t] is
      written out as a reduction modulo 2^64.
    - A method of the store is a computation in the monad [Exec]: it takes
      the store, returns its result and the store it leaves, and records the
      events it performs on the guards ([std::shared_mutex]) and on the
      fields, in program order.
    - The text of a workload file is a list of characters read through a
      model of [std::istream].
    - Workers in parallel are an interleaving of the actions of their
      calls on the guards and the fields. *)

From Stdlib Require Import ZArith NArith Arith List String Ascii Bool Lia.
Import ListNotations.

Local Open Scope N_scope.

(** ** Events and the execution monad *)

(** What a store method does to one guard or to one field. *)
Inductive event : Type :=
| LockShared (i : N)       (* std::shared_lock constructor on locks[i] *)
| LockUnique (i : N)       (* std::unique_lock constructor on locks[i] *)
| Unlock (i : N)           (* destructor of a lock object on locks[i] *)
| Load (i : N) (v : Z)     (* vals[i] read, v is the value seen *)
| Store (i : N) (v : Z).   (* vals[i] = v *)

(** The two vectors of a [MultiField].  A [std::shared_mutex] that no call
    is inside of carries no information, so the vector [locks] is its
    length. *)
Record MultiField : Type := mkMultiField {
  vals : list Z;
  locks : nat
}.

Definition Exec (A : Type) : Type := MultiField -> A * MultiField * list event.

Definition ret {A : Type} (a : A) : Exec A := fun mf => (a, mf, []).

Definition bind {A B : Type} (m : Exec A) (f : A -> Exec B) : Exec B :=
  fun mf =>
    let '(a, mf1, t1) := m mf in
    let '(b, mf2, t2) := f a mf1 in
    (b, mf2, t1 ++ t2).

Declare Scope exec_scope.
Delimit Scope exec_scope with exec.
Notation "x <- m ;; k" := (bind m (fun x => k))
  (at level 61, m at next level, right associativity) : exec_scope.
Notation "m ;; k" := (bind m (fun _ => k))
  (at level 61, right associativity) : exec_scope.
Local Open Scope exec_scope.

Definition result {A : Type} (r : A * MultiField * list event) : A := fst (fst r).
Definition final {A : Type} (r : A * MultiField * list event) : MultiField := snd (fst r).
Definition trace {A : Type} (r : A * MultiField * list event) : list event := snd r.

(** Primitive steps. *)
Definition vals_size : Exec N := fun mf => (N.of_nat (List.length (vals mf)), mf, []).
Definition locks_size : Exec N := fun mf => (N.of_nat (locks mf), mf, []).
Definition lock_shared (i : N) : Exec unit := fun mf => (tt, mf, [LockShared i]).
Definition lock_unique (i : N) : Exec unit := fun mf => (tt, mf, [LockUnique i]).
Definition unlock (i : N) : Exec unit := fun mf => (tt, mf, [Unlock i]).

(** [vals[i]]: both programs index only below [vals.size()]. *)
Definition load (i : N) : Exec Z :=
  fun mf => let v := nth (N.to_nat i) (vals mf) 0%Z in (v, mf, [Load i v]).

Fixpoint set_nth (n : nat) (v : Z) (l : list Z) : list Z :=
  match l, n with
  | [], _ => []
  | _ :: t, O => v :: t
  | x :: t, S n' => x :: set_nth n' v t
  end.

Definition store (i : N) (v : Z) : Exec unit :=
  fun mf => (tt, mkMultiField (set_nth (N.to_nat i) v (vals mf)) (locks mf), [Store i v]).

(** The indices 0, 1, ..., n-1 a counted loop runs through. *)
Definition indices (n : N) : list N := map N.of_nat (seq 0 (N.to_nat n)).

Fixpoint for_each {A : Type} (l : list A) (body : A -> Exec unit) : Exec unit :=
  match l with
  | [] => ret tt
  | a :: l' => body a ;; for_each l' body
  end.

(** ** Decimal output of an [int] ([operator<<] of a stream) *)

Definition digit_char (d : N) : ascii := ascii_of_N (48 + d).

Fixpoint show_digits (fuel : nat) (n : N) (acc : string) : string :=
  match fuel with
  | O => acc
  | S fuel' =>
      let acc' := String (digit_char (n mod 10)) acc in
      if n / 10 =? 0 then acc' else show_digits fuel' (n / 10) acc'
  end.

Definition show_N (n : N) : string := show_digits (S (N.to_nat (N.size n))) n EmptyString.

Definition show_int (z : Z) : string :=
  if (z <? 0)%Z then String "-" (show_N (Z.to_N (- z))) else show_N (Z.to_N z).

(** ** class MultiField *)

(** [MultiField(size_t m, int init_value)]: [vals(m, init_value), locks(m)]. *)
Definition MultiField_new (m : N) (init_value : Z) : MultiField :=
  mkMultiField (repeat init_value (N.to_nat m)) (N.to_nat m).

(** [int read(size_t idx)] *)
Definition read (idx : N) : Exec Z :=
  n <- vals_size ;;
  if n <=? idx then ret 0%Z
  else
    lock_shared idx ;;
    v <- load idx ;;
    unlock idx ;;
    ret v.

(** [void write(size_t idx, int value)] *)
Definition write (idx : N) (value : Z) : Exec unit :=
  n <- vals_size ;;
  if n <=? idx then ret tt
  else
    lock_unique idx ;;
    store idx value ;;
    unlock idx.

(** The body of the printing loop of [to_string], for the indices [l],
    with [oss] the text put on the stream so far. *)
Fixpoint to_string_loop (l : list N) (oss : string) : Exec string :=
  match l with
  | [] => ret oss
  | i :: l' =>
      let oss1 := if 0 <? i then (oss ++ ", ")%string else oss in
      v <- load i ;;
      to_string_loop l' (oss1 ++ show_int v)%string
  end.

(** [std::string to_string() const], with the two delimiters the files
    differ in.  The vector of lock objects is destroyed on return, after
    the result string has been built; its elements are released first to
    last. *)
Definition to_string_with (opening closing : string) : Exec string :=
  nl <- locks_size ;;
  for_each (indices nl) lock_shared ;;
  n <- vals_size ;;
  oss <- to_string_loop (indices n) opening ;;
  let str := (oss ++ closing)%string in
  for_each (indices nl) unlock ;;
  ret str.


(** ** A model of [std::istream] over the text of a file

    Only what the loaders use: extraction of a word, of a decimal [int], of
    a decimal [size_t], and [std::getline]; the state bits the loaders can
    observe are [failbit] and [eofbit]. *)

Record istream : Type := mkIstream {
  buf : list ascii;
  failbit : bool;
  eofbit : bool
}.

Definition good (s : istream) : bool := negb (failbit s) && negb (eofbit s).

(** [std::isspace] in the "C" locale. *)
Definition isspace (c : ascii) : bool :=
  let n := N_of_ascii c in (n =? 32) || ((9 <=? n) && (n <=? 13)).

Definition isdigit (c : ascii) : bool :=
  let n := N_of_ascii c in (48 <=? n) && (n <=? 57).

Fixpoint skip_ws (l : list ascii) : list ascii :=
  match l with
  | [] => []
  | c :: l' => if isspace c then skip_ws l' else l
  end.

(** The sentry of a formatted input function: a stream that is not good
    fails; otherwise leading white space is skipped, and reaching the end
    of the text there sets [failbit] and [eofbit]. *)
Definition sentry (s : istream) : bool * istream :=
  if good s then
    match skip_ws (buf s) with
    | [] => (false, mkIstream [] true true)
    | b => (true, mkIstream b false false)
    end
  else (false, mkIstream (buf s) true (eofbit s)).

Fixpoint take_word (l : list ascii) : list ascii * list ascii :=
  match l with
  | [] => ([], [])
  | c :: l' =>
      if isspace c then ([], l)
      else let (w, r) := take_word l' in (c :: w, r)
  end.

Fixpoint take_digits (l : list ascii) : list N * list ascii :=
  match l with
  | [] => ([], [])
  | c :: l' =>
      if isdigit c then let (ds, r) := take_digits l' in ((N_of_ascii c - 48) :: ds, r)
      else ([], l)
  end.

Definition digits_value (ds : list N) : N := fold_left (fun a d => 10 * a + d) ds 0.

(** An optional sign: [true] for a minus. *)
Definition take_sign (l : list ascii) : bool * list ascii :=
  match l with
  | c :: l' =>
      if Ascii.eqb c "-" then (true, l')
      else if Ascii.eqb c "+" then (false, l')
      else (false, l)
  | [] => (false, [])
  end.

Definition is_nil {A : Type} (l : list A) : bool :=
  match l with [] => true | _ => false end.

(** [is >> word] for a [std::string]; [cur] is what the variable held. *)
Definition extract_string (cur : string) (s : istream) : string * istream :=
  let (ok, s1) := sentry s in
  if ok then
    let (w, r) := take_word (buf s1) in
    (string_of_list_ascii w, mkIstream r (is_nil w) (is_nil r))
  else (cur, s1).

Definition INT_MAX : Z := 2147483647.
Definition INT_MIN : Z := -2147483648.
Definition SIZE_MAX : N := 18446744073709551615.

(** [is >> n] for an [int] read in base ten: a failed conversion stores 0,
    a value out of range stores the nearest bound, both set [failbit]; a
    stream whose sentry fails leaves the variable as it was. *)
Definition extract_int (cur : Z) (s : istream) : Z * istream :=
  let (ok, s1) := sentry s in
  if ok then
    let (neg, b1) := take_sign (buf s1) in
    let (ds, r) := take_digits b1 in
    let n := Z.of_N (digits_value ds) in
    if is_nil ds then (0%Z, mkIstream r true (is_nil r))
    else if neg then
      if (n <=? - INT_MIN)%Z then ((- n)%Z, mkIstream r false (is_nil r))
      else (INT_MIN, mkIstream r true (is_nil r))
    else
      if (n <=? INT_MAX)%Z then (n, mkIstream r false (is_nil r))
      else (INT_MAX, mkIstream r true (is_nil r))
  else (cur, s1).

(** [is >> n] for a [size_t]: as for [int], but a minus sign negates the
    value modulo 2^64. *)
Definition extract_size_t (cur : N) (s : istream) : N * istream :=
  let (ok, s1) := sentry s in
  if ok then
    let (neg, b1) := take_sign (buf s1) in
    let (ds, r) := take_digits b1 in
    let n := digits_value ds in
    if is_nil ds then (0, mkIstream r true (is_nil r))
    else if n <=? SIZE_MAX then
      ((if neg then (SIZE_MAX + 1 - n) mod (SIZE_MAX + 1) else n), mkIstream r false (is_nil r))
    else (SIZE_MAX, mkIstream r true (is_nil r))
  else (cur, s1).

(** The text up to the next newline, and what follows the newline, if
    there is one. *)
Fixpoint take_line (l : list ascii) : list ascii * option (list ascii) :=
  match l with
  | [] => ([], None)
  | c :: l' =>
      if Ascii.eqb c "010" then ([], Some l')
      else let (ln, r) := take_line l' in (c :: ln, r)
  end.

(** [std::getline(is, line)] *)
Definition getline (cur : string) (s : istream) : string * istream :=
  if good s then
    match take_line (buf s) with
    | (ln, Some r) => (string_of_list_ascii ln, mkIstream r false false)
    | (ln, None) => (string_of_list_ascii ln, mkIstream [] (is_nil ln) true)
    end
  else (cur, mkIstream (buf s) true (eofbit s)).

(** [std::ifstream ifs(filename)]: the text of the file, or nothing when
    the file cannot be opened. *)
Definition ifstream (file : option string) : option istream :=
  match file with
  | Some text => Some (mkIstream (list_ascii_of_string text) false false)
  | None => None
  end.

(** ** lab4.cpp *)

Module Lab4.

Inductive OpType : Type := READ | WRITE | STRING.

Record Op : Type := mkOp { type : OpType; idx : Z; value : Z }.

(** An [int] passed where a [size_t] is expected. *)
Definition size_t_of_int (z : Z) : N := Z.to_N (z mod 2 ^ 64).

(** [explicit MultiField(size_t m) : vals(m, 0), locks(m)] *)
Definition MultiField (m : N) : MultiField := MultiField_new m 0.

Definition to_string : Exec string := to_string_with "{" "}".

Section Loader.
(** What an [int] that was never assigned holds. *)
Variable indeterminate : Z.

Fixpoint load_loop (fuel : nat) (ifs : istream) (ops : list Op) : list Op :=
  match fuel with
  | O => ops
  | S fuel' =>
      let (cmd, ifs1) := extract_string EmptyString ifs in
      if failbit ifs1 then ops
      else if String.eqb cmd "read" then
        let (idx, ifs2) := extract_int indeterminate ifs1 in
        load_loop fuel' ifs2 (ops ++ [mkOp READ idx 0])
      else if String.eqb cmd "write" then
        let (idx, ifs2) := extract_int indeterminate ifs1 in
        let (val, ifs3) := extract_int indeterminate ifs2 in
        load_loop fuel' ifs3 (ops ++ [mkOp WRITE idx val])
      else if String.eqb cmd "string" then
        load_loop fuel' ifs1 (ops ++ [mkOp STRING 0 0])
      else load_loop fuel' ifs1 ops
  end.

(** [std::vector<Op> load_ops(const std::string& filename)] *)
Definition load_ops (file : option string) : list Op :=
  match ifstream file with
  | None => []
  | Some ifs => load_loop (S (List.length (buf ifs))) ifs []
  end.
End Loader.

Definition dispatch (op : Op) : Exec unit :=
  match type op with
  | READ => _ <- read (size_t_of_int (idx op)) ;; ret tt
  | WRITE => write (size_t_of_int (idx op)) (value op)
  | STRING => s <- to_string ;; let len := String.length s in ret tt
  end.

(** [void worker(MultiField& data, const std::vector<Op>& ops)] *)
Fixpoint worker (ops : list Op) : Exec unit :=
  match ops with
  | [] => ret tt
  | op :: ops' => dispatch op ;; worker ops'
  end.

End Lab4.

(** ** demo_lab4.cpp *)

Module Demo.

Inductive OpType : Type := READ | WRITE | STRING.

Record Op : Type := mkOp { type : OpType; idx : N; value : Z }.

(** [MultiField(size_t m, int init_value = 0)] *)
Definition MultiField (m : N) (init_value : Z) : MultiField := MultiField_new m init_value.

Definition to_string : Exec string := to_string_with "[" "]".

Section Loader.
(** What a [size_t] and an [int] that were never assigned hold. *)
Variable indeterminate_idx : N.
Variable indeterminate_val : Z.

Fixpoint load_loop (fuel : nat) (ifs : istream) (ops : list Op) : list Op :=
  match fuel with
  | O => ops
  | S fuel' =>
      let (cmd, ifs1) := extract_string EmptyString ifs in
      if failbit ifs1 then ops
      else if String.eqb cmd "read" then
        let (idx, ifs2) := extract_size_t indeterminate_idx ifs1 in
        load_loop fuel' ifs2 (ops ++ [mkOp READ idx 0])
      else if String.eqb cmd "write" then
        let (idx, ifs2) := extract_size_t indeterminate_idx ifs1 in
        let (val, ifs3) := extract_int indeterminate_val ifs2 in
        load_loop fuel' ifs3 (ops ++ [mkOp WRITE idx val])
      else if String.eqb cmd "string" then
        load_loop fuel' ifs1 (ops ++ [mkOp STRING 0 0])
      else
        let (rest, ifs2) := getline EmptyString ifs1 in
        load_loop fuel' ifs2 ops
  end.

(** [std::vector<Op> load_ops_from_file(const std::string& filename)] *)
Definition load_ops_from_file (file : option string) : list Op :=
  match ifstream file with
  | None => []
  | Some ifs => load_loop (S (List.length (buf ifs))) ifs []
  end.
End Loader.

Definition dispatch (op : Op) : Exec unit :=
  match type op with
  | READ => _ <- read (idx op) ;; ret tt
  | WRITE => write (idx op) (value op)
  | STRING => s <- to_string ;; let dummy := String.length s in ret tt
  end.

(** [void execute_ops(MultiField& mf, const std::vector<Op>& ops)] *)
Fixpoint execute_ops (ops : list Op) : Exec unit :=
  match ops with
  | [] => ret tt
  | op :: ops' => dispatch op ;; execute_ops ops'
  end.

End Demo.

(** ** The specification's view of a stream and of a snapshot text *)

(** An operation of a stream, as the store sees it. *)
Inductive call : Type :=
| CallRead (i : N)
| CallWrite (i : N) (v : Z)
| CallSnapshot.

Definition lab4_call (op : Lab4.Op) : call :=
  match Lab4.type op with
  | Lab4.READ => CallRead (Lab4.size_t_of_int (Lab4.idx op))
  | Lab4.WRITE => CallWrite (Lab4.size_t_of_int (Lab4.idx op)) (Lab4.value op)
  | Lab4.STRING => CallSnapshot
  end.

Definition demo_call (op : Demo.Op) : call :=
  match Demo.type op with
  | Demo.READ => CallRead (Demo.idx op)
  | Demo.WRITE => CallWrite (Demo.idx op) (Demo.value op)
  | Demo.STRING => CallSnapshot
  end.

(** The run of a stream in the specification's words: each operation in
    stream order, a read and a snapshot with their result dropped. *)
Definition spec_dispatch (snapshot : Exec string) (c : call) : Exec unit :=
  match c with
  | CallRead i => _ <- read i ;; ret tt
  | CallWrite i v => write i v
  | CallSnapshot => _ <- snapshot ;; ret tt
  end.

Definition spec_run (snapshot : Exec string) (stream : list call) : Exec unit :=
  for_each stream (spec_dispatch snapshot).

(** All a call may change in the fields. *)
Definition field_effect (vs : list Z) (c : call) : list Z :=
  match c with
  | CallWrite i v => if N.of_nat (List.length vs) <=? i then vs else set_nth (N.to_nat i) v vs
  | _ => vs
  end.

(** The snapshot text in the specification's words: the values in index
    order, separated by a comma and a space, between two delimiters. *)
Fixpoint comma_separated (l : list string) : string :=
  match l with
  | [] => EmptyString
  | [x] => x
  | x :: l' => (x ++ ", " ++ comma_separated l')%string
  end.

Definition spec_snapshot_text (opening closing : string) (vs : list Z) : string :=
  (opening ++ comma_separated (map show_int vs) ++ closing)%string.

(** ** The events of a stream in the specification's words *)

(** The guards 0, 1, ..., m-1, lowest first. *)
Fixpoint ascending (m : nat) : list N :=
  match m with
  | O => []
  | S m' => ascending m' ++ [N.of_nat m']
  end.

(** What one call does on a store whose fields hold [vs]: a read of a field
    the store has takes the shared lock of that field, loads the field and
    gives the lock back; a write takes the exclusive lock, stores and gives
    the lock back; a snapshot takes every guard in shared mode, lowest
    first, loads every field and gives the guards back; an index the store
    does not have gives nothing. *)
Definition call_events (vs : list Z) (c : call) : list event :=
  let all := ascending (List.length vs) in
  match c with
  | CallRead i =>
      if i <? N.of_nat (List.length vs)
      then [LockShared i; Load i (nth (N.to_nat i) vs 0%Z); Unlock i]
      else []
  | CallWrite i v =>
      if i <? N.of_nat (List.length vs) then [LockUnique i; Store i v; Unlock i] else []
  | CallSnapshot =>
      map LockShared all ++ map (fun i => Load i (nth (N.to_nat i) vs 0%Z)) all ++
      map Unlock all
  end.

(** The calls of a stream one after the other, each on the fields the calls
    before it have left. *)
Fixpoint stream_events (vs : list Z) (cs : list call) : list event :=
  match cs with
  | [] => []
  | c :: cs' => call_events vs c ++ stream_events (field_effect vs c) cs'
  end.

(** An operation of lab4.cpp read as the specification reads it: the index
    is the [int] of the operation; a negative [int] names no field. *)
Definition names_a_field (op : Lab4.Op) : bool :=
  match Lab4.type op with
  | Lab4.STRING => true
  | _ => (0 <=? Lab4.idx op)%Z
  end.

Definition int_call (op : Lab4.Op) : call :=
  match Lab4.type op with
  | Lab4.READ => CallRead (Z.to_N (Lab4.idx op))
  | Lab4.WRITE => CallWrite (Z.to_N (Lab4.idx op)) (Lab4.value op)
  | Lab4.STRING => CallSnapshot
  end.

(** ** The guards a call holds *)

Inductive mode : Type := Shared | Exclusive.

(** An event without the value it carries. *)
Inductive action : Type :=
| Acquire (m : mode) (i : N)
| Release (i : N)
| Access (i : N).

Definition action_of (e : event) : action :=
  match e with
  | LockShared i => Acquire Shared i
  | LockUnique i => Acquire Exclusive i
  | Unlock i => Release i
  | Load i _ => Access i
  | Store i _ => Access i
  end.

(** The guards held, oldest first. *)
Definition holding : Type := list (N * mode).

Fixpoint release (i : N) (h : holding) : holding :=
  match h with
  | [] => []
  | (j, m) :: h' => if j =? i then h' else (j, m) :: release i h'
  end.

Definition after_action (h : holding) (a : action) : holding :=
  match a with
  | Acquire m i => h ++ [(i, m)]
  | Release i => release i h
  | Access _ => h
  end.

Definition held_after (t : list event) : holding :=
  fold_left after_action (map action_of t) [].

(** The store is as its constructor made it: one guard per field. *)
Definition well_formed (mf : MultiField) : Prop := locks mf = List.length (vals mf).

Definition size (mf : MultiField) : N := N.of_nat (List.length (vals mf)).

(** ** Workers running in parallel

    Each worker is the sequence of actions of its calls.  The guards
    exclude as a [std::shared_mutex] does: a shared lock can be granted
    unless another thread holds the guard exclusively, an exclusive lock
    when no other thread holds the guard.  This is every step a lock can
    allow; what a lock may refuse on top of it comes further down. *)

Record thread : Type := mkThread {
  holds : holding;
  todo : list action
}.

Definition conflicts (m : mode) (i : N) (h : holding) : bool :=
  existsb (fun jm => (fst jm =? i) &&
                     match m, snd jm with Shared, Shared => false | _, _ => true end) h.

Definition enabled (a : action) (others : list holding) : bool :=
  match a with
  | Acquire m i => forallb (fun h => negb (conflicts m i h)) others
  | _ => true
  end.

Definition others {A : Type} (k : nat) (l : list A) : list A := firstn k l ++ skipn (S k) l.

Fixpoint replace {A : Type} (k : nat) (a : A) (l : list A) : list A :=
  match l, k with
  | [], _ => []
  | _ :: l', O => a :: l'
  | x :: l', S k' => x :: replace k' a l'
  end.

(** Thread [k] performs its next action, if it has one and is not made to
    wait. *)
Definition step_thread (k : nat) (st : list thread) : option (list thread) :=
  match nth_error st k with
  | Some t =>
      match todo t with
      | a :: rest =>
          if enabled a (map holds (others k st))
          then Some (replace k (mkThread (after_action (holds t) a) rest) st)
          else None
      | [] => None
      end
  | None => None
  end.

(** An interleaving: the thread that moves at each step. *)
Fixpoint run (schedule : list nat) (st : list thread) : option (list thread) :=
  match schedule with
  | [] => Some st
  | k :: schedule' =>
      match step_thread k st with
      | Some st' => run schedule' st'
      | None => None
      end
  end.

(** The actions of one call on a store of [m] fields: the events of the
    method, without the values. *)
Definition call_actions (m : N) (c : call) : list action :=
  map action_of (trace (spec_dispatch Demo.to_string c (MultiField_new m 0))).

(** One thread per stream, nothing held, the whole stream to do. *)
Definition start (m : N) (streams : list (list call)) : list thread :=
  map (fun cs => mkThread [] (flat_map (call_actions m) cs)) streams.

Definition all_returned (st : list thread) : bool :=
  forallb (fun t => is_nil (todo t) && is_nil (holds t)) st.

Definition remaining (st : list thread) : nat :=
  fold_right (fun t n => (List.length (todo t) + n)%nat) 0%nat st.

(** ** Notions used in the statements and proofs *)

(** The values the printing loop sees. *)
Definition field_at (mf : MultiField) (i : N) : Z := nth (N.to_nat i) (vals mf) 0%Z.

Definition with_commas (l : list string) : string :=
  fold_right (fun x acc => (", " ++ x ++ acc)%string) EmptyString l.

Definition single_line (s : string) : Prop := ~ In "010"%char (list_ascii_of_string s).

Definition is_load (e : event) : Prop :=
  match e with Load _ _ => True | _ => False end.

(** The locking discipline of a thread: it asks for a shared lock only while
    all it holds is shared, for an exclusive lock only while it holds
    nothing, and it ends holding nothing. *)
Definition all_shared (h : holding) : Prop := Forall (fun jm => snd jm = Shared) h.

Definition may_ask (h : holding) (a : action) : Prop :=
  match a with
  | Acquire Shared _ => all_shared h
  | Acquire Exclusive _ => h = []
  | _ => True
  end.

Fixpoint disciplined (h : holding) (p : list action) : Prop :=
  match p with
  | [] => h = []
  | a :: p' => may_ask h a /\ disciplined (after_action h a) p'
  end.

Definition thread_ok (t : thread) : Prop := disciplined (holds t) (todo t).

Definition asks_no_lock (t : thread) : bool :=
  match todo t with
  | Release _ :: _ | Access _ :: _ => true
  | _ => false
  end.

Definition newline : string := String "010" EmptyString.

(** The workload format in the specification's words: one operation per
    line, [read <index>], [write <index> <value>] or [string]; a line that
    starts with any other word counts for nothing. *)
Inductive line : Type :=
| ReadLine (i : N)
| WriteLine (i : N) (v : Z)
| StringLine
| OtherLine (word tail : list ascii).

Definition line_text (l : line) : list ascii :=
  match l with
  | ReadLine i => list_ascii_of_string "read " ++ list_ascii_of_string (show_N i)
  | WriteLine i v =>
      list_ascii_of_string "write " ++ list_ascii_of_string (show_N i) ++
      list_ascii_of_string " " ++ list_ascii_of_string (show_int v)
  | StringLine => list_ascii_of_string "string"
  | OtherLine word tail => word ++ tail
  end.

Definition file_text (ls : list line) : list ascii :=
  flat_map (fun l => line_text l ++ ["010"%char]) ls.

Definition line_ops (l : line) : list Demo.Op :=
  match l with
  | ReadLine i => [Demo.mkOp Demo.READ i 0]
  | WriteLine i v => [Demo.mkOp Demo.WRITE i v]
  | StringLine => [Demo.mkOp Demo.STRING 0 0]
  | OtherLine _ _ => []
  end.

Definition is_command (w : string) : bool :=
  String.eqb w "read" || String.eqb w "write" || String.eqb w "string".

(** The text starts with a character that ends a word, or is empty. *)
Definition ends_word (l : list ascii) : Prop :=
  match l with
  | [] => True
  | c :: _ => isspace c = true
  end.

Definition ends_number (l : list ascii) : Prop :=
  match l with
  | [] => True
  | c :: _ => isdigit c = false
  end.

Definition well_formed_line (l : line) : Prop :=
  match l with
  | ReadLine i => i <= SIZE_MAX
  | WriteLine i v => i <= SIZE_MAX /\ (INT_MIN <= v <= INT_MAX)%Z
  | StringLine => True
  | OtherLine word tail =>
      word <> [] /\ forallb (fun c => negb (isspace c)) word = true /\
      is_command (string_of_list_ascii word) = false /\
      ends_word tail /\ ~ In "010"%char tail
  end.

(** No thread holds a guard that another thread holds exclusively. *)
Definition exclusion (st : list thread) : Prop :=
  forall k j t u i m,
    k <> j -> nth_error st k = Some t -> nth_error st j = Some u ->
    In (i, Exclusive) (holds t) -> ~ In (i, m) (holds u).

(** ** What a lock may add to the exclusion

    [enabled] is the most any reader-writer lock can allow.  A
    [std::shared_mutex] may make a thread wait longer: the standard leaves
    open which of the waiting threads takes a guard, and an implementation
    may hold new readers back while a writer waits.  A [policy] is that
    choice: from the steps taken so far and the state, whether thread [k]
    may take the guard it asks for. *)

Definition policy : Type := list nat -> list thread -> nat -> bool.

Definition admitted (grants : policy) (past : list nat) (st : list thread) (k : nat)
    (a : action) : bool :=
  match a with
  | Acquire _ _ => enabled a (map holds (others k st)) && grants past st k
  | _ => true
  end.

(** Thread [k] performs its next action, if it has one and the lock lets it. *)
Definition step_under (grants : policy) (past : list nat) (k : nat) (st : list thread)
    : option (list thread) :=
  match nth_error st k with
  | Some t =>
      match todo t with
      | a :: rest =>
          if admitted grants past st k a
          then Some (replace k (mkThread (after_action (holds t) a) rest) st)
          else None
      | [] => None
      end
  | None => None
  end.

Fixpoint run_under (grants : policy) (past schedule : list nat) (st : list thread)
    : option (list thread) :=
  match schedule with
  | [] => Some st
  | k :: schedule' =>
      match step_under grants past k st with
      | Some st' => run_under grants (past ++ [k]) schedule' st'
      | None => None
      end
  end.

(** Thread [k] waits for guard [i]. *)
Definition asks (st : list thread) (k : nat) (i : N) : Prop :=
  exists t m rest, nth_error st k = Some t /\ todo t = Acquire m i :: rest.

(** No thread holds guard [i]. *)
Definition free (st : list thread) (i : N) : Prop :=
  forall t m, In t st -> ~ In (i, m) (holds t).

(** The least a lock promises: a guard that no thread holds and that some
    thread asks for is granted to one of the threads that ask for it. *)
Definition grants_free_guards (grants : policy) : Prop :=
  forall past st i,
    free st i -> (exists k, asks st k i) ->
    exists k, asks st k i /\ grants past st k = true.

(** Two locks: one that lets every reader in that exclusion allows, and one
    that holds a reader back while a writer waits for the same guard. *)
Definition reader_preferring : policy := fun _ _ _ => true.

Definition asks_exclusive (i : N) (t : thread) : bool :=
  match todo t with
  | Acquire Exclusive j :: _ => j =? i
  | _ => false
  end.

Definition writer_preferring : policy :=
  fun _ st k =>
    match nth_error st k with
    | Some t =>
        match todo t with
        | Acquire Shared i :: _ => negb (existsb (asks_exclusive i) st)
        | _ => true
        end
    | None => true
    end.

(** The lock order: a thread asks for guard [j], one of the [m] guards, only
    while every guard it holds is below [j]. *)
Fixpoint climbing (m : N) (h : holding) (p : list action) : Prop :=
  match p with
  | [] => True
  | a :: p' =>
      match a with
      | Acquire _ j => j < m /\ Forall (fun im => fst im < j) h
      | _ => True
      end /\ climbing m (after_action h a) p'
  end.

Definition held_by_some (i : N) (st : list thread) : bool :=
  existsb (fun t => existsb (fun im => fst im =? i) (holds t)) st.

Definition in_order (m : N) (t : thread) : Prop := climbing m (holds t) (todo t).

(** Two snapshot-like threads that took guards 0 and 1 in opposite orders,
    and a writer waiting for each of the two guards. *)
Definition crossed : list thread :=
  [mkThread [(0, Shared)] [Acquire Shared 1; Access 0; Access 1; Release 0; Release 1];
   mkThread [(1, Shared)] [Acquire Shared 0; Access 1; Access 0; Release 1; Release 0];
   mkThread [] [Acquire Exclusive 0; Access 0; Release 0];
   mkThread [] [Acquire Exclusive 1; Access 1; Release 1]].

(** ** Further notions: accesses under a guard *)

(** Every load in [t] happens while the shared lock of its field is held and
    every store while the exclusive lock of its field is held, starting from
    the guards [h]. *)
Fixpoint guarded (h : holding) (t : list event) : Prop :=
  match t with
  | [] => True
  | e :: t' =>
      match e with
      | Load i _ => In (i, Shared) h
      | Store i _ => In (i, Exclusive) h
      | _ => True
      end /\ guarded (after_action h (action_of e)) t'
  end.

(** ** Further notions: the words of a workload for lab4.cpp *)

(** What [load_ops] of lab4.cpp reads word by word: a command with its
    numbers, or any other word. *)
Inductive item : Type :=
| ReadItem (i : Z)
| WriteItem (i v : Z)
| StringItem
| OtherItem (word : list ascii).

Definition item_text (it : item) : list ascii :=
  match it with
  | ReadItem i => list_ascii_of_string "read " ++ list_ascii_of_string (show_int i)
  | WriteItem i v =>
      list_ascii_of_string "write " ++ list_ascii_of_string (show_int i) ++
      list_ascii_of_string " " ++ list_ascii_of_string (show_int v)
  | StringItem => list_ascii_of_string "string"
  | OtherItem word => word
  end.

(** Each item is followed by the white space that separates it from the
    next. *)
Definition items_text (its : list (item * list ascii)) : list ascii :=
  flat_map (fun p => item_text (fst p) ++ snd p) its.

Definition item_ops (it : item) : list Lab4.Op :=
  match it with
  | ReadItem i => [Lab4.mkOp Lab4.READ i 0]
  | WriteItem i v => [Lab4.mkOp Lab4.WRITE i v]
  | StringItem => [Lab4.mkOp Lab4.STRING 0 0]
  | OtherItem _ => []
  end.

Definition well_formed_item (p : item * list ascii) : Prop :=
  snd p <> [] /\ forallb isspace (snd p) = true /\
  match fst p with
  | ReadItem i => (INT_MIN <= i <= INT_MAX)%Z
  | WriteItem i v => (INT_MIN <= i <= INT_MAX)%Z /\ (INT_MIN <= v <= INT_MAX)%Z
  | StringItem => True
  | OtherItem word =>
      word <> [] /\ forallb (fun c => negb (isspace c)) word = true /\
      is_command (string_of_list_ascii word) = false
  end.

(** A line as both programs write it: a command with an index that fits an
    [int], or a lone word. *)
Definition plain_line (l : line) : Prop :=
  match l with
  | ReadLine i => (Z.of_N i <= INT_MAX)%Z
  | WriteLine i v => (Z.of_N i <= INT_MAX)%Z /\ (INT_MIN <= v <= INT_MAX)%Z
  | StringLine => True
  | OtherLine word tail =>
      tail = [] /\ word <> [] /\ forallb (fun c => negb (isspace c)) word = true /\
      is_command (string_of_list_ascii word) = false
  end.

Definition item_of_line (l : line) : item * list ascii :=
  (match l with
   | ReadLine i => ReadItem (Z.of_N i)
   | WriteLine i v => WriteItem (Z.of_N i) v
   | StringLine => StringItem
   | OtherLine word _ => OtherItem word
   end, ["010"%char]).

(** ** The workload generators

    The generators draw from a global random engine through distribution
    objects.  What a draw returns is left open: the engine state and the
    draws are the fields of a [random_source], and [double] is a type with
    a comparison, so that what is proved of a generator holds for every
    run of it. *)

Record random_source : Type := mkRandomSource {
  rng : Type;                              (* the state of the engine *)
  engine : rng -> N * rng;                 (* rng() *)
  discrete : nat -> rng -> N * rng;        (* a std::discrete_distribution over n weights *)
  uniform_int : Z -> Z -> rng -> Z * rng;  (* std::uniform_int_distribution<int>(a, b) *)
  uniform_size : N -> N -> rng -> N * rng; (* std::uniform_int_distribution<size_t>(a, b) *)
  real : Type;                             (* double *)
  uniform_real : rng -> real * rng;        (* std::uniform_real_distribution<double>(0.0, 1.0) *)
  real_lt : real -> real -> bool;          (* < on double *)
  hundredth : N -> real;                   (* k / 100.0 *)
  r0_5 : real;
  r0_7 : real;
  r0_85 : real
}.

(** What the standard library promises of the draws. *)
Record lawful (R : random_source) : Prop := mkLawful {
  discrete_range : forall n g, (0 < n)%nat -> fst (discrete R n g) < N.of_nat n;
  uniform_int_range : forall a b g, (a <= b)%Z -> (a <= fst (uniform_int R a b g) <= b)%Z;
  uniform_size_range : forall a b g, a <= b -> a <= fst (uniform_size R a b g) <= b
}.

(** [ofs << s] on the text written so far. *)
Definition put (ofs : list ascii) (s : string) : list ascii := ofs ++ list_ascii_of_string s.

Module Lab4Gen.
Section Generators.
Variable R : random_source.

(** The loop of [generate_variant6_files]. *)
Fixpoint variant6_loop (count : nat) (g : rng R) (ofs : list ascii) : list ascii * rng R :=
  match count with
  | O => (ofs, g)
  | S count' =>
      let (action, g1) := discrete R 7 g in
      match action with
      | 0 => variant6_loop count' g1 (put ofs ("read 0" ++ newline))
      | 1 => let (v, g2) := uniform_int R 1 100 g1 in
             variant6_loop count' g2 (put (put (put ofs "write 0 ") (show_int v)) newline)
      | 2 => variant6_loop count' g1 (put ofs ("read 1" ++ newline))
      | 3 => let (v, g2) := uniform_int R 1 100 g1 in
             variant6_loop count' g2 (put (put (put ofs "write 1 ") (show_int v)) newline)
      | 4 => variant6_loop count' g1 (put ofs ("read 2" ++ newline))
      | 5 => let (v, g2) := uniform_int R 1 100 g1 in
             variant6_loop count' g2 (put (put (put ofs "write 2 ") (show_int v)) newline)
      | 6 => variant6_loop count' g1 (put ofs ("string" ++ newline))
      | _ => variant6_loop count' g1 ofs
      end
  end.

(** [void generate_variant6_files(size_t count, int thread_idx)]: the name
    of the file, its text, and the engine afterwards. *)
Definition generate_variant6_files (count : N) (thread_idx : Z) (g : rng R)
  : string * list ascii * rng R :=
  let fname := ("var6_t" ++ show_int thread_idx ++ ".txt")%string in
  let (ofs, g') := variant6_loop (N.to_nat count) g [] in
  (fname, ofs, g').

(** The loop of [generate_uniform_files]. *)
Fixpoint uniform_loop (m : Z) (count : nat) (g : rng R) (ofs : list ascii)
  : list ascii * rng R :=
  match count with
  | O => (ofs, g)
  | S count' =>
      let (t, g1) := uniform_int R 0 2 g in
      if (t =? 0)%Z then
        let (f, g2) := uniform_int R 0 (m - 1) g1 in
        uniform_loop m count' g2 (put (put (put ofs "read ") (show_int f)) newline)
      else if (t =? 1)%Z then
        let (f, g2) := uniform_int R 0 (m - 1) g1 in
        let (v, g3) := uniform_int R 1 100 g2 in
        uniform_loop m count' g3
          (put (put (put (put (put ofs "write ") (show_int f)) " ") (show_int v)) newline)
      else uniform_loop m count' g1 (put ofs ("string" ++ newline))
  end.

(** [void generate_uniform_files(size_t count, int thread_idx, int m)] *)
Definition generate_uniform_files (count : N) (thread_idx : Z) (m : Z) (g : rng R)
  : string * list ascii * rng R :=
  let fname := ("uniform_t" ++ show_int thread_idx ++ ".txt")%string in
  let (ofs, g') := uniform_loop m (N.to_nat count) g [] in
  (fname, ofs, g').

(** The loop of [generate_skewed_files]. *)
Fixpoint skewed_loop (count : nat) (g : rng R) (ofs : list ascii) : list ascii * rng R :=
  match count with
  | O => (ofs, g)
  | S count' =>
      let (r, g1) := engine R g in
      if r mod 100 <? 90 then
        let (v, g2) := uniform_int R 1 100 g1 in
        skewed_loop count' g2 (put (put (put ofs "write 0 ") (show_int v)) newline)
      else skewed_loop count' g1 (put ofs ("string" ++ newline))
  end.

(** [void generate_skewed_files(size_t count, int thread_idx)] *)
Definition generate_skewed_files (count : N) (thread_idx : Z) (g : rng R)
  : string * list ascii * rng R :=
  let fname := ("skewed_t" ++ show_int thread_idx ++ ".txt")%string in
  let (ofs, g') := skewed_loop (N.to_nat count) g [] in
  (fname, ofs, g').

End Generators.

(** The name [run_test] loads for thread [i]:
    [file_prefix + "_t" + std::to_string(i) + ".txt"]. *)
Definition run_test_file (file_prefix : string) (i : Z) : string :=
  (file_prefix ++ "_t" ++ show_int i ++ ".txt")%string.

End Lab4Gen.

Module DemoGen.
Section Generators.
Variable R : random_source.

(** The name of the file of thread [t]: [prefix << "_thread" << t << ".txt"]. *)
Definition file_name (prefix : string) (t : N) : string :=
  (prefix ++ "_thread" ++ show_N t ++ ".txt")%string.

(** The loop over the threads that the three generators share: one file per
    thread, each written by [loop] from an empty text. *)
Fixpoint files (loop : rng R -> list ascii -> list ascii * rng R)
    (prefix : string) (threads : nat) (t : N) (g : rng R)
  : list (string * list ascii) * rng R :=
  match threads with
  | O => ([], g)
  | S threads' =>
      let (ofs, g1) := loop g [] in
      let (rest, g2) := files loop prefix threads' (t + 1) g1 in
      ((file_name prefix t, ofs) :: rest, g2)
  end.

(** The inner loop of [generate_files_matching_distribution]. *)
Fixpoint matching_loop (read_weights write_weights : list (real R)) (string_prob : real R)
    (count : nat) (g : rng R) (ofs : list ascii) : list ascii * rng R :=
  match count with
  | O => (ofs, g)
  | S count' =>
      let (p, g1) := uniform_real R g in
      if real_lt R p string_prob then
        matching_loop read_weights write_weights string_prob count' g1
          (put ofs ("string" ++ newline))
      else
        let (choose_rw, g2) := uniform_real R g1 in
        if real_lt R choose_rw (r0_5 R) then
          let (idx, g3) := discrete R (List.length read_weights) g2 in
          matching_loop read_weights write_weights string_prob count' g3
            (put (put (put ofs "read ") (show_N idx)) newline)
        else
          let (idx, g3) := discrete R (List.length write_weights) g2 in
          let (val, g4) := uniform_int R 1 1000 g3 in
          matching_loop read_weights write_weights string_prob count' g4
            (put (put (put (put (put ofs "write ") (show_N idx)) " ") (show_int val)) newline)
  end.

(** [void generate_files_matching_distribution(...)]: the files written,
    name and text, and the engine afterwards; nothing when [threads] is 0,
    where [total_ops / threads] divides by zero.  The parameter [m] is not
    used by the function. *)
Definition generate_files_matching_distribution (m : N)
    (read_weights write_weights : list (real R)) (string_prob : real R)
    (total_ops threads : N) (prefix : string) (g : rng R)
  : option (list (string * list ascii) * rng R) :=
  if threads =? 0 then None
  else
    let ops_per_file := total_ops / threads in
    Some (files (matching_loop read_weights write_weights string_prob (N.to_nat ops_per_file))
            prefix (N.to_nat threads) 0 g).

(** [m - 1] on a [size_t]. *)
Definition size_t_pred (m : N) : N := (m + SIZE_MAX) mod (SIZE_MAX + 1).

(** The inner loop of [generate_uniform_files]. *)
Fixpoint uniform_loop (m : N) (count : nat) (g : rng R) (ofs : list ascii)
  : list ascii * rng R :=
  match count with
  | O => (ofs, g)
  | S count' =>
      let (x, g1) := engine R g in
      let r := x mod 3 in
      if r =? 0 then
        let (idx, g2) := uniform_size R 0 (size_t_pred m) g1 in
        uniform_loop m count' g2 (put (put (put ofs "read ") (show_N idx)) newline)
      else if r =? 1 then
        let (idx, g2) := uniform_size R 0 (size_t_pred m) g1 in
        let (val, g3) := uniform_int R 1 1000 g2 in
        uniform_loop m count' g3
          (put (put (put (put (put ofs "write ") (show_N idx)) " ") (show_int val)) newline)
      else uniform_loop m count' g1 (put ofs ("string" ++ newline))
  end.

(** [void generate_uniform_files(size_t m, size_t total_ops, size_t threads,
    const std::string& prefix)] *)
Definition generate_uniform_files (m total_ops threads : N) (prefix : string) (g : rng R)
  : option (list (string * list ascii) * rng R) :=
  if threads =? 0 then None
  else
    let ops_per_file := total_ops / threads in
    Some (files (uniform_loop m (N.to_nat ops_per_file)) prefix (N.to_nat threads) 0 g).

(** The inner loop of [generate_skewed_files]. *)
Fixpoint skewed_loop (m : N) (count : nat) (g : rng R) (ofs : list ascii)
  : list ascii * rng R :=
  match count with
  | O => (ofs, g)
  | S count' =>
      let (x, g1) := engine R g in
      let p := hundredth R (x mod 100) in
      let (ofs1, g2) :=
        if real_lt R p (r0_7 R) then (put ofs ("read 0" ++ newline), g1)
        else if real_lt R p (r0_85 R) then
          let (val, g') := uniform_int R 1 1000 g1 in
          (put (put (put ofs "write 0 ") (show_int val)) newline, g')
        else
          let (y, g') := engine R g1 in
          let idx := (1 + y mod (if 1 <? m then size_t_pred m else 1)) mod (SIZE_MAX + 1) in
          let (z, g'') := engine R g' in
          if z mod 2 =? 0 then (put (put (put ofs "read ") (show_N idx)) newline, g'')
          else
            let (val, g''') := uniform_int R 1 1000 g'' in
            (put (put (put (put (put ofs "write ") (show_N idx)) " ") (show_int val)) newline,
             g''') in
      let (w, g3) := engine R g2 in
      if w mod 1000 =? 0 then skewed_loop m count' g3 (put ofs1 ("string" ++ newline))
      else skewed_loop m count' g3 ofs1
  end.

(** [void generate_skewed_files(size_t m, size_t total_ops, size_t threads,
    const std::string& prefix)] *)
Definition generate_skewed_files (m total_ops threads : N) (prefix : string) (g : rng R)
  : option (list (string * list ascii) * rng R) :=
  if threads =? 0 then None
  else
    let ops_per_file := total_ops / threads in
    Some (files (skewed_loop m (N.to_nat ops_per_file)) prefix (N.to_nat threads) 0 g).

End Generators.
End DemoGen.

(** What a generated line may be: a command on a field below [m], with a
    written value between [lo] and [hi]. *)
Definition line_within (m : N) (lo hi : Z) (l : line) : Prop :=
  match l with
  | ReadLine i => i < m
  | WriteLine i v => i < m /\ (lo <= v <= hi)%Z
  | StringLine => True
  | OtherLine _ _ => False
  end.

Definition call_within (m : N) (lo hi : Z) (c : call) : Prop :=
  match c with
  | CallRead i => i < m
  | CallWrite i v => i < m /\ (lo <= v <= hi)%Z
  | CallSnapshot => True
  end.

Definition line_calls (l : line) : list call := map demo_call (line_ops l).

(** A random source to run the generators on: the engine counts its
    draws. *)
Definition counting_source : random_source :=
  mkRandomSource N
    (fun g => (g mod 18446744073709551616, g + 1))
    (fun n g => ((g mod N.of_nat n) mod 18446744073709551616, g + 1))
    (fun a b g => ((a + Z.of_N g mod (b - a + 1))%Z, g + 1))
    (fun a b g => (a + g mod (b - a + 1), g + 1))
    N
    (fun g => (g mod 100, g + 1))
    N.ltb
    (fun k => k)
    50 70 85.

(** ** Workers in parallel on a shared store

    [run_test] and [run_test_case] start one thread per stream on one
    store and join them.  Here the threads carry the values: a step of a
    thread is one lock, unlock, load or store of its worker, a load sees the
    field as it is at that step, and a guard can be taken whenever exclusion
    allows it, which covers the runs under every lock. *)

Inductive instr : Type :=
| ILock (m : mode) (i : N)
| IUnlock (i : N)
| ILoad (i : N)
| IStore (i : N) (v : Z).

Definition instr_of (e : event) : instr :=
  match e with
  | LockShared i => ILock Shared i
  | LockUnique i => ILock Exclusive i
  | Unlock i => IUnlock i
  | Load i _ => ILoad i
  | Store i v => IStore i v
  end.

Definition instr_action (x : instr) : action :=
  match x with
  | ILock m i => Acquire m i
  | IUnlock i => Release i
  | ILoad i => Access i
  | IStore i _ => Access i
  end.

(** A running worker: the guards it holds, what it has still to do, and
    the values its loads have seen, oldest first. *)
Record worker_state : Type := mkWorker {
  w_holds : holding;
  w_todo : list instr;
  w_seen : list (N * Z)
}.

Record system : Type := mkSystem {
  fields : list Z;
  workers : list worker_state
}.

Definition step_worker (k : nat) (s : system) : option system :=
  match nth_error (workers s) k with
  | Some w =>
      match w_todo w with
      | x :: rest =>
          if enabled (instr_action x) (map w_holds (others k (workers s))) then
            let seen :=
              match x with
              | ILoad i => w_seen w ++ [(i, nth (N.to_nat i) (fields s) 0%Z)]
              | _ => w_seen w
              end in
            let fs :=
              match x with
              | IStore i v => set_nth (N.to_nat i) v (fields s)
              | _ => fields s
              end in
            Some (mkSystem fs
                    (replace k (mkWorker (after_action (w_holds w) (instr_action x)) rest seen)
                       (workers s)))
          else None
      | [] => None
      end
  | None => None
  end.

Fixpoint run_system (schedule : list nat) (s : system) : option system :=
  match schedule with
  | [] => Some s
  | k :: schedule' =>
      match step_worker k s with
      | Some s' => run_system schedule' s'
      | None => None
      end
  end.

(** The instructions of one call on a store of [m] fields: the events of
    the method, a load without the value. *)
Definition call_instrs (m : N) (c : call) : list instr :=
  map instr_of (trace (spec_dispatch Demo.to_string c (MultiField_new m 0))).

(** The threads started on the store [mf], one per stream; [mf] is a store
    as its constructor and the calls leave it, with one guard per field. *)
Definition launch (mf : MultiField) (streams : list (list call)) : system :=
  mkSystem (vals mf)
    (map (fun cs => mkWorker [] (flat_map (call_instrs (size mf)) cs) []) streams).

(** All threads have returned (joined). *)
Definition all_joined (s : system) : bool :=
  forallb (fun w => is_nil (w_todo w) && is_nil (w_holds w)) (workers s).

(** The system without the values. *)
Definition erase_worker (w : worker_state) : thread :=
  mkThread (w_holds w) (map instr_action (w_todo w)).

Definition erase (s : system) : list thread := map erase_worker (workers s).

(** Every load among the instructions [p] is made under the shared lock of
    its field and every store under the exclusive lock, starting from the
    guards [h]. *)
Fixpoint covered (h : holding) (p : list instr) : Prop :=
  match p with
  | [] => True
  | x :: p' =>
      match x with
      | ILoad i => In (i, Shared) h
      | IStore i _ => In (i, Exclusive) h
      | _ => True
      end /\ covered (after_action h (instr_action x)) p'
  end.

(** What holds in every state the threads reach: the store keeps its [n]
    fields, every thread keeps the locking discipline, no guard held
    exclusively is held twice, and every access still to come is under its
    guard. *)
Definition sound (n : nat) (s : system) : Prop :=
  List.length (fields s) = n /\
  Forall thread_ok (erase s) /\
  exclusion (erase s) /\
  Forall (fun w => covered (w_holds w) (w_todo w)) (workers s).

(** What field [i] holds after the instructions [p], from the value [d]. *)
Definition last_store (i : N) (p : list instr) (d : Z) : Z :=
  fold_left (fun acc x =>
               match x with
               | IStore j v => if j =? i then v else acc
               | _ => acc
               end) p d.

(** The threads with their values under a lock that adds its own choice to
    the exclusion: a thread that asks for a guard moves when the lock lets
    it. *)
Definition step_worker_under (grants : policy) (past : list nat) (k : nat) (s : system)
    : option system :=
  match nth_error (workers s) k with
  | Some w =>
      match w_todo w with
      | x :: _ =>
          if admitted grants past (erase s) k (instr_action x) then step_worker k s else None
      | [] => None
      end
  | None => None
  end.

Fixpoint run_system_under (grants : policy) (past schedule : list nat) (s : system)
    : option system :=
  match schedule with
  | [] => Some s
  | k :: schedule' =>
      match step_worker_under grants past k s with
      | Some s' => run_system_under grants (past ++ [k]) schedule' s'
      | None => None
      end
  end.

(** ** The final state that [run_test_case] prints

    [s.substr(0, std::min<size_t>(s.size(), 200))] followed by
    [(s.size() > 200 ? "..." : "")]. *)
Definition final_state_text (s : string) : string :=
  (substring 0 (Nat.min (String.length s) 200) s ++
   (if (200 <? String.length s)%nat then "..." else EmptyString))%string.

(** The field an instruction reads or writes. *)
Definition accessed (x : instr) : option N :=
  match x with
  | ILoad i => Some i
  | IStore i _ => Some i
  | _ => None
  end.

(** The stream a thread of the skewed case of lab4.cpp runs: the file
    [generate_skewed_files] wrote for it, loaded by [load_ops], as calls on
    the store. *)
Definition lab4_skewed_stream (R : random_source) (u : Z) (gen : N * Z * rng R) : list call :=
  let '(count, thread_idx, g) := gen in
  let '(_, text, _) := Lab4Gen.generate_skewed_files R count thread_idx g in
  map lab4_call (Lab4.load_ops u (Some (string_of_list_ascii text))).

(** * Properties *)

(** ** Fields and single-field calls *)

Lemma set_nth_length (n : nat) (v : Z) (l : list Z) :
  List.length (set_nth n v l) = List.length l.
Proof.
  revert n; induction l as [|x l IH]; intros [|n]; simpl; auto.
Qed.

Lemma nth_set_nth_same (n : nat) (v d : Z) (l : list Z) :
  (n < List.length l)%nat -> nth n (set_nth n v l) d = v.
Proof.
  revert n; induction l as [|x l IH]; intros [|n] H; simpl in *; try lia; auto.
  apply IH; lia.
Qed.

Lemma nth_set_nth_other (n k : nat) (v d : Z) (l : list Z) :
  k <> n -> nth k (set_nth n v l) d = nth k l d.
Proof.
  revert n k; induction l as [|x l IH]; intros [|n] [|k] H; simpl; auto; try congruence.
Qed.

Lemma read_out_of_range (mf : MultiField) (i : N) :
  size mf <= i -> read i mf = (0%Z, mf, []).
Proof.
  intros H. unfold read, bind, vals_size, size in *.
  apply N.leb_le in H. rewrite H. reflexivity.
Qed.

Lemma read_in_range (mf : MultiField) (i : N) :
  i < size mf ->
  read i mf =
  (nth (N.to_nat i) (vals mf) 0%Z, mf,
   [LockShared i; Load i (nth (N.to_nat i) (vals mf) 0%Z); Unlock i]).
Proof.
  intros H. unfold read, bind, vals_size, size in *.
  apply N.leb_gt in H. rewrite H. reflexivity.
Qed.

Lemma write_out_of_range (mf : MultiField) (i : N) (v : Z) :
  size mf <= i -> write i v mf = (tt, mf, []).
Proof.
  intros H. unfold write, bind, vals_size, size in *.
  apply N.leb_le in H. rewrite H. reflexivity.
Qed.

Lemma write_in_range (mf : MultiField) (i : N) (v : Z) :
  i < size mf ->
  write i v mf =
  (tt, mkMultiField (set_nth (N.to_nat i) v (vals mf)) (locks mf),
   [LockUnique i; Store i v; Unlock i]).
Proof.
  intros H. unfold write, bind, vals_size, size in *.
  apply N.leb_gt in H. rewrite H. reflexivity.
Qed.

Lemma write_field_effect (mf : MultiField) (c : N) (v : Z) :
  final (write c v mf) = mkMultiField (field_effect (vals mf) (CallWrite c v)) (locks mf).
Proof.
  simpl. destruct (N.leb_spec (N.of_nat (List.length (vals mf))) c) as [H|H].
  - rewrite write_out_of_range by exact H. destruct mf; reflexivity.
  - rewrite write_in_range by exact H. reflexivity.
Qed.

(** C3. An index at or beyond the size of the store is answered without
    touching the store: [read] returns 0, [write] returns, neither takes a
    lock nor reads or changes a field (the list of events is empty and the
    store they leave is the store they were given). *)
Theorem out_of_range_is_noop (mf : MultiField) (i : N) (v : Z) :
  size mf <= i ->
  read i mf = (0%Z, mf, []) /\ write i v mf = (tt, mf, []).
Proof.
  intros H; split; [apply read_out_of_range | apply write_out_of_range]; exact H.
Qed.

Lemma out_of_range_is_noop_witness :
  size (MultiField_new 3 7) <= 8 /\
  read 8 (MultiField_new 3 7) = (0%Z, MultiField_new 3 7, []) /\
  write 8 42 (MultiField_new 3 7) = (tt, MultiField_new 3 7, []).
Proof.
  split; [vm_compute; discriminate | apply (out_of_range_is_noop (MultiField_new 3 7) 8 42)].
  vm_compute; discriminate.
Defined.

(** C5. A write below the size of the store puts the value in that field
    and in no other; the number of fields and of guards stays. *)
Theorem write_updates_one_field (mf : MultiField) (i : N) (v : Z) :
  i < size mf ->
  let mf' := final (write i v mf) in
  nth (N.to_nat i) (vals mf') 0%Z = v /\
  (forall j : N, j <> i -> nth (N.to_nat j) (vals mf') 0%Z = nth (N.to_nat j) (vals mf) 0%Z) /\
  size mf' = size mf /\
  locks mf' = locks mf.
Proof.
  intros H mf'. subst mf'. rewrite write_in_range by exact H.
  unfold final, size in *; simpl. repeat split.
  - apply nth_set_nth_same. lia.
  - intros j Hj. apply nth_set_nth_other. intros E. apply Hj. apply N2Nat.inj; exact E.
  - rewrite set_nth_length. reflexivity.
Qed.

Lemma write_updates_one_field_witness :
  1 < size (MultiField_new 3 7) /\
  let mf' := final (write 1 42 (MultiField_new 3 7)) in
  nth (N.to_nat 1) (vals mf') 0%Z = 42%Z /\
  (forall j : N, j <> 1 ->
     nth (N.to_nat j) (vals mf') 0%Z = nth (N.to_nat j) (vals (MultiField_new 3 7)) 0%Z) /\
  size mf' = size (MultiField_new 3 7) /\
  locks mf' = locks (MultiField_new 3 7).
Proof.
  split; [reflexivity | apply (write_updates_one_field (MultiField_new 3 7) 1 42); reflexivity].
Defined.

(** ** The snapshot *)

Lemma for_each_lock_shared (l : list N) (mf : MultiField) :
  for_each l lock_shared mf = (tt, mf, map LockShared l).
Proof.
  induction l as [|i l IH]; simpl; [reflexivity|].
  unfold bind; simpl. rewrite IH. reflexivity.
Qed.

Lemma for_each_unlock (l : list N) (mf : MultiField) :
  for_each l unlock mf = (tt, mf, map Unlock l).
Proof.
  induction l as [|i l IH]; simpl; [reflexivity|].
  unfold bind; simpl. rewrite IH. reflexivity.
Qed.

Lemma append_assoc (a b c : string) : ((a ++ b) ++ c = a ++ (b ++ c))%string.
Proof. induction a as [|x a IH]; simpl; [reflexivity | rewrite IH; reflexivity]. Qed.

Lemma append_empty_r (a : string) : (a ++ EmptyString)%string = a.
Proof. induction a as [|x a IH]; simpl; [reflexivity | rewrite IH; reflexivity]. Qed.

Lemma comma_separated_cons (x : string) (l : list string) :
  comma_separated (x :: l) = (x ++ with_commas l)%string.
Proof.
  revert x; induction l as [|y l IH]; intros x.
  - simpl. rewrite append_empty_r. reflexivity.
  - change (comma_separated (x :: y :: l)) with (x ++ ", " ++ comma_separated (y :: l))%string.
    rewrite IH. reflexivity.
Qed.

Lemma to_string_loop_events (l : list N) (oss : string) (mf : MultiField) :
  final (to_string_loop l oss mf) = mf /\
  trace (to_string_loop l oss mf) = map (fun i => Load i (field_at mf i)) l.
Proof.
  revert oss; induction l as [|i l IH]; intros oss; simpl; [split; reflexivity|].
  unfold bind, load; simpl.
  match goal with |- context [to_string_loop l ?o mf] => specialize (IH o) end.
  destruct (to_string_loop l _ mf) as [[s mf1] t1]. unfold final, trace in *; simpl in *.
  destruct IH as [-> ->]. split; reflexivity.
Qed.

Lemma to_string_loop_later (n k : nat) (oss : string) (mf : MultiField) :
  result (to_string_loop (map N.of_nat (seq (S k) n)) oss mf) =
  (oss ++ with_commas (map (fun i => show_int (nth i (vals mf) 0%Z)) (seq (S k) n)))%string.
Proof.
  revert k oss; induction n as [|n IH]; intros k oss.
  - simpl. rewrite append_empty_r. reflexivity.
  - cbn [seq map to_string_loop with_commas fold_right].
    replace (0 <? N.of_nat (S k)) with true by (symmetry; apply N.ltb_lt; lia).
    unfold bind, load. rewrite Nat2N.id.
    specialize (IH (S k) ((oss ++ ", ") ++ show_int (nth (S k) (vals mf) 0%Z))%string).
    destruct (to_string_loop _ _ mf) as [[s mf1] t1]. unfold result in *; simpl in *.
    rewrite IH. unfold with_commas. rewrite !append_assoc. reflexivity.
Qed.

Lemma to_string_loop_text (n : nat) (oss : string) (mf : MultiField) :
  result (to_string_loop (indices (N.of_nat n)) oss mf) =
  (oss ++ comma_separated (map (fun i => show_int (nth i (vals mf) 0%Z)) (seq 0 n)))%string.
Proof.
  unfold indices. rewrite Nat2N.id. destruct n as [|n].
  - simpl. rewrite append_empty_r. reflexivity.
  - cbn [seq map]. rewrite comma_separated_cons.
    cbn [to_string_loop]. unfold bind, load. simpl N.to_nat. simpl (0 <? N.of_nat 0).
    pose proof (to_string_loop_later n 0 (oss ++ show_int (nth 0 (vals mf) 0%Z))%string mf) as H.
    cbv iota.
    destruct (to_string_loop _ _ mf) as [[s mf1] t1]. unfold result in *; simpl in *.
    rewrite H. rewrite append_assoc. reflexivity.
Qed.

Lemma map_nth_seq (l : list Z) (d : Z) :
  map (fun i => nth i l d) (seq 0 (List.length l)) = l.
Proof.
  induction l as [|x l IH]; [reflexivity|].
  simpl List.length. rewrite <- cons_seq, <- seq_shift. simpl. rewrite map_map.
  simpl. rewrite IH. reflexivity.
Qed.

Lemma to_string_with_eq (opening closing : string) (mf : MultiField) :
  to_string_with opening closing mf =
  (spec_snapshot_text opening closing (vals mf), mf,
   map LockShared (indices (N.of_nat (locks mf))) ++
   map (fun i => Load i (field_at mf i)) (indices (size mf)) ++
   map Unlock (indices (N.of_nat (locks mf)))).
Proof.
  unfold to_string_with, bind, locks_size, vals_size, ret.
  rewrite for_each_lock_shared.
  pose proof (to_string_loop_events (indices (N.of_nat (List.length (vals mf)))) opening mf) as [Hf Ht].
  pose proof (to_string_loop_text (List.length (vals mf)) opening mf) as Hr.
  destruct (to_string_loop _ opening mf) as [[s mf1] t1].
  unfold final, trace, result in *; simpl in *. subst mf1 t1 s.
  rewrite for_each_unlock.
  unfold spec_snapshot_text, size.
  rewrite <- (map_map (fun i => nth i (vals mf) 0%Z) show_int), map_nth_seq.
  rewrite append_assoc, !app_nil_r. reflexivity.
Qed.

(** The characters of the decimal output. *)

Lemma chars_append (a b : string) :
  list_ascii_of_string (a ++ b) = list_ascii_of_string a ++ list_ascii_of_string b.
Proof. induction a as [|x a IH]; simpl; [reflexivity | rewrite IH; reflexivity]. Qed.

Lemma isdigit_digit_char (d : N) : d < 10 -> isdigit (digit_char d) = true.
Proof.
  intros H. unfold isdigit, digit_char.
  rewrite N_ascii_embedding by lia.
  apply andb_true_iff; split; apply N.leb_le; lia.
Qed.

Lemma show_digits_chars (fuel : nat) (n : N) (acc : string) (c : ascii) :
  In c (list_ascii_of_string (show_digits fuel n acc)) ->
  isdigit c = true \/ In c (list_ascii_of_string acc).
Proof.
  revert n acc; induction fuel as [|fuel IH]; intros n acc H; simpl in H; [right; exact H|].
  assert (D : isdigit (digit_char (n mod 10)) = true)
    by (apply isdigit_digit_char, N.mod_lt; discriminate).
  destruct (n / 10 =? 0).
  - simpl in H. destruct H as [<- | H]; [left; exact D | right; exact H].
  - apply IH in H. destruct H as [H | H]; [left; exact H|].
    simpl in H. destruct H as [<- | H]; [left; exact D | right; exact H].
Qed.

Lemma show_int_chars (z : Z) (c : ascii) :
  In c (list_ascii_of_string (show_int z)) -> isdigit c = true \/ c = "-"%char.
Proof.
  unfold show_int, show_N. destruct (z <? 0)%Z; intros H.
  - cbn [list_ascii_of_string In] in H.
    destruct H as [<- | H]; [right; reflexivity|].
    apply show_digits_chars in H. destruct H as [H | []]. left; exact H.
  - apply show_digits_chars in H. destruct H as [H | []]. left; exact H.
Qed.

Lemma comma_separated_chars (vs : list Z) (c : ascii) :
  In c (list_ascii_of_string (comma_separated (map show_int vs))) ->
  isdigit c = true \/ c = "-"%char \/ c = ","%char \/ c = " "%char.
Proof.
  induction vs as [|v vs IH]; [intros []|].
  cbn [map]. rewrite comma_separated_cons. destruct vs as [|w vs].
  - simpl. rewrite append_empty_r. intros H. apply show_int_chars in H. tauto.
  - rewrite <- comma_separated_cons.
    change (comma_separated (show_int v :: map show_int (w :: vs)))
      with (show_int v ++ ", " ++ comma_separated (map show_int (w :: vs)))%string.
    rewrite !chars_append. rewrite !in_app_iff. intros [H | [H | H]].
    + apply show_int_chars in H. tauto.
    + simpl in H. destruct H as [<- | [<- | []]]; tauto.
    + apply IH in H. tauto.
Qed.

Lemma spec_snapshot_text_single_line (opening closing : string) (vs : list Z) :
  single_line opening -> single_line closing ->
  single_line (spec_snapshot_text opening closing vs).
Proof.
  unfold single_line, spec_snapshot_text. intros Ho Hc.
  rewrite !chars_append, !in_app_iff. intros [H | [H | H]]; try tauto.
  apply comma_separated_chars in H.
  destruct H as [H | [H | [H | H]]]; discriminate H.
Qed.

(** C4. The text of a snapshot is the decimal values of the fields in index
    order, separated by a comma and a space, between an opening and a
    closing bracket (square ones in demo_lab4.cpp, curly ones in lab4.cpp),
    and it has no line break; a store holding 3, 0, 17, 0 gives
    [[3, 0, 17, 0]]. *)
Theorem snapshot_text_format (mf : MultiField) :
  result (Demo.to_string mf) = spec_snapshot_text "[" "]" (vals mf) /\
  result (Lab4.to_string mf) = spec_snapshot_text "{" "}" (vals mf) /\
  single_line (result (Demo.to_string mf)) /\
  single_line (result (Lab4.to_string mf)) /\
  result (Demo.to_string (mkMultiField [3; 0; 17; 0]%Z 4)) = "[3, 0, 17, 0]"%string.
Proof.
  unfold Demo.to_string, Lab4.to_string. rewrite !to_string_with_eq.
  unfold result; simpl fst.
  repeat split.
  - apply spec_snapshot_text_single_line; intros [H | []]; discriminate H.
  - apply spec_snapshot_text_single_line; intros [H | []]; discriminate H.
Qed.

(** ** Which guards a call holds, and when *)

Lemma held_after_app (t1 t2 : list event) :
  held_after (t1 ++ t2) = fold_left after_action (map action_of t2) (held_after t1).
Proof. unfold held_after. rewrite map_app, fold_left_app. reflexivity. Qed.

Lemma acquire_all_shared (l : list N) (h : holding) :
  fold_left after_action (map action_of (map LockShared l)) h =
  h ++ map (fun i => (i, Shared)) l.
Proof.
  revert h; induction l as [|i l IH]; intros h; simpl; [rewrite app_nil_r; reflexivity|].
  rewrite IH, <- app_assoc. reflexivity.
Qed.

Lemma loads_hold_nothing_more (t : list event) (h : holding) :
  Forall is_load t -> fold_left after_action (map action_of t) h = h.
Proof.
  intros H; revert h; induction H as [|e t He _ IH]; intros h; [reflexivity|].
  destruct e; try contradiction. simpl. apply IH.
Qed.

Lemma release_all_shared (l : list N) :
  fold_left after_action (map action_of (map Unlock l)) (map (fun i => (i, Shared)) l) = [].
Proof.
  induction l as [|i l IH]; simpl; [reflexivity|].
  rewrite N.eqb_refl. exact IH.
Qed.

Lemma split_in_the_middle (A B C pre post : list event) (x : event) :
  Forall (fun e => ~ is_load e) A -> Forall (fun e => ~ is_load e) C -> is_load x ->
  A ++ B ++ C = pre ++ x :: post ->
  exists B1 B2, pre = A ++ B1 /\ B = B1 ++ x :: B2.
Proof.
  intros HA HC Hx. revert pre. induction HA as [|a A Ha _ IHA]; intros pre E.
  - simpl in E. revert pre E. induction B as [|b B IHB]; intros pre E.
    + simpl in E. exfalso. rewrite Forall_forall in HC. apply (HC x); [|exact Hx].
      rewrite E. apply in_elt.
    + destruct pre as [|p pre]; simpl in E; injection E as -> E.
      * exists [], B. split; reflexivity.
      * destruct (IHB _ E) as (B1 & B2 & -> & ->).
        exists (p :: B1), B2. split; reflexivity.
  - destruct pre as [|p pre]; simpl in E; injection E as -> E.
    + contradiction.
    + destruct (IHA _ E) as (B1 & B2 & -> & ->). exists B1, B2. split; reflexivity.
Qed.

Lemma single_call_prefixes (a b c : event) (pre post : list event) :
  [a; b; c] = pre ++ post ->
  pre = [] \/ pre = [a] \/ pre = [a; b] \/ pre = [a; b; c].
Proof.
  intros E.
  destruct pre as [|x [|y [|z [|w pre]]]]; simpl in E; inversion E; subst; auto.
Qed.

Lemma indices_length (n : nat) : List.length (indices (N.of_nat n)) = n.
Proof. unfold indices. rewrite length_map, length_seq, Nat2N.id. reflexivity. Qed.

Lemma indices_nth (n k : nat) :
  (k < n)%nat -> nth_error (indices (N.of_nat n)) k = Some (N.of_nat k).
Proof.
  intros H. unfold indices. rewrite Nat2N.id, nth_error_map.
  rewrite (nth_error_nth' _ 0%nat) by (rewrite length_seq; exact H).
  rewrite seq_nth by exact H. reflexivity.
Qed.

Lemma held_in_a_snapshot (n k : nat) :
  (k < n)%nat ->
  nth_error (map (fun j => (j, Shared)) (indices (N.of_nat n))) k = Some (N.of_nat k, Shared).
Proof. intros H. rewrite nth_error_map, indices_nth by exact H. reflexivity. Qed.

(** C1. In a store with one guard per field, [to_string] takes a shared
    lock on guard 0, 1, ..., M-1 in this order, then reads field 0, 1, ...,
    M-1, then gives the locks back: its trace has 3 M events, the k-th is
    the shared lock of guard k, the (M+k)-th the load of field k and the
    (2M+k)-th the release of guard k.  At each load the guards held are the
    M guards 0, ..., M-1, all in shared mode, and the call returns holding
    none.  [read] and [write] never hold more than one guard.  For a store
    of three fields that hold 7, and for a store of two fields of lab4.cpp,
    the events are written out. *)
Theorem snapshot_holds_every_guard (opening closing : string) (mf : MultiField) :
  well_formed mf ->
  let t := trace (to_string_with opening closing mf) in
  let M := List.length (vals mf) in
  List.length t = (3 * M)%nat /\
  (forall k, (k < M)%nat ->
      nth_error t k = Some (LockShared (N.of_nat k)) /\
      nth_error t (M + k) = Some (Load (N.of_nat k) (nth k (vals mf) 0%Z)) /\
      nth_error t (2 * M + k) = Some (Unlock (N.of_nat k))) /\
  (forall pre i v post,
      t = pre ++ Load i v :: post ->
      List.length (held_after pre) = M /\
      forall k, (k < M)%nat -> nth_error (held_after pre) k = Some (N.of_nat k, Shared)) /\
  held_after t = [] /\
  (forall idx v pre post,
      trace (read idx mf) = pre ++ post \/ trace (write idx v mf) = pre ++ post ->
      (List.length (held_after pre) <= 1)%nat) /\
  trace (Demo.to_string (Demo.MultiField 3 7)) =
    [LockShared 0; LockShared 1; LockShared 2; Load 0 7; Load 1 7; Load 2 7;
     Unlock 0; Unlock 1; Unlock 2] /\
  trace (Lab4.to_string (Lab4.MultiField 2)) =
    [LockShared 0; LockShared 1; Load 0 0; Load 1 0; Unlock 0; Unlock 1].
Proof.
  intros W t M. subst t M.
  rewrite to_string_with_eq. unfold trace; cbn [snd].
  unfold well_formed in W. rewrite W. unfold size.
  set (M := List.length (vals mf)). set (all := indices (N.of_nat M)).
  assert (LA : List.length all = M) by apply indices_length.
  assert (HL : Forall is_load (map (fun i => Load i (field_at mf i)) all)).
  { apply Forall_forall. intros e He. apply in_map_iff in He. destruct He as (i & <- & _). exact I. }
  split; [rewrite !length_app, !length_map, LA; lia|].
  split; [|split; [|split; [|split; [|split; reflexivity]]]].
  - intros k Hk. split; [|split].
    + rewrite nth_error_app1 by (rewrite length_map, LA; exact Hk).
      rewrite nth_error_map. unfold all. rewrite indices_nth by exact Hk. reflexivity.
    + rewrite nth_error_app2 by (rewrite length_map, LA; lia).
      rewrite length_map, LA. replace (M + k - M)%nat with k by lia.
      rewrite nth_error_app1 by (rewrite length_map, LA; exact Hk).
      rewrite nth_error_map. unfold all. rewrite indices_nth by exact Hk.
      cbn [option_map]. unfold field_at. rewrite Nat2N.id. reflexivity.
    + rewrite nth_error_app2 by (rewrite length_map, LA; lia).
      rewrite nth_error_app2 by (rewrite !length_map, LA; lia).
      rewrite !length_map, LA. replace (2 * M + k - M - M)%nat with k by lia.
      rewrite nth_error_map. unfold all. rewrite indices_nth by exact Hk. reflexivity.
  - intros pre i v post E.
    apply split_in_the_middle in E.
    + destruct E as (B1 & B2 & -> & E). rewrite held_after_app.
      unfold held_after. rewrite acquire_all_shared. cbn [app].
      rewrite loads_hold_nothing_more by (rewrite E in HL; apply Forall_app in HL; apply HL).
      split; [rewrite length_map; exact LA|].
      intros k Hk. apply held_in_a_snapshot; exact Hk.
    + apply Forall_forall. intros e He. apply in_map_iff in He. destruct He as (j & <- & _). auto.
    + apply Forall_forall. intros e He. apply in_map_iff in He. destruct He as (j & <- & _). auto.
    + exact I.
  - rewrite !held_after_app. unfold held_after. rewrite acquire_all_shared. simpl app.
    rewrite map_app, fold_left_app.
    rewrite (loads_hold_nothing_more _ _ HL). apply release_all_shared.
  - intros idx v pre post E.
    destruct (N.leb_spec (size mf) idx) as [H|H].
    + rewrite read_out_of_range, write_out_of_range in E by exact H.
      unfold trace in E; simpl in E.
      assert (pre = []) as -> by (destruct E as [E|E]; destruct pre; [reflexivity|discriminate|reflexivity|discriminate]).
      simpl; lia.
    + rewrite read_in_range, write_in_range in E by exact H.
      unfold trace in E; simpl in E.
      destruct E as [E|E]; apply single_call_prefixes in E;
        destruct E as [-> | [-> | [-> | ->]]]; unfold held_after; simpl;
        rewrite ?N.eqb_refl; simpl; lia.
Qed.

Lemma snapshot_holds_every_guard_witness :
  let mf := Demo.MultiField 3 7 in
  let t := trace (to_string_with "[" "]" mf) in
  let M := List.length (vals mf) in
  List.length t = (3 * M)%nat /\
  (forall k, (k < M)%nat ->
      nth_error t k = Some (LockShared (N.of_nat k)) /\
      nth_error t (M + k) = Some (Load (N.of_nat k) (nth k (vals mf) 0%Z)) /\
      nth_error t (2 * M + k) = Some (Unlock (N.of_nat k))) /\
  (forall pre i v post,
      t = pre ++ Load i v :: post ->
      List.length (held_after pre) = M /\
      forall k, (k < M)%nat -> nth_error (held_after pre) k = Some (N.of_nat k, Shared)) /\
  held_after t = [] /\
  (forall idx v pre post,
      trace (read idx mf) = pre ++ post \/ trace (write idx v mf) = pre ++ post ->
      (List.length (held_after pre) <= 1)%nat) /\
  trace (Demo.to_string (Demo.MultiField 3 7)) =
    [LockShared 0; LockShared 1; LockShared 2; Load 0 7; Load 1 7; Load 2 7;
     Unlock 0; Unlock 1; Unlock 2] /\
  trace (Lab4.to_string (Lab4.MultiField 2)) =
    [LockShared 0; LockShared 1; Load 0 0; Load 1 0; Unlock 0; Unlock 1].
Proof.
  apply (snapshot_holds_every_guard "[" "]" (Demo.MultiField 3 7)). reflexivity.
Defined.

(** ** Running a stream *)

Lemma lab4_dispatch_spec (op : Lab4.Op) (mf : MultiField) :
  Lab4.dispatch op mf = spec_dispatch Lab4.to_string (lab4_call op) mf.
Proof. unfold Lab4.dispatch, lab4_call. destruct (Lab4.type op); reflexivity. Qed.

Lemma demo_dispatch_spec (op : Demo.Op) (mf : MultiField) :
  Demo.dispatch op mf = spec_dispatch Demo.to_string (demo_call op) mf.
Proof. unfold Demo.dispatch, demo_call. destruct (Demo.type op); reflexivity. Qed.

Lemma lab4_worker_spec (ops : list Lab4.Op) (mf : MultiField) :
  Lab4.worker ops mf = spec_run Lab4.to_string (map lab4_call ops) mf.
Proof.
  revert mf; induction ops as [|op ops IH]; intros mf; [reflexivity|].
  unfold spec_run in *. simpl. unfold bind. rewrite lab4_dispatch_spec.
  destruct (spec_dispatch _ _ mf) as [[u mf1] t1]. rewrite IH. reflexivity.
Qed.

Lemma demo_execute_ops_spec (ops : list Demo.Op) (mf : MultiField) :
  Demo.execute_ops ops mf = spec_run Demo.to_string (map demo_call ops) mf.
Proof.
  revert mf; induction ops as [|op ops IH]; intros mf; [reflexivity|].
  unfold spec_run in *. simpl. unfold bind. rewrite demo_dispatch_spec.
  destruct (spec_dispatch _ _ mf) as [[u mf1] t1]. rewrite IH. reflexivity.
Qed.

Lemma spec_run_app (snapshot : Exec string) (s1 s2 : list call) (mf : MultiField) :
  spec_run snapshot (s1 ++ s2) mf =
  (tt, final (spec_run snapshot s2 (final (spec_run snapshot s1 mf))),
   trace (spec_run snapshot s1 mf) ++ trace (spec_run snapshot s2 (final (spec_run snapshot s1 mf)))).
Proof.
  unfold spec_run. revert mf; induction s1 as [|c s1 IH]; intros mf.
  - simpl. unfold ret, final, trace; simpl.
    destruct (for_each s2 _ mf) as [[[] mf2] t2]. reflexivity.
  - simpl. unfold bind. destruct (spec_dispatch snapshot c mf) as [[u mf1] t1].
    rewrite IH. destruct (for_each s1 _ mf1) as [[u1 mf2] t2].
    unfold final, trace; simpl. rewrite app_assoc. reflexivity.
Qed.

Lemma spec_dispatch_final (opening closing : string) (c : call) (mf : MultiField) :
  final (spec_dispatch (to_string_with opening closing) c mf) =
  mkMultiField (field_effect (vals mf) c) (locks mf).
Proof.
  destruct c as [i | i v |].
  - unfold spec_dispatch, bind.
    destruct (N.leb_spec (size mf) i) as [H|H];
      [rewrite read_out_of_range by exact H | rewrite read_in_range by exact H];
      destruct mf; reflexivity.
  - apply write_field_effect.
  - unfold spec_dispatch, bind. rewrite to_string_with_eq. destruct mf; reflexivity.
Qed.

Lemma spec_run_final (opening closing : string) (cs : list call) (mf : MultiField) :
  final (spec_run (to_string_with opening closing) cs mf) =
  mkMultiField (fold_left field_effect cs (vals mf)) (locks mf).
Proof.
  unfold spec_run. revert mf; induction cs as [|c cs IH]; intros mf.
  - destruct mf; reflexivity.
  - simpl. unfold bind.
    pose proof (spec_dispatch_final opening closing c mf) as H.
    destruct (spec_dispatch _ c mf) as [[u mf1] t1]. unfold final in H; simpl in H. subst mf1.
    specialize (IH (mkMultiField (field_effect (vals mf) c) (locks mf))).
    destruct (for_each cs _ _) as [[u1 mf2] t2]. unfold final in *; simpl in *. exact IH.
Qed.

Lemma field_effect_length (vs : list Z) (c : call) :
  List.length (field_effect vs c) = List.length vs.
Proof.
  destruct c as [i | i v |]; simpl; try reflexivity.
  destruct (_ <=? _); [reflexivity | apply set_nth_length].
Qed.

Lemma indices_ascending (n : nat) : indices (N.of_nat n) = ascending n.
Proof.
  unfold indices. rewrite Nat2N.id. induction n as [|n IH]; [reflexivity|].
  rewrite seq_S, map_app, IH. reflexivity.
Qed.

Lemma spec_dispatch_events (opening closing : string) (c : call) (mf : MultiField) :
  well_formed mf ->
  trace (spec_dispatch (to_string_with opening closing) c mf) = call_events (vals mf) c.
Proof.
  intros W. destruct c as [i | i v |]; unfold spec_dispatch, bind, call_events.
  - fold (size mf). destruct (N.ltb_spec i (size mf)) as [H|H];
      [rewrite read_in_range by exact H | rewrite read_out_of_range by exact H]; reflexivity.
  - fold (size mf). destruct (N.ltb_spec i (size mf)) as [H|H];
      [rewrite write_in_range by exact H | rewrite write_out_of_range by exact H]; reflexivity.
  - rewrite to_string_with_eq. unfold well_formed in W. rewrite W. unfold size.
    rewrite indices_ascending. unfold trace, ret; cbn [snd]. rewrite app_nil_r. reflexivity.
Qed.

Lemma spec_run_events (opening closing : string) (cs : list call) (mf : MultiField) :
  well_formed mf ->
  trace (spec_run (to_string_with opening closing) cs mf) = stream_events (vals mf) cs.
Proof.
  unfold spec_run. revert mf; induction cs as [|c cs IH]; intros mf W; [reflexivity|].
  cbn [for_each stream_events]. unfold bind.
  pose proof (spec_dispatch_final opening closing c mf) as F.
  pose proof (spec_dispatch_events opening closing c mf W) as T.
  destruct (spec_dispatch _ c mf) as [[u mf1] t1]. unfold final, trace in F, T; cbn [fst snd] in F, T.
  subst mf1 t1.
  assert (W1 : well_formed (mkMultiField (field_effect (vals mf) c) (locks mf))).
  { unfold well_formed in *. cbn [vals locks]. rewrite field_effect_length. exact W. }
  specialize (IH _ W1). cbn [vals] in IH.
  destruct (for_each cs _ _) as [[u1 mf2] t2]. unfold trace in *; cbn [snd] in *.
  rewrite IH. reflexivity.
Qed.

Lemma size_t_of_index (z : Z) :
  (0 <= z <= INT_MAX)%Z -> Lab4.size_t_of_int z = Z.to_N z.
Proof.
  intros H. unfold Lab4.size_t_of_int, INT_MAX in *. rewrite Z.mod_small by lia. reflexivity.
Qed.

Lemma size_t_of_negative (z : Z) (n : N) :
  (INT_MIN <= z < 0)%Z -> n <= 2 ^ 64 - 2 ^ 31 -> n <= Lab4.size_t_of_int z.
Proof.
  intros Hi Hs. unfold Lab4.size_t_of_int, INT_MIN in *.
  assert (M : (z mod 2 ^ 64 = 2 ^ 64 + z)%Z).
  { symmetry. apply Z.mod_unique with (q := (-1)%Z); lia. }
  rewrite M. apply N2Z.inj_le. rewrite Z2N.id by lia.
  apply N2Z.inj_le in Hs. rewrite N2Z.inj_sub in Hs by (apply N.pow_le_mono_r; lia).
  rewrite !N2Z.inj_pow in Hs. simpl Z.of_N in Hs. lia.
Qed.

(** The calls lab4.cpp makes for a stream are those of the operations that
    name a field, with the index they name. *)
Lemma lab4_calls_as_named (opening closing : string) (ops : list Lab4.Op) (mf : MultiField) :
  Forall (fun op => (INT_MIN <= Lab4.idx op <= INT_MAX)%Z) ops ->
  size mf <= 2 ^ 64 - 2 ^ 31 ->
  spec_run (to_string_with opening closing) (map lab4_call ops) mf =
  spec_run (to_string_with opening closing) (map int_call (filter names_a_field ops)) mf.
Proof.
  intros F. revert mf. unfold spec_run.
  induction F as [|op ops Hop _ IH]; intros mf Hs; [reflexivity|].
  assert (Hs' : forall c, size (final (spec_dispatch (to_string_with opening closing) c mf))
                          <= 2 ^ 64 - 2 ^ 31).
  { intros c. rewrite spec_dispatch_final. unfold size in *. cbn [vals].
    rewrite field_effect_length. exact Hs. }
  cbn [map filter].
  destruct (names_a_field op) eqn:E.
  - cbn [map for_each]. unfold bind.
    assert (C : lab4_call op = int_call op).
    { unfold lab4_call, int_call, names_a_field in *.
      destruct (Lab4.type op); [| |reflexivity]; apply Z.leb_le in E;
        rewrite size_t_of_index by lia; reflexivity. }
    rewrite C. specialize (Hs' (int_call op)).
    destruct (spec_dispatch _ (int_call op) mf) as [[u mf1] t1]. unfold final in Hs'; cbn [fst snd] in Hs'.
    rewrite (IH mf1 Hs'). reflexivity.
  - cbn [for_each]. unfold bind.
    assert (C : spec_dispatch (to_string_with opening closing) (lab4_call op) mf = (tt, mf, [])).
    { unfold lab4_call, names_a_field in *.
      destruct (Lab4.type op); [| |discriminate]; apply Z.leb_gt in E; cbn [spec_dispatch].
      - unfold bind. rewrite read_out_of_range by (apply size_t_of_negative; [lia | exact Hs]).
        reflexivity.
      - apply write_out_of_range. apply size_t_of_negative; [lia | exact Hs]. }
    rewrite C. rewrite (IH mf Hs).
    destruct (for_each _ _ mf) as [[u mf2] t2]. reflexivity.
Qed.

(** C6. Both workers run a stream as the specification says.  On a store
    with one guard per field the events of a worker are those of the calls
    of its stream, call after call in stream order, each call on the fields
    the calls before it have left: a READ of a field the store has is the
    shared lock of that field, the load and the release, a WRITE the
    exclusive lock, the store of the value and the release, a STRING the
    snapshot over all guards, and an operation whose index the store does
    not have gives no event; the worker leaves the fields that the writes
    of the stream, taken in order, produce, and the guards as they were.
    In lab4.cpp the index of an operation is an [int]: an index from 0 on
    is the field of that number, and an operation with a negative index
    does nothing on a store of at most 2^64 - 2^31 fields.  The events of a
    stream cut in two are those of the first part followed by those of the
    second part run on the store the first part leaves.  For one stream of
    each program the events are written out. *)
Theorem worker_runs_the_stream_in_order (mf : MultiField) :
  well_formed mf ->
  (forall ops,
      Forall (fun op => (INT_MIN <= Lab4.idx op <= INT_MAX)%Z) ops ->
      size mf <= 2 ^ 64 - 2 ^ 31 ->
      let cs := map int_call (filter names_a_field ops) in
      trace (Lab4.worker ops mf) = stream_events (vals mf) cs /\
      final (Lab4.worker ops mf) = mkMultiField (fold_left field_effect cs (vals mf)) (locks mf)) /\
  (forall ops,
      let cs := map demo_call ops in
      trace (Demo.execute_ops ops mf) = stream_events (vals mf) cs /\
      final (Demo.execute_ops ops mf) =
        mkMultiField (fold_left field_effect cs (vals mf)) (locks mf)) /\
  (forall ops1 ops2,
      trace (Lab4.worker (ops1 ++ ops2) mf) =
        trace (Lab4.worker ops1 mf) ++ trace (Lab4.worker ops2 (final (Lab4.worker ops1 mf))) /\
      final (Lab4.worker (ops1 ++ ops2) mf) =
        final (Lab4.worker ops2 (final (Lab4.worker ops1 mf)))) /\
  (forall ops1 ops2,
      trace (Demo.execute_ops (ops1 ++ ops2) mf) =
        trace (Demo.execute_ops ops1 mf) ++
        trace (Demo.execute_ops ops2 (final (Demo.execute_ops ops1 mf))) /\
      final (Demo.execute_ops (ops1 ++ ops2) mf) =
        final (Demo.execute_ops ops2 (final (Demo.execute_ops ops1 mf)))) /\
  trace (Lab4.worker [Lab4.mkOp Lab4.WRITE 2 9; Lab4.mkOp Lab4.READ 1 0;
                      Lab4.mkOp Lab4.READ (-1) 0; Lab4.mkOp Lab4.READ 3 0;
                      Lab4.mkOp Lab4.STRING 0 0; Lab4.mkOp Lab4.WRITE 0 4]
           (Lab4.MultiField 3)) =
    [LockUnique 2; Store 2 9; Unlock 2;
     LockShared 1; Load 1 0; Unlock 1;
     LockShared 0; LockShared 1; LockShared 2; Load 0 0; Load 1 0; Load 2 9;
     Unlock 0; Unlock 1; Unlock 2;
     LockUnique 0; Store 0 4; Unlock 0] /\
  trace (Demo.execute_ops [Demo.mkOp Demo.WRITE 2 9; Demo.mkOp Demo.READ 1 0;
                           Demo.mkOp Demo.READ 3 0; Demo.mkOp Demo.STRING 0 0;
                           Demo.mkOp Demo.WRITE 0 4]
           (Demo.MultiField 3 7)) =
    [LockUnique 2; Store 2 9; Unlock 2;
     LockShared 1; Load 1 7; Unlock 1;
     LockShared 0; LockShared 1; LockShared 2; Load 0 7; Load 1 7; Load 2 9;
     Unlock 0; Unlock 1; Unlock 2;
     LockUnique 0; Store 0 4; Unlock 0].
Proof.
  intros W.
  split; [|split; [|split; [|split; [|split; reflexivity]]]].
  - intros ops F Hs cs. subst cs. rewrite lab4_worker_spec. unfold Lab4.to_string.
    rewrite lab4_calls_as_named by assumption.
    split; [apply spec_run_events; exact W | apply spec_run_final].
  - intros ops cs. subst cs. rewrite demo_execute_ops_spec. unfold Demo.to_string.
    split; [apply spec_run_events; exact W | apply spec_run_final].
  - intros ops1 ops2. rewrite !lab4_worker_spec, map_app, spec_run_app.
    split; reflexivity.
  - intros ops1 ops2. rewrite !demo_execute_ops_spec, map_app, spec_run_app.
    split; reflexivity.
Qed.

Lemma worker_runs_the_stream_in_order_witness :
  let mf := Lab4.MultiField 3 in
  (forall ops,
      Forall (fun op => (INT_MIN <= Lab4.idx op <= INT_MAX)%Z) ops ->
      size mf <= 2 ^ 64 - 2 ^ 31 ->
      let cs := map int_call (filter names_a_field ops) in
      trace (Lab4.worker ops mf) = stream_events (vals mf) cs /\
      final (Lab4.worker ops mf) = mkMultiField (fold_left field_effect cs (vals mf)) (locks mf)) /\
  (forall ops,
      let cs := map demo_call ops in
      trace (Demo.execute_ops ops mf) = stream_events (vals mf) cs /\
      final (Demo.execute_ops ops mf) =
        mkMultiField (fold_left field_effect cs (vals mf)) (locks mf)) /\
  (forall ops1 ops2,
      trace (Lab4.worker (ops1 ++ ops2) mf) =
        trace (Lab4.worker ops1 mf) ++ trace (Lab4.worker ops2 (final (Lab4.worker ops1 mf))) /\
      final (Lab4.worker (ops1 ++ ops2) mf) =
        final (Lab4.worker ops2 (final (Lab4.worker ops1 mf)))) /\
  (forall ops1 ops2,
      trace (Demo.execute_ops (ops1 ++ ops2) mf) =
        trace (Demo.execute_ops ops1 mf) ++
        trace (Demo.execute_ops ops2 (final (Demo.execute_ops ops1 mf))) /\
      final (Demo.execute_ops (ops1 ++ ops2) mf) =
        final (Demo.execute_ops ops2 (final (Demo.execute_ops ops1 mf)))) /\
  trace (Lab4.worker [Lab4.mkOp Lab4.WRITE 2 9; Lab4.mkOp Lab4.READ 1 0;
                      Lab4.mkOp Lab4.READ (-1) 0; Lab4.mkOp Lab4.READ 3 0;
                      Lab4.mkOp Lab4.STRING 0 0; Lab4.mkOp Lab4.WRITE 0 4]
           (Lab4.MultiField 3)) =
    [LockUnique 2; Store 2 9; Unlock 2;
     LockShared 1; Load 1 0; Unlock 1;
     LockShared 0; LockShared 1; LockShared 2; Load 0 0; Load 1 0; Load 2 9;
     Unlock 0; Unlock 1; Unlock 2;
     LockUnique 0; Store 0 4; Unlock 0] /\
  trace (Demo.execute_ops [Demo.mkOp Demo.WRITE 2 9; Demo.mkOp Demo.READ 1 0;
                           Demo.mkOp Demo.READ 3 0; Demo.mkOp Demo.STRING 0 0;
                           Demo.mkOp Demo.WRITE 0 4]
           (Demo.MultiField 3 7)) =
    [LockUnique 2; Store 2 9; Unlock 2;
     LockShared 1; Load 1 7; Unlock 1;
     LockShared 0; LockShared 1; LockShared 2; Load 0 7; Load 1 7; Load 2 9;
     Unlock 0; Unlock 1; Unlock 2;
     LockUnique 0; Store 0 4; Unlock 0].
Proof.
  apply (worker_runs_the_stream_in_order (Lab4.MultiField 3)). reflexivity.
Defined.

(** C7. In a store that has a field 0, the stream write(0,5), read(0) run
    alone makes the read see 5: the events of the run are the write of 5
    under the exclusive lock followed by a load of 5 under the shared lock,
    and [read 0] in the store the write leaves returns 5.  Both workers. *)
Theorem read_after_write_returns_it (mf : MultiField) :
  0 < size mf ->
  trace (Lab4.worker [Lab4.mkOp Lab4.WRITE 0 5; Lab4.mkOp Lab4.READ 0 0] mf) =
    [LockUnique 0; Store 0 5; Unlock 0; LockShared 0; Load 0 5; Unlock 0] /\
  result (read 0 (final (Lab4.worker [Lab4.mkOp Lab4.WRITE 0 5] mf))) = 5%Z /\
  trace (Demo.execute_ops [Demo.mkOp Demo.WRITE 0 5; Demo.mkOp Demo.READ 0 0] mf) =
    [LockUnique 0; Store 0 5; Unlock 0; LockShared 0; Load 0 5; Unlock 0] /\
  result (read 0 (final (Demo.execute_ops [Demo.mkOp Demo.WRITE 0 5] mf))) = 5%Z.
Proof.
  intros H.
  assert (H' : 0 < size (mkMultiField (set_nth (N.to_nat 0) 5 (vals mf)) (locks mf)))
    by (unfold size in *; cbn [vals]; rewrite set_nth_length; exact H).
  assert (V : nth (N.to_nat 0) (set_nth (N.to_nat 0) 5 (vals mf)) 0%Z = 5%Z)
    by (apply nth_set_nth_same; unfold size in H; lia).
  unfold Lab4.worker, Demo.execute_ops, Lab4.dispatch, Demo.dispatch.
  cbn [Lab4.type Demo.type Lab4.idx Demo.idx Lab4.value Demo.value].
  change (Lab4.size_t_of_int 0) with 0.
  unfold bind. rewrite !write_in_range by exact H. cbv iota. rewrite !read_in_range by exact H'.
  unfold trace, result, final, ret; cbn [fst snd app vals]. rewrite !V. repeat split.
Qed.

Lemma read_after_write_returns_it_witness :
  trace (Lab4.worker [Lab4.mkOp Lab4.WRITE 0 5; Lab4.mkOp Lab4.READ 0 0] (Lab4.MultiField 3)) =
    [LockUnique 0; Store 0 5; Unlock 0; LockShared 0; Load 0 5; Unlock 0] /\
  result (read 0 (final (Lab4.worker [Lab4.mkOp Lab4.WRITE 0 5] (Lab4.MultiField 3)))) = 5%Z /\
  trace (Demo.execute_ops [Demo.mkOp Demo.WRITE 0 5; Demo.mkOp Demo.READ 0 0] (Lab4.MultiField 3)) =
    [LockUnique 0; Store 0 5; Unlock 0; LockShared 0; Load 0 5; Unlock 0] /\
  result (read 0 (final (Demo.execute_ops [Demo.mkOp Demo.WRITE 0 5] (Lab4.MultiField 3)))) = 5%Z.
Proof.
  apply (read_after_write_returns_it (Lab4.MultiField 3)). reflexivity.
Defined.

(** ** Initial values *)

Lemma fold_field_effect_length (cs : list call) (vs : list Z) :
  List.length (fold_left field_effect cs vs) = List.length vs.
Proof.
  revert vs; induction cs as [|c cs IH]; intros vs; simpl; [reflexivity|].
  rewrite IH. apply field_effect_length.
Qed.

Lemma fold_field_effect_untouched (cs : list call) (vs : list Z) (i : N) (d : Z) :
  (forall v, ~ In (CallWrite i v) cs) ->
  nth (N.to_nat i) (fold_left field_effect cs vs) d = nth (N.to_nat i) vs d.
Proof.
  revert vs; induction cs as [|c cs IH]; intros vs H; simpl; [reflexivity|].
  rewrite IH by (intros v Hv; apply (H v); right; exact Hv).
  destruct c as [j | j w |]; simpl; try reflexivity.
  destruct (_ <=? _); [reflexivity|].
  apply nth_set_nth_other. intros E. apply N2Nat.inj in E. subst j.
  apply (H w). left; reflexivity.
Qed.

Lemma read_result (mf : MultiField) (i : N) :
  result (read i mf) = if size mf <=? i then 0%Z else nth (N.to_nat i) (vals mf) 0%Z.
Proof.
  destruct (N.leb_spec (size mf) i) as [H|H];
    [rewrite read_out_of_range by exact H | rewrite read_in_range by exact H]; reflexivity.
Qed.

(** C10. In a store of demo_lab4.cpp built with size [m] and initial value
    [v0], after any stream that has no write to [i], [read] of the in-range
    index [i] returns [v0], and [read] of an index at or beyond [m] returns
    0, whatever [v0] is. *)
Theorem unwritten_field_reads_initial_value
    (m : N) (v0 : Z) (ops : list Demo.Op) (i j : N) :
  i < m -> m <= j ->
  (forall op, In op ops -> Demo.type op = Demo.WRITE -> Demo.idx op <> i) ->
  let mf := final (Demo.execute_ops ops (Demo.MultiField m v0)) in
  result (read i mf) = v0 /\ result (read j mf) = 0%Z.
Proof.
  intros Hi Hj Hw mf. subst mf.
  rewrite demo_execute_ops_spec. unfold Demo.to_string. rewrite spec_run_final, !read_result.
  unfold size; cbn [vals]. rewrite fold_field_effect_length.
  unfold Demo.MultiField, MultiField_new; cbn [vals]. rewrite repeat_length, N2Nat.id.
  replace (m <=? i) with false by (symmetry; apply N.leb_gt; exact Hi).
  replace (m <=? j) with true by (symmetry; apply N.leb_le; exact Hj).
  split; [|reflexivity].
  rewrite fold_field_effect_untouched.
  - rewrite (nth_indep _ 0%Z v0) by (rewrite repeat_length; lia). apply nth_repeat.
  - intros v Hin. apply in_map_iff in Hin. destruct Hin as (op & E & Hop).
    unfold demo_call in E. destruct (Demo.type op) eqn:T; try discriminate.
    injection E as E _. exact (Hw op Hop T E).
Qed.

Lemma unwritten_field_reads_initial_value_witness :
  let ops := [Demo.mkOp Demo.WRITE 0 5; Demo.mkOp Demo.STRING 0 0; Demo.mkOp Demo.READ 1 0;
              Demo.mkOp Demo.WRITE 9 4] in
  let mf := final (Demo.execute_ops ops (Demo.MultiField 3 7)) in
  result (read 1 mf) = 7%Z /\ result (read 3 mf) = 0%Z.
Proof.
  apply (unwritten_field_reads_initial_value 3 7
           [Demo.mkOp Demo.WRITE 0 5; Demo.mkOp Demo.STRING 0 0; Demo.mkOp Demo.READ 1 0;
            Demo.mkOp Demo.WRITE 9 4] 1 3).
  - reflexivity.
  - vm_compute; discriminate.
  - intros op [<- | [<- | [<- | [<- | []]]]] T; simpl; discriminate.
Defined.

(** ** The shape of the store never changes *)

Lemma spec_run_keeps_shape (opening closing : string) (cs : list call) (mf : MultiField) :
  well_formed mf ->
  well_formed (final (spec_run (to_string_with opening closing) cs mf)) /\
  size (final (spec_run (to_string_with opening closing) cs mf)) = size mf.
Proof.
  intros W. rewrite spec_run_final. unfold well_formed, size in *. cbn [vals locks].
  rewrite fold_field_effect_length. split; [exact W | reflexivity].
Qed.

(** ** Workers in parallel *)

(** The actions of a call do not depend on what the fields hold. *)
Lemma dispatch_actions (opening closing : string) (c : call) (mf : MultiField) :
  well_formed mf ->
  map action_of (trace (spec_dispatch (to_string_with opening closing) c mf)) =
  match c with
  | CallRead i => if size mf <=? i then [] else [Acquire Shared i; Access i; Release i]
  | CallWrite i _ => if size mf <=? i then [] else [Acquire Exclusive i; Access i; Release i]
  | CallSnapshot =>
      map (Acquire Shared) (indices (size mf)) ++ map Access (indices (size mf)) ++
      map Release (indices (size mf))
  end.
Proof.
  intros W. destruct c as [i | i v |]; unfold spec_dispatch, bind.
  - destruct (N.leb_spec (size mf) i) as [H|H];
      [rewrite read_out_of_range by exact H | rewrite read_in_range by exact H]; reflexivity.
  - destruct (N.leb_spec (size mf) i) as [H|H];
      [rewrite write_out_of_range by exact H | rewrite write_in_range by exact H]; reflexivity.
  - rewrite to_string_with_eq. unfold well_formed in W. rewrite W. fold (size mf).
    unfold trace, ret; cbn [snd]. rewrite app_nil_r, !map_app, !map_map. reflexivity.
Qed.

Lemma MultiField_new_well_formed (m : N) (v0 : Z) :
  well_formed (MultiField_new m v0) /\ size (MultiField_new m v0) = m.
Proof.
  unfold well_formed, size, MultiField_new; cbn [vals locks].
  rewrite repeat_length, N2Nat.id. split; reflexivity.
Qed.

Lemma call_actions_eq (m : N) (c : call) :
  call_actions m c =
  match c with
  | CallRead i => if m <=? i then [] else [Acquire Shared i; Access i; Release i]
  | CallWrite i _ => if m <=? i then [] else [Acquire Exclusive i; Access i; Release i]
  | CallSnapshot =>
      map (Acquire Shared) (indices m) ++ map Access (indices m) ++ map Release (indices m)
  end.
Proof.
  unfold call_actions, Demo.to_string.
  destruct (MultiField_new_well_formed m 0) as [W S].
  rewrite dispatch_actions by exact W. rewrite S. reflexivity.
Qed.

Lemma call_actions_of_any_store (opening closing : string) (c : call) (mf : MultiField) :
  well_formed mf ->
  map action_of (trace (spec_dispatch (to_string_with opening closing) c mf)) =
  call_actions (size mf) c.
Proof. intros W. rewrite call_actions_eq. apply dispatch_actions; exact W. Qed.

Lemma disciplined_app (p1 p2 : list action) (h : holding) :
  disciplined h p1 -> disciplined [] p2 -> disciplined h (p1 ++ p2).
Proof.
  revert h; induction p1 as [|a p1 IH]; intros h H1 H2; simpl in *.
  - subst h. exact H2.
  - destruct H1 as [Ha H1]. split; [exact Ha | apply IH; assumption].
Qed.

Lemma all_shared_map (l : list N) : all_shared (map (fun i => (i, Shared)) l).
Proof. apply Forall_forall. intros jm H. apply in_map_iff in H. destruct H as (i & <- & _). reflexivity. Qed.

Lemma disciplined_acquire_all (l l0 : list N) (p : list action) :
  disciplined (map (fun i => (i, Shared)) (l0 ++ l)) p ->
  disciplined (map (fun i => (i, Shared)) l0) (map (Acquire Shared) l ++ p).
Proof.
  revert l0; induction l as [|i l IH]; intros l0 H; simpl.
  - rewrite app_nil_r in H. exact H.
  - split; [apply all_shared_map|].
    change [(i, Shared)] with (map (fun j : N => (j, Shared)) [i]). rewrite <- map_app.
    apply IH. rewrite <- app_assoc. exact H.
Qed.

Lemma disciplined_access_all (l : list N) (h : holding) (p : list action) :
  disciplined h p -> disciplined h (map Access l ++ p).
Proof. induction l as [|i l IH]; intros H; simpl; [exact H | split; [exact I | apply IH; exact H]]. Qed.

Lemma disciplined_release_all (l : list N) :
  disciplined (map (fun i => (i, Shared)) l) (map Release l).
Proof.
  induction l as [|i l IH]; simpl; [reflexivity|].
  split; [exact I|]. rewrite N.eqb_refl. exact IH.
Qed.

Lemma disciplined_call (m : N) (c : call) : disciplined [] (call_actions m c).
Proof.
  rewrite call_actions_eq. destruct c as [i | i v |].
  - destruct (m <=? i); simpl; [reflexivity|].
    rewrite N.eqb_refl. repeat split. constructor.
  - destruct (m <=? i); simpl; [reflexivity|].
    rewrite N.eqb_refl. repeat split.
  - apply (disciplined_acquire_all (indices m) []). simpl app.
    apply disciplined_access_all. apply disciplined_release_all.
Qed.

Lemma disciplined_stream (m : N) (cs : list call) :
  disciplined [] (flat_map (call_actions m) cs).
Proof.
  induction cs as [|c cs IH]; simpl; [reflexivity|].
  apply disciplined_app; [apply disciplined_call | exact IH].
Qed.

Lemma start_ok (m : N) (streams : list (list call)) : Forall thread_ok (start m streams).
Proof.
  unfold start. apply Forall_forall. intros t H. apply in_map_iff in H.
  destruct H as (cs & <- & _). apply disciplined_stream.
Qed.

Lemma others_incl {A : Type} (k : nat) (l : list A) (x : A) : In x (others k l) -> In x l.
Proof.
  unfold others. intros H. apply in_app_or in H. destruct H as [H|H].
  - rewrite <- (firstn_skipn k l). apply in_or_app; left; exact H.
  - rewrite <- (firstn_skipn (S k) l). apply in_or_app; right; exact H.
Qed.

Lemma existsb_false {A : Type} (f : A -> bool) (l : list A) :
  existsb f l = false -> forall x, In x l -> f x = false.
Proof.
  intros H x Hx. destruct (f x) eqn:E; [|reflexivity].
  rewrite <- H. symmetry. apply existsb_exists. exists x. split; assumption.
Qed.

Lemma some_thread_active (st : list thread) :
  remaining st <> 0%nat -> exists t, In t st /\ todo t <> [].
Proof.
  induction st as [|t st IH]; simpl; intros H; [congruence|].
  destruct (todo t) as [|a p] eqn:E.
  - simpl in H. destruct (IH H) as (t' & Hin & Ht'). exists t'. split; [right|]; assumption.
  - exists t. split; [left; reflexivity | rewrite E; discriminate].
Qed.

Lemma step_thread_inv (k : nat) (st st' : list thread) :
  step_thread k st = Some st' ->
  exists t a rest,
    nth_error st k = Some t /\ todo t = a :: rest /\
    st' = replace k (mkThread (after_action (holds t) a) rest) st.
Proof.
  unfold step_thread. destruct (nth_error st k) as [t|] eqn:Ek; [|discriminate].
  destruct (todo t) as [|a rest] eqn:E; [discriminate|].
  destruct (enabled a _); [|discriminate].
  intros H; injection H as <-. exists t, a, rest. auto.
Qed.

Lemma replace_Forall {A : Type} (P : A -> Prop) (k : nat) (a : A) (l : list A) :
  Forall P l -> P a -> Forall P (replace k a l).
Proof.
  intros Hl Ha. revert k; induction Hl as [|x l Hx Hl IH]; intros [|k]; simpl;
    constructor; auto.
Qed.

Lemma remaining_replace (k : nat) (t t' : thread) (st : list thread) :
  nth_error st k = Some t ->
  (remaining st + List.length (todo t') = remaining (replace k t' st) + List.length (todo t))%nat.
Proof.
  revert k; induction st as [|x st IH]; intros [|k] H; simpl in *; try discriminate.
  - injection H as ->. lia.
  - specialize (IH k H). lia.
Qed.

Lemma step_keeps_discipline (k : nat) (st st' : list thread) :
  Forall thread_ok st -> step_thread k st = Some st' ->
  Forall thread_ok st' /\ remaining st = S (remaining st').
Proof.
  intros Hok H. apply step_thread_inv in H. destruct H as (t & a & rest & Hk & Ht & ->).
  split.
  - apply replace_Forall; [exact Hok|].
    rewrite Forall_forall in Hok. specialize (Hok t (nth_error_In _ _ Hk)).
    unfold thread_ok in *. rewrite Ht in Hok. simpl in *. apply Hok.
  - pose proof (remaining_replace k t (mkThread (after_action (holds t) a) rest) st Hk) as R.
    rewrite Ht in R. simpl in R. lia.
Qed.

Lemma run_keeps_discipline (schedule : list nat) (st0 st : list thread) :
  Forall thread_ok st0 -> run schedule st0 = Some st ->
  Forall thread_ok st /\ (List.length schedule + remaining st = remaining st0)%nat.
Proof.
  revert st0; induction schedule as [|k schedule IH]; intros st0 Hok H; simpl in H.
  - injection H as <-. split; [exact Hok | reflexivity].
  - destruct (step_thread k st0) as [st1|] eqn:E; [|discriminate].
    destruct (step_keeps_discipline k st0 st1 Hok E) as [Hok1 R].
    destruct (IH st1 Hok1 H) as [Hok' R']. split; [exact Hok' | simpl; lia].
Qed.

Lemma nothing_left (st : list thread) :
  Forall thread_ok st -> remaining st = 0%nat -> all_returned st = true.
Proof.
  induction 1 as [|t st Ht _ IH]; simpl; intros R; [reflexivity|].
  unfold thread_ok in Ht. destruct (todo t) as [|a p]; simpl in *; [|lia].
  rewrite Ht, IH by exact R. reflexivity.
Qed.

Lemma step_under_step (grants : policy) (past : list nat) (k : nat) (st st' : list thread) :
  step_under grants past k st = Some st' -> step_thread k st = Some st'.
Proof.
  unfold step_under, step_thread. destruct (nth_error st k) as [t|]; [|discriminate].
  destruct (todo t) as [|a rest]; [discriminate|].
  destruct a as [m i|i|i]; cbn [admitted enabled]; try (intros H; exact H).
  destruct (forallb _ _); [|discriminate]. cbn [andb].
  destruct (grants past st k); [intros H; exact H | discriminate].
Qed.

Lemma run_under_run (grants : policy) (schedule past : list nat) (st st' : list thread) :
  run_under grants past schedule st = Some st' -> run schedule st = Some st'.
Proof.
  revert past st; induction schedule as [|k schedule IH]; intros past st H; simpl in *;
    [exact H|].
  destruct (step_under grants past k st) as [st1|] eqn:E; [|discriminate].
  rewrite (step_under_step _ _ _ _ _ E). apply (IH _ _ H).
Qed.

Lemma run_under_app (grants : policy) (s1 s2 past : list nat) (st0 st1 : list thread) :
  run_under grants past s1 st0 = Some st1 ->
  run_under grants past (s1 ++ s2) st0 = run_under grants (past ++ s1) s2 st1.
Proof.
  revert past st0; induction s1 as [|k s1 IH]; intros past st0 H; simpl in *.
  - injection H as <-. rewrite app_nil_r. reflexivity.
  - destruct (step_under grants past k st0) as [st|]; [|discriminate].
    rewrite (IH _ _ H), <- app_assoc. reflexivity.
Qed.

(** The lock order is kept by every call, so by every stream. *)

Lemma climbing_app (m : N) (p1 p2 : list action) (h : holding) :
  climbing m h p1 -> disciplined h p1 -> climbing m [] p2 -> climbing m h (p1 ++ p2).
Proof.
  revert h; induction p1 as [|a p1 IH]; intros h C D C2; simpl in *.
  - subst h. exact C2.
  - destruct C as [Ca C], D as [_ D]. split; [exact Ca | apply IH; assumption].
Qed.

Lemma climbing_no_lock (m : N) (p : list action) (h : holding) :
  Forall (fun a => match a with Acquire _ _ => False | _ => True end) p -> climbing m h p.
Proof.
  intros F; revert h; induction F as [|a p Ha _ IH]; intros h; simpl; [exact I|].
  split; [destruct a; [contradiction | exact I | exact I] | apply IH].
Qed.

Lemma climbing_acquire_all (m : N) (b a : nat) (p : list action) :
  (a + b <= N.to_nat m)%nat ->
  (forall h, climbing m h p) ->
  climbing m (map (fun i => (i, Shared)) (map N.of_nat (seq 0 a)))
    (map (Acquire Shared) (map N.of_nat (seq a b)) ++ p).
Proof.
  revert a; induction b as [|b IH]; intros a Hab Hp; [apply Hp|].
  cbn [seq map app climbing]. split.
  - split; [lia|]. apply Forall_forall. intros im Him.
    apply in_map_iff in Him. destruct Him as (i & <- & Hi).
    apply in_map_iff in Hi. destruct Hi as (n & <- & Hn). apply in_seq in Hn. cbn [fst]. lia.
  - cbn [after_action].
    change [(N.of_nat a, Shared)] with (map (fun i : N => (i, Shared)) (map N.of_nat [a])).
    rewrite <- !map_app.
    replace (seq 0 a ++ [a]) with (seq 0 (S a)) by (rewrite seq_S; reflexivity).
    apply IH; [lia | exact Hp].
Qed.

Lemma climbing_call (m : N) (c : call) : climbing m [] (call_actions m c).
Proof.
  rewrite call_actions_eq. destruct c as [i | i v |].
  - destruct (N.leb_spec m i); simpl; [exact I|]. repeat split; [assumption | constructor].
  - destruct (N.leb_spec m i); simpl; [exact I|]. repeat split; [assumption | constructor].
  - unfold indices. apply (climbing_acquire_all m (N.to_nat m) 0); [lia|].
    intros h. apply climbing_no_lock. apply Forall_app. split;
      apply Forall_forall; intros a Ha; apply in_map_iff in Ha; destruct Ha as (i & <- & _); exact I.
Qed.

Lemma climbing_stream (m : N) (cs : list call) : climbing m [] (flat_map (call_actions m) cs).
Proof.
  induction cs as [|c cs IH]; simpl; [exact I|].
  apply climbing_app; [apply climbing_call | apply disciplined_call | exact IH].
Qed.

Lemma start_in_order (m : N) (streams : list (list call)) :
  Forall (in_order m) (start m streams).
Proof.
  unfold start. apply Forall_forall. intros t H. apply in_map_iff in H.
  destruct H as (cs & <- & _). apply climbing_stream.
Qed.

Lemma step_keeps_order (m : N) (k : nat) (st st' : list thread) :
  Forall (in_order m) st -> step_thread k st = Some st' -> Forall (in_order m) st'.
Proof.
  intros Hok H. apply step_thread_inv in H. destruct H as (t & a & rest & Hk & Ht & ->).
  apply replace_Forall; [exact Hok|].
  rewrite Forall_forall in Hok. specialize (Hok t (nth_error_In _ _ Hk)).
  unfold in_order in *. rewrite Ht in Hok. simpl in *. apply Hok.
Qed.

Lemma run_keeps_order (m : N) (schedule : list nat) (st0 st : list thread) :
  Forall (in_order m) st0 -> run schedule st0 = Some st -> Forall (in_order m) st.
Proof.
  revert st0; induction schedule as [|k schedule IH]; intros st0 Hok H; simpl in H.
  - injection H as <-. exact Hok.
  - destruct (step_thread k st0) as [st1|] eqn:E; [|discriminate].
    apply (IH st1); [eapply step_keeps_order; eassumption | exact H].
Qed.

(** Progress, up the lock order. *)

Lemma can_step_under (grants : policy) (past : list nat) (st : list thread) (k : nat)
    (t : thread) (a : action) (rest : list action) :
  nth_error st k = Some t -> todo t = a :: rest ->
  admitted grants past st k a = true ->
  exists k' st', step_under grants past k' st = Some st'.
Proof.
  intros Hk Ht He. exists k. unfold step_under. rewrite Hk, Ht, He. eexists; reflexivity.
Qed.

Lemma held_by_some_false (i : N) (st : list thread) :
  held_by_some i st = false -> free st i.
Proof.
  intros H t m Hin Hh. unfold held_by_some in H.
  pose proof (existsb_false _ _ H t Hin) as H1. cbv beta in H1.
  pose proof (existsb_false _ _ H1 (i, m) Hh) as H2. cbv beta in H2. cbn [fst] in H2.
  rewrite N.eqb_refl in H2. discriminate.
Qed.

Lemma free_no_conflict (st : list thread) (i : N) (m : mode) (k : nat) :
  free st i -> enabled (Acquire m i) (map holds (others k st)) = true.
Proof.
  intros F. cbn [enabled]. apply forallb_forall. intros h Hh.
  apply in_map_iff in Hh. destruct Hh as (t & <- & Hin). apply others_incl in Hin.
  apply negb_true_iff. unfold conflicts.
  destruct (existsb _ (holds t)) eqn:E; [|reflexivity].
  apply existsb_exists in E. destruct E as ([j mj] & Hj & Hc). cbn [fst snd] in Hc.
  apply andb_true_iff in Hc. destruct Hc as [Hc _]. apply N.eqb_eq in Hc. subst j.
  exfalso. exact (F t mj Hin Hj).
Qed.

Lemma climb_to_a_free_guard (grants : policy) (past : list nat) (m : N) (st : list thread) :
  grants_free_guards grants ->
  Forall thread_ok st -> Forall (in_order m) st ->
  (forall t, In t st -> asks_no_lock t = false) ->
  forall (n : nat) (k : nat) (i : N),
    asks st k i -> (N.to_nat m - N.to_nat i <= n)%nat ->
    exists k' st', step_under grants past k' st = Some st'.
Proof.
  intros G Hok Hord Hno. rewrite Forall_forall in Hok, Hord.
  induction n as [|n IH]; intros k i A Hn.
  - exfalso. destruct A as (t & md & rest & Hk & Ht).
    pose proof (Hord t (nth_error_In _ _ Hk)) as O. unfold in_order in O. rewrite Ht in O.
    simpl in O. lia.
  - destruct (held_by_some i st) eqn:E.
    + unfold held_by_some in E. apply existsb_exists in E. destruct E as (u & Hu & E).
      apply existsb_exists in E. destruct E as ([j mj] & Hj & Ej). cbn [fst] in Ej.
      apply N.eqb_eq in Ej. subst j.
      pose proof (Hok u Hu) as Du. pose proof (Hord u Hu) as Ou. pose proof (Hno u Hu) as Nu.
      unfold thread_ok in Du. unfold in_order in Ou. unfold asks_no_lock in Nu.
      destruct (In_nth_error _ _ Hu) as [ku Hku].
      destruct (todo u) as [|[mu j|j|j] rest] eqn:Etu; try discriminate.
      * simpl in Du. rewrite Du in Hj. destruct Hj.
      * simpl in Ou. destruct Ou as [[Hjm Hall] _]. rewrite Forall_forall in Hall.
        specialize (Hall _ Hj). cbn [fst] in Hall.
        apply (IH ku j); [exists u, mu, rest; split; assumption | lia].
    + apply held_by_some_false in E.
      destruct (G past st i E (ex_intro _ k A)) as (k' & (t & md & rest & Hk & Ht) & Hg).
      apply (can_step_under grants past st k' t (Acquire md i) rest Hk Ht).
      cbn [admitted]. rewrite Hg, andb_true_r. apply free_no_conflict; exact E.
Qed.

(** A state in which every thread keeps the discipline and the lock order
    is never stuck, whatever the lock does beyond granting free guards. *)
Lemma progress_under (grants : policy) (past : list nat) (m : N) (st : list thread) :
  grants_free_guards grants ->
  Forall thread_ok st -> Forall (in_order m) st -> remaining st <> 0%nat ->
  exists k st', step_under grants past k st = Some st'.
Proof.
  intros G Hok Hord Hrem.
  destruct (existsb asks_no_lock st) eqn:E1.
  { apply existsb_exists in E1. destruct E1 as (t & Hin & Ht).
    destruct (In_nth_error _ _ Hin) as [k Hk].
    unfold asks_no_lock in Ht. destruct (todo t) as [|[md i|i|i] rest] eqn:E; try discriminate;
      apply (can_step_under grants past st k t _ rest Hk E); reflexivity. }
  pose proof (existsb_false _ _ E1) as N1.
  destruct (some_thread_active st Hrem) as (t & Hin & Ht).
  destruct (In_nth_error _ _ Hin) as [k Hk].
  pose proof (N1 t Hin) as Nt. unfold asks_no_lock in Nt.
  destruct (todo t) as [|[md i|i|i] rest] eqn:E; try congruence; try discriminate.
  apply (climb_to_a_free_guard grants past m st G Hok Hord N1 (N.to_nat m) k i); [|lia].
  exists t, md, rest. split; assumption.
Qed.

Lemma runs_to_completion_under (grants : policy) (m : N) (n : nat) (past : list nat)
    (st : list thread) :
  grants_free_guards grants ->
  Forall thread_ok st -> Forall (in_order m) st -> remaining st = n ->
  exists rest st', run_under grants past rest st = Some st' /\ all_returned st' = true.
Proof.
  intros G. revert past st; induction n as [|n IH]; intros past st Hok Hord R.
  - exists [], st. split; [reflexivity | apply nothing_left; assumption].
  - destruct (progress_under grants past m st G Hok Hord) as (k & st1 & E); [lia|].
    pose proof (step_under_step _ _ _ _ _ E) as E'.
    destruct (step_keeps_discipline k st st1 Hok E') as [Hok1 R1].
    pose proof (step_keeps_order m k st st1 Hord E') as Hord1.
    destruct (IH (past ++ [k]) st1 Hok1 Hord1) as (rest & st' & Hrun & Hdone); [lia|].
    exists (k :: rest), st'. simpl. rewrite E. split; assumption.
Qed.

Lemma writer_preferring_grants_free_guards : grants_free_guards writer_preferring.
Proof.
  intros past st i F (k & A).
  destruct (existsb (asks_exclusive i) st) eqn:E.
  - apply existsb_exists in E. destruct E as (t & Hin & Ht).
    destruct (In_nth_error _ _ Hin) as [k' Hk']. exists k'.
    unfold asks_exclusive in Ht. destruct (todo t) as [|[[|] j|j|j] rest] eqn:Et; try discriminate.
    apply N.eqb_eq in Ht. subst j. split.
    + exists t, Exclusive, rest. split; assumption.
    + unfold writer_preferring. rewrite Hk', Et. reflexivity.
  - exists k. split; [exact A|]. destruct A as (t & md & rest & Hk & Ht).
    unfold writer_preferring. rewrite Hk, Ht. destruct md; [|reflexivity].
    rewrite E. reflexivity.
Qed.

Lemma reader_preferring_grants_free_guards : grants_free_guards reader_preferring.
Proof. intros past st i _ (k & A). exists k. split; [exact A | reflexivity]. Qed.

(** Under the lock that refuses nothing, the steps are those of exclusion
    alone. *)
Lemma reader_preferring_step (past : list nat) (k : nat) (st : list thread) :
  step_under reader_preferring past k st = step_thread k st.
Proof.
  unfold step_under, step_thread. destruct (nth_error st k) as [t|]; [|reflexivity].
  destruct (todo t) as [|[m i|i|i] rest]; try reflexivity.
  cbn [admitted]. unfold reader_preferring. rewrite andb_true_r. reflexivity.
Qed.

(** C2. Any number of workers, each running any stream of read, write and
    snapshot calls on a store of [m] fields, under any interleaving and
    under any lock that grants a guard nobody holds to one of the threads
    asking for it (a lock that holds readers back behind a waiting writer
    as well as one that lets them in): the steps taken so far and the
    actions still to do add up to the actions of the streams, so no
    interleaving is longer than that; a state with nothing left to do has
    every call returned and every guard free; a state with something left
    to do always has a thread that the lock lets move, so an interleaving
    that cannot go on has every call returned; and every interleaving
    extends to one in which every call has returned. *)
Theorem workers_never_deadlock
    (grants : policy) (m : N) (streams : list (list call)) (schedule : list nat)
    (st : list thread) :
  grants_free_guards grants ->
  run_under grants [] schedule (start m streams) = Some st ->
  (List.length schedule + remaining st = remaining (start m streams))%nat /\
  (remaining st = 0%nat -> all_returned st = true) /\
  (remaining st <> 0%nat -> exists k st', step_under grants schedule k st = Some st') /\
  ((forall k, step_under grants schedule k st = None) -> all_returned st = true) /\
  (exists rest st',
      run_under grants [] (schedule ++ rest) (start m streams) = Some st' /\
      all_returned st' = true).
Proof.
  intros G H. pose proof (run_under_run _ _ _ _ _ H) as H'.
  destruct (run_keeps_discipline schedule _ st (start_ok m streams) H') as [Hok R].
  pose proof (run_keeps_order m schedule _ st (start_in_order m streams) H') as Hord.
  split; [exact R|]. split; [apply nothing_left; exact Hok|].
  split; [apply (progress_under grants schedule m); assumption|].
  split.
  { intros Hstuck. apply nothing_left; [exact Hok|].
    destruct (Nat.eq_dec (remaining st) 0) as [E|E]; [exact E | exfalso].
    destruct (progress_under grants schedule m st G Hok Hord E) as (k & st1 & E1).
    rewrite Hstuck in E1. discriminate. }
  destruct (runs_to_completion_under grants m (remaining st) schedule st G Hok Hord eq_refl)
    as (rest & st' & Hrun & Hdone).
  exists rest, st'. split; [|exact Hdone].
  rewrite (run_under_app grants schedule rest [] _ st H). exact Hrun.
Qed.

Lemma workers_never_deadlock_witness :
  let streams := [[CallSnapshot]; [CallWrite 1 1]; [CallSnapshot; CallRead 0]] in
  let schedule := [0; 2]%nat in
  let st := [mkThread [(0, Shared)]
               [Acquire Shared 1; Access 0; Access 1; Release 0; Release 1];
             mkThread [] [Acquire Exclusive 1; Access 1; Release 1];
             mkThread [(0, Shared)]
               [Acquire Shared 1; Access 0; Access 1; Release 0; Release 1;
                Acquire Shared 0; Access 0; Release 0]] in
  (List.length schedule + remaining st = remaining (start 2 streams))%nat /\
  (remaining st = 0%nat -> all_returned st = true) /\
  (remaining st <> 0%nat ->
   exists k st', step_under writer_preferring schedule k st = Some st') /\
  ((forall k, step_under writer_preferring schedule k st = None) -> all_returned st = true) /\
  (exists rest st',
      run_under writer_preferring [] (schedule ++ rest) (start 2 streams) = Some st' /\
      all_returned st' = true).
Proof.
  apply (workers_never_deadlock writer_preferring 2
           [[CallSnapshot]; [CallWrite 1 1]; [CallSnapshot; CallRead 0]] [0; 2]%nat).
  - exact writer_preferring_grants_free_guards.
  - reflexivity.
Defined.

(** The lock order is what the proof stands on: two threads that took
    guards 0 and 1 in opposite orders, each keeping the discipline of shared
    and exclusive locks, are blocked for ever by two waiting writers under a
    lock that holds readers back behind a writer. *)
Lemma crossed_order_blocks :
  Forall thread_ok crossed /\
  forall past k, step_under writer_preferring past k crossed = None.
Proof.
  split.
  - repeat constructor.
  - intros past [|[|[|[|[|k]]]]]; reflexivity.
Qed.

(** ** The guards exclude

    What the model of the guards is for: in every state the workers can
    reach, a guard that one thread holds exclusively is held by no other
    thread. *)

Lemma others_cons {A : Type} (k : nat) (a : A) (l : list A) :
  others (S k) (a :: l) = a :: others k l.
Proof. reflexivity. Qed.

Lemma In_others {A : Type} (l : list A) (k : nat) (y : A) :
  In y (others k l) <-> exists j, j <> k /\ nth_error l j = Some y.
Proof.
  revert k; induction l as [|a l IH]; intros k.
  - unfold others. rewrite firstn_nil, skipn_nil. simpl. split; [intros [] |].
    intros (j & _ & H). destruct j; discriminate.
  - destruct k as [|k].
    + unfold others. simpl. split.
      * intros H. apply In_nth_error in H. destruct H as [j H].
        exists (S j). split; [discriminate | exact H].
      * intros ([|j] & Hj & H); [congruence|]. simpl in H. eapply nth_error_In; exact H.
    + rewrite others_cons. simpl. rewrite IH. split.
      * intros [<- | (j & Hj & H)].
        -- exists 0%nat. split; [discriminate | reflexivity].
        -- exists (S j). split; [congruence | exact H].
      * intros ([|j] & Hj & H); simpl in H.
        -- left. congruence.
        -- right. exists j. split; [congruence | exact H].
Qed.

Lemma nth_error_replace_same {A : Type} (l : list A) (k : nat) (x y : A) :
  nth_error (replace k x l) k = Some y -> y = x.
Proof.
  revert k; induction l as [|a l IH]; intros [|k] H; simpl in H; try discriminate.
  - congruence.
  - apply (IH k H).
Qed.

Lemma nth_error_replace_other {A : Type} (l : list A) (k j : nat) (x : A) :
  j <> k -> nth_error (replace k x l) j = nth_error l j.
Proof.
  revert k j; induction l as [|a l IH]; intros [|k] [|j] H; simpl; try reflexivity.
  - congruence.
  - apply IH. congruence.
Qed.

Lemma release_subset (i : N) (h : holding) (x : N * mode) : In x (release i h) -> In x h.
Proof.
  induction h as [|[j m] h IH]; simpl; [tauto|].
  destruct (j =? i); simpl; [tauto|]. intros [H | H]; [left; exact H | right; apply IH; exact H].
Qed.

Lemma conflicts_in (m m' : mode) (i : N) (h : holding) :
  In (i, m') h -> (m = Exclusive \/ m' = Exclusive) -> conflicts m i h = true.
Proof.
  intros Hin Hm. unfold conflicts. apply existsb_exists. exists (i, m'). split; [exact Hin|].
  simpl. rewrite N.eqb_refl. destruct m, m'; try reflexivity. destruct Hm; discriminate.
Qed.

Lemma step_keeps_exclusion (k0 : nat) (st st' : list thread) :
  exclusion st -> step_thread k0 st = Some st' -> exclusion st'.
Proof.
  intros Hex Hstep. unfold step_thread in Hstep.
  destruct (nth_error st k0) as [t0|] eqn:E0; [|discriminate].
  destruct (todo t0) as [|a rest] eqn:Et; [discriminate|].
  destruct (enabled a (map holds (others k0 st))) eqn:En; [|discriminate].
  injection Hstep as <-.
  assert (Hnew : forall x, In x (after_action (holds t0) a) ->
            In x (holds t0) \/ exists m i, a = Acquire m i /\ x = (i, m)).
  { intros x Hx. destruct a as [m i|i|i]; simpl in Hx.
    - apply in_app_or in Hx. destruct Hx as [Hx | [<- | []]]; [left; exact Hx|].
      right. exists m, i. split; reflexivity.
    - left. eapply release_subset; exact Hx.
    - left. exact Hx. }
  assert (Hfree : forall m i j u m', a = Acquire m i -> j <> k0 -> nth_error st j = Some u ->
            In (i, m') (holds u) -> (m = Exclusive \/ m' = Exclusive) -> False).
  { intros m i j u m' -> Hj Hu Hin Hm. simpl in En.
    rewrite forallb_forall in En. specialize (En (holds u)).
    rewrite (conflicts_in m m' i (holds u) Hin Hm) in En.
    assert (false = true); [|discriminate]. apply En.
    apply in_map. apply In_others. exists j. split; assumption. }
  intros k j t u i m Hkj Hk Hj Hin Hin'.
  destruct (Nat.eq_dec k k0) as [->|Hk0].
  - apply nth_error_replace_same in Hk. subst t. cbn [holds] in Hin.
    rewrite nth_error_replace_other in Hj by congruence.
    destruct (Hnew _ Hin) as [Hold | (m1 & i1 & Ha & Hx)].
    + exact (Hex k0 j t0 u i m Hkj E0 Hj Hold Hin').
    + injection Hx as Hi Hm. subst i1 m1.
      apply (Hfree Exclusive i j u m Ha); auto.
  - rewrite nth_error_replace_other in Hk by exact Hk0.
    destruct (Nat.eq_dec j k0) as [->|Hj0].
    + apply nth_error_replace_same in Hj. subst u. cbn [holds] in Hin'.
      destruct (Hnew _ Hin') as [Hold | (m1 & i1 & Ha & Hx)].
      * exact (Hex k k0 t t0 i m Hkj Hk E0 Hin Hold).
      * injection Hx as Hi Hm. subst i1 m1.
        apply (Hfree m i k t Exclusive Ha); auto.
    + rewrite nth_error_replace_other in Hj by exact Hj0.
      exact (Hex k j t u i m Hkj Hk Hj Hin Hin').
Qed.

Lemma guards_exclude (m : N) (streams : list (list call)) (schedule : list nat)
    (st : list thread) :
  run schedule (start m streams) = Some st -> exclusion st.
Proof.
  assert (H0 : exclusion (start m streams)).
  { intros k j t u i md _ Hk _ Hin. apply nth_error_In in Hk. unfold start in Hk.
    apply in_map_iff in Hk. destruct Hk as (cs & <- & _). destruct Hin. }
  revert H0. generalize (start m streams). revert st.
  induction schedule as [|k schedule IH]; intros st st0 H0 H; simpl in H.
  - injection H as <-. exact H0.
  - destruct (step_thread k st0) as [st1|] eqn:E; [|discriminate].
    apply (IH st st1); [eapply step_keeps_exclusion; eassumption | exact H].
Qed.

(** ** The loaders *)

Lemma skip_ws_length (l : list ascii) : (List.length (skip_ws l) <= List.length l)%nat.
Proof. induction l as [|c l IH]; simpl; [lia|]. destruct (isspace c); simpl; lia. Qed.

Lemma take_word_length (l : list ascii) :
  (List.length (snd (take_word l)) + List.length (fst (take_word l)) = List.length l)%nat.
Proof.
  induction l as [|c l IH]; simpl; [reflexivity|].
  destruct (isspace c); simpl; [lia|].
  destruct (take_word l) as [w r]; simpl in *; lia.
Qed.

Lemma take_digits_length (l : list ascii) :
  (List.length (snd (take_digits l)) <= List.length l)%nat.
Proof.
  induction l as [|c l IH]; simpl; [lia|].
  destruct (isdigit c); simpl; [|lia].
  destruct (take_digits l) as [ds r]; simpl in *; lia.
Qed.

Lemma take_sign_length (l : list ascii) :
  (List.length (snd (take_sign l)) <= List.length l)%nat.
Proof.
  destruct l as [|c l]; simpl; [lia|].
  destruct (Ascii.eqb c "-"); simpl; [lia|]. destruct (Ascii.eqb c "+"); simpl; lia.
Qed.

Lemma take_line_length (l : list ascii) :
  match snd (take_line l) with
  | Some r => (List.length r < List.length l)%nat
  | None => True
  end.
Proof.
  induction l as [|c l IH]; simpl; [exact I|].
  destruct (Ascii.eqb c "010"); simpl; [lia|].
  destruct (take_line l) as [ln [r|]]; simpl in *; [lia | exact I].
Qed.

Lemma sentry_length (s : istream) :
  (List.length (buf (snd (sentry s))) <= List.length (buf s))%nat.
Proof.
  unfold sentry. destruct (good s); simpl; [|lia].
  pose proof (skip_ws_length (buf s)) as H.
  destruct (skip_ws (buf s)); simpl in *; lia.
Qed.

(** A word that was read takes at least one character off the text. *)
Lemma extract_string_shrinks (cur : string) (s : istream) :
  failbit (snd (extract_string cur s)) = false ->
  (List.length (buf (snd (extract_string cur s))) < List.length (buf s))%nat.
Proof.
  unfold extract_string. pose proof (sentry_length s) as H.
  destruct (sentry s) as [ok s1] eqn:E. simpl in H. destruct ok.
  - pose proof (take_word_length (buf s1)) as L.
    destruct (take_word (buf s1)) as [w r]. simpl in *.
    destruct w; simpl; [discriminate|]. intros _. simpl in L. lia.
  - unfold sentry in E. destruct (good s).
    + destruct (skip_ws (buf s)); [|discriminate]. injection E as <-. simpl. discriminate.
    + injection E as <-. simpl. discriminate.
Qed.

Lemma extract_int_length (cur : Z) (s : istream) :
  (List.length (buf (snd (extract_int cur s))) <= List.length (buf s))%nat.
Proof.
  unfold extract_int. pose proof (sentry_length s) as H.
  destruct (sentry s) as [ok s1]. simpl in H. destruct ok; [|simpl; exact H].
  pose proof (take_sign_length (buf s1)) as H1.
  destruct (take_sign (buf s1)) as [neg b1]. simpl in H1.
  pose proof (take_digits_length b1) as H2.
  destruct (take_digits b1) as [ds r]. simpl in H2.
  destruct (is_nil ds); [simpl; lia|].
  destruct neg; [destruct (_ <=? _)%Z | destruct (_ <=? _)%Z]; simpl; lia.
Qed.

Lemma extract_size_t_length (cur : N) (s : istream) :
  (List.length (buf (snd (extract_size_t cur s))) <= List.length (buf s))%nat.
Proof.
  unfold extract_size_t. pose proof (sentry_length s) as H.
  destruct (sentry s) as [ok s1]. simpl in H. destruct ok; [|simpl; exact H].
  pose proof (take_sign_length (buf s1)) as H1.
  destruct (take_sign (buf s1)) as [neg b1]. simpl in H1.
  pose proof (take_digits_length b1) as H2.
  destruct (take_digits b1) as [ds r]. simpl in H2.
  destruct (is_nil ds); [simpl; lia|].
  destruct (_ <=? _); simpl; lia.
Qed.

Lemma getline_length (cur : string) (s : istream) :
  (List.length (buf (snd (getline cur s))) <= List.length (buf s))%nat.
Proof.
  unfold getline. destruct (good s); [|simpl; lia].
  pose proof (take_line_length (buf s)) as H.
  destruct (take_line (buf s)) as [ln [r|]]; simpl in *; lia.
Qed.

(** The loops end by themselves: fuel beyond the length of the text does
    not change what they return. *)
Lemma lab4_load_loop_fuel (u : Z) (f1 f2 : nat) (ifs : istream) (ops : list Lab4.Op) :
  (List.length (buf ifs) < f1)%nat -> (List.length (buf ifs) < f2)%nat ->
  Lab4.load_loop u f1 ifs ops = Lab4.load_loop u f2 ifs ops.
Proof.
  revert f2 ifs ops; induction f1 as [|f1 IH]; intros [|f2] ifs ops H1 H2; try lia.
  simpl. pose proof (extract_string_shrinks EmptyString ifs) as S.
  destruct (extract_string EmptyString ifs) as [cmd ifs1]. simpl in S.
  destruct (failbit ifs1); [reflexivity|]. specialize (S eq_refl).
  destruct (String.eqb cmd "read").
  { pose proof (extract_int_length u ifs1) as L.
    destruct (extract_int u ifs1) as [idx ifs2]. simpl in L. apply IH; lia. }
  destruct (String.eqb cmd "write").
  { pose proof (extract_int_length u ifs1) as L.
    destruct (extract_int u ifs1) as [idx ifs2]. simpl in L.
    pose proof (extract_int_length u ifs2) as L'.
    destruct (extract_int u ifs2) as [val ifs3]. simpl in L'. apply IH; lia. }
  destruct (String.eqb cmd "string"); apply IH; lia.
Qed.

Lemma demo_load_loop_fuel (ui : N) (uv : Z) (f1 f2 : nat) (ifs : istream) (ops : list Demo.Op) :
  (List.length (buf ifs) < f1)%nat -> (List.length (buf ifs) < f2)%nat ->
  Demo.load_loop ui uv f1 ifs ops = Demo.load_loop ui uv f2 ifs ops.
Proof.
  revert f2 ifs ops; induction f1 as [|f1 IH]; intros [|f2] ifs ops H1 H2; try lia.
  simpl. pose proof (extract_string_shrinks EmptyString ifs) as S.
  destruct (extract_string EmptyString ifs) as [cmd ifs1]. simpl in S.
  destruct (failbit ifs1); [reflexivity|]. specialize (S eq_refl).
  destruct (String.eqb cmd "read").
  { pose proof (extract_size_t_length ui ifs1) as L.
    destruct (extract_size_t ui ifs1) as [idx ifs2]. simpl in L. apply IH; lia. }
  destruct (String.eqb cmd "write").
  { pose proof (extract_size_t_length ui ifs1) as L.
    destruct (extract_size_t ui ifs1) as [idx ifs2]. simpl in L.
    pose proof (extract_int_length uv ifs2) as L'.
    destruct (extract_int uv ifs2) as [val ifs3]. simpl in L'. apply IH; lia. }
  destruct (String.eqb cmd "string"); [apply IH; lia|].
  pose proof (getline_length EmptyString ifs1) as L.
  destruct (getline EmptyString ifs1) as [rest ifs2]. simpl in L. apply IH; lia.
Qed.

(** ** Decimal output read back *)

Lemma show_digits_S (f : nat) (n : N) (acc : string) :
  show_digits (S f) n acc =
  if n / 10 =? 0 then String (digit_char (n mod 10)) acc
  else show_digits f (n / 10) (String (digit_char (n mod 10)) acc).
Proof. reflexivity. Qed.

Lemma show_digits_shape (f : nat) (n : N) (acc : string) :
  n < 2 ^ N.of_nat f ->
  exists ds,
    list_ascii_of_string (show_digits (S f) n acc) =
      map digit_char ds ++ list_ascii_of_string acc /\
    Forall (fun d => d < 10) ds /\ ds <> [] /\ digits_value ds = n.
Proof.
  revert n acc; induction f as [|f IH]; intros n acc H.
  - assert (n = 0) as -> by (simpl in H; lia).
    exists [0]. simpl. repeat split; try discriminate. constructor; [lia | constructor].
  - rewrite show_digits_S. destruct (N.eqb_spec (n / 10) 0) as [E|E].
    + exists [n mod 10]. simpl. repeat split; try discriminate.
      * constructor; [apply N.mod_lt; discriminate | constructor].
      * unfold digits_value; simpl. pose proof (N.div_mod n 10). lia.
    + assert (Hq : n / 10 < 2 ^ N.of_nat f).
      { apply N.Div0.div_lt_upper_bound.
        rewrite Nat2N.inj_succ, N.pow_succ_r' in H. lia. }
      destruct (IH (n / 10) (String (digit_char (n mod 10)) acc) Hq) as (ds & Hs & Hd & _ & Hv).
      exists (ds ++ [n mod 10]). repeat split.
      * rewrite Hs. simpl. rewrite map_app, <- app_assoc. reflexivity.
      * apply Forall_app. split; [exact Hd|].
        constructor; [apply N.mod_lt; discriminate | constructor].
      * destruct ds; discriminate.
      * unfold digits_value in *. rewrite fold_left_app. cbn [fold_left]. rewrite Hv.
        pose proof (N.div_mod n 10). lia.
Qed.

(** [show_N] writes at least one digit, only digits, and they read back as
    the number. *)
Lemma show_N_digits (n : N) :
  exists ds,
    list_ascii_of_string (show_N n) = map digit_char ds /\
    Forall (fun d => d < 10) ds /\ ds <> [] /\ digits_value ds = n.
Proof.
  unfold show_N.
  destruct (show_digits_shape (N.to_nat (N.size n)) n EmptyString) as (ds & Hs & H).
  - rewrite N2Nat.id. apply N.size_gt.
  - exists ds. simpl in Hs. rewrite app_nil_r in Hs. split; assumption.
Qed.

Lemma take_digits_digit_chars (ds : list N) (rest : list ascii) :
  Forall (fun d => d < 10) ds -> ends_number rest ->
  take_digits (map digit_char ds ++ rest) = (ds, rest).
Proof.
  intros Hd Hr. induction Hd as [|d ds Hd _ IH]; simpl.
  - destruct rest as [|c rest]; [reflexivity|]. simpl in *. rewrite Hr. reflexivity.
  - rewrite isdigit_digit_char by exact Hd. rewrite IH.
    unfold digit_char. rewrite N_ascii_embedding by lia.
    replace (48 + d - 48) with d by lia. reflexivity.
Qed.

Lemma digit_char_not_space (d : N) : d < 10 -> isspace (digit_char d) = false.
Proof.
  intros H. unfold isspace, digit_char. rewrite N_ascii_embedding by lia.
  apply orb_false_iff. split; [apply N.eqb_neq; lia|].
  apply andb_false_iff. right. apply N.leb_gt. lia.
Qed.

Lemma digit_char_not_sign (d : N) (rest : list ascii) :
  d < 10 -> take_sign (digit_char d :: rest) = (false, digit_char d :: rest).
Proof.
  intros H. unfold take_sign.
  assert (E : forall c, N_of_ascii c <> 48 + d -> Ascii.eqb (digit_char d) c = false).
  { intros c Hc. apply Ascii.eqb_neq. intros <-. apply Hc.
    unfold digit_char. apply N_ascii_embedding. lia. }
  rewrite (E "-"%char) by (change (N_of_ascii "-") with 45; lia).
  rewrite (E "+"%char) by (change (N_of_ascii "+") with 43; lia). reflexivity.
Qed.

(** ** One extraction at a time *)

Lemma skip_ws_app (pre l : list ascii) :
  forallb isspace pre = true -> skip_ws (pre ++ l) = skip_ws l.
Proof.
  induction pre as [|c pre IH]; cbn [app skip_ws forallb]; intros H; [reflexivity|].
  apply andb_true_iff in H. destruct H as [Hc H]. rewrite Hc. apply IH; exact H.
Qed.

Lemma take_word_app (w rest : list ascii) :
  forallb (fun c => negb (isspace c)) w = true -> ends_word rest ->
  take_word (w ++ rest) = (w, rest).
Proof.
  induction w as [|c w IH]; cbn [app take_word forallb]; intros Hw Hr.
  - destruct rest as [|c rest]; [reflexivity|]. cbn [ends_word take_word] in *.
    rewrite Hr. reflexivity.
  - apply andb_true_iff in Hw. destruct Hw as [Hc Hw].
    apply negb_true_iff in Hc. rewrite Hc, IH by assumption. reflexivity.
Qed.

Lemma take_line_app (tail more : list ascii) :
  ~ In "010"%char tail -> take_line (tail ++ "010"%char :: more) = (tail, Some more).
Proof.
  induction tail as [|c tail IH]; cbn [app take_line]; intros H;
    [rewrite Ascii.eqb_refl; reflexivity|].
  destruct (Ascii.eqb_spec c "010") as [->|_]; [exfalso; apply H; left; reflexivity|].
  rewrite IH by (intros Hin; apply H; right; exact Hin). reflexivity.
Qed.

Lemma extract_string_word (cur : string) (pre w rest : list ascii) :
  forallb isspace pre = true -> w <> [] ->
  forallb (fun c => negb (isspace c)) w = true -> ends_word rest ->
  extract_string cur (mkIstream (pre ++ w ++ rest) false false) =
  (string_of_list_ascii w, mkIstream rest false (is_nil rest)).
Proof.
  intros Hpre Hne Hw Hr. unfold extract_string, sentry, good. cbn [buf failbit eofbit negb andb].
  rewrite skip_ws_app by exact Hpre.
  destruct w as [|c w]; [congruence|]. cbn [app skip_ws].
  pose proof Hw as Hw'. cbn [forallb] in Hw'. apply andb_true_iff in Hw'. destruct Hw' as [Hc _].
  apply negb_true_iff in Hc. rewrite Hc. cbn [buf].
  change (c :: w ++ rest) with ((c :: w) ++ rest).
  rewrite take_word_app by assumption. reflexivity.
Qed.

Lemma extract_size_t_shown (cur i : N) (pre rest : list ascii) :
  i <= SIZE_MAX -> forallb isspace pre = true -> ends_number rest ->
  extract_size_t cur (mkIstream (pre ++ list_ascii_of_string (show_N i) ++ rest) false false) =
  (i, mkIstream rest false (is_nil rest)).
Proof.
  intros Hi Hpre Hr. destruct (show_N_digits i) as (ds & -> & Hd & Hne & Hv).
  unfold extract_size_t, sentry, good. cbn [buf failbit eofbit negb andb].
  rewrite skip_ws_app by exact Hpre.
  destruct ds as [|d ds]; [congruence|]. inversion Hd as [|? ? Hd0 Hds]; subst.
  cbn [map app skip_ws]. rewrite digit_char_not_space by exact Hd0. cbn [buf].
  rewrite digit_char_not_sign by exact Hd0.
  change (digit_char d :: map digit_char ds ++ rest) with (map digit_char (d :: ds) ++ rest).
  rewrite take_digits_digit_chars by assumption. cbn [is_nil].
  replace (digits_value (d :: ds) <=? SIZE_MAX) with true by (symmetry; apply N.leb_le; exact Hi).
  reflexivity.
Qed.

Lemma extract_int_shown (cur v : Z) (pre rest : list ascii) :
  (INT_MIN <= v <= INT_MAX)%Z -> forallb isspace pre = true -> ends_number rest ->
  extract_int cur (mkIstream (pre ++ list_ascii_of_string (show_int v) ++ rest) false false) =
  (v, mkIstream rest false (is_nil rest)).
Proof.
  intros Hv Hpre Hr. unfold show_int.
  unfold extract_int, sentry, good. cbn [buf failbit eofbit negb andb].
  rewrite skip_ws_app by exact Hpre.
  destruct (Z.ltb_spec v 0) as [Hneg|Hpos].
  - destruct (show_N_digits (Z.to_N (- v))) as (ds & E & Hd & Hne & Hval).
    cbn [list_ascii_of_string app skip_ws]. rewrite E.
    change (isspace "-") with false. cbn [buf take_sign].
    change (Ascii.eqb "-" "-") with true. cbv iota.
    rewrite take_digits_digit_chars by assumption.
    destruct ds as [|d ds]; [congruence|]. cbn [is_nil]. rewrite Hval.
    rewrite Z2N.id by lia.
    replace (- v <=? - INT_MIN)%Z with true by (symmetry; apply Z.leb_le; lia).
    rewrite Z.opp_involutive. reflexivity.
  - destruct (show_N_digits (Z.to_N v)) as (ds & -> & Hd & Hne & Hval).
    destruct ds as [|d ds]; [congruence|]. inversion Hd as [|? ? Hd0 Hds]; subst.
    cbn [map app skip_ws]. rewrite digit_char_not_space by exact Hd0. cbn [buf].
    rewrite digit_char_not_sign by exact Hd0.
    change (digit_char d :: map digit_char ds ++ rest) with (map digit_char (d :: ds) ++ rest).
    rewrite take_digits_digit_chars by assumption. cbn [is_nil]. rewrite Hval.
    rewrite Z2N.id by lia.
    replace (v <=? INT_MAX)%Z with true by (symmetry; apply Z.leb_le; lia).
    reflexivity.
Qed.

Lemma getline_tail (cur : string) (tail more : list ascii) :
  ~ In "010"%char tail ->
  getline cur (mkIstream (tail ++ "010"%char :: more) false false) =
  (string_of_list_ascii tail, mkIstream more false false).
Proof.
  intros H. unfold getline, good. cbn [buf failbit eofbit negb andb].
  rewrite take_line_app by exact H. reflexivity.
Qed.

(** ** The loader of demo_lab4.cpp, line by line *)

Lemma file_text_cons (l : line) (ls : list line) :
  file_text (l :: ls) = line_text l ++ "010"%char :: file_text ls.
Proof. unfold file_text. simpl. rewrite <- app_assoc. reflexivity. Qed.

Lemma demo_load_lines (ui : N) (uv : Z) (ls : list line) :
  Forall well_formed_line ls ->
  forall (pre : list ascii) (ops : list Demo.Op) (fuel : nat),
    forallb isspace pre = true ->
    (List.length (pre ++ file_text ls) < fuel)%nat ->
    Demo.load_loop ui uv fuel (mkIstream (pre ++ file_text ls) false false) ops =
    ops ++ flat_map line_ops ls.
Proof.
  induction 1 as [|l ls Hl _ IH]; intros pre ops fuel Hpre Hfuel.
  - destruct fuel as [|fuel]; [simpl in Hfuel; lia|].
    cbn [Demo.load_loop file_text flat_map]. unfold extract_string, sentry, good.
    cbn [buf failbit eofbit negb andb]. rewrite skip_ws_app by exact Hpre.
    cbn [skip_ws failbit]. rewrite app_nil_r. reflexivity.
  - rewrite (demo_load_loop_fuel ui uv fuel (S (S (List.length (pre ++ file_text (l :: ls))))))
      by (cbn [buf]; lia).
    clear fuel Hfuel. rewrite file_text_cons.
    set (next := file_text ls) in *.
    assert (NL : forallb isspace ["010"%char] = true) by reflexivity.
    assert (Hnext : forall ops',
      Demo.load_loop ui uv (S (List.length (pre ++ line_text l ++ "010"%char :: next)))
        (mkIstream (["010"%char] ++ next) false false) ops' = ops' ++ flat_map line_ops ls).
    { intros ops'. apply IH; [exact NL|].
      rewrite ?length_app; cbn [List.length]; rewrite ?length_app; cbn [List.length]. lia. }
    remember (S (List.length (pre ++ line_text l ++ "010"%char :: next))) as fuel eqn:Hf.
    cbn [Demo.load_loop flat_map].
    destruct l as [i | i v | | word tail]; cbn [line_text line_ops well_formed_line] in *.
    + change (pre ++ (list_ascii_of_string "read " ++ list_ascii_of_string (show_N i)) ++
              "010"%char :: next)
        with (pre ++ list_ascii_of_string "read" ++
              ([" "%char] ++ list_ascii_of_string (show_N i) ++ "010"%char :: next)).
      rewrite extract_string_word; [|exact Hpre|discriminate|reflexivity|reflexivity].
      cbn [failbit is_nil app]. change (String.eqb (string_of_list_ascii (list_ascii_of_string "read")) "read") with true.
      cbv iota.
      change (" "%char :: list_ascii_of_string (show_N i) ++ "010"%char :: next)
        with ([" "%char] ++ list_ascii_of_string (show_N i) ++ "010"%char :: next).
      rewrite extract_size_t_shown; [|exact Hl|reflexivity|reflexivity].
      cbn [is_nil]. rewrite Hnext, <- app_assoc. reflexivity.
    + destruct Hl as [Hi Hv].
      change (pre ++ (list_ascii_of_string "write " ++ list_ascii_of_string (show_N i) ++
                      list_ascii_of_string " " ++ list_ascii_of_string (show_int v)) ++
              "010"%char :: next)
        with (pre ++ list_ascii_of_string "write" ++
              ([" "%char] ++ (list_ascii_of_string (show_N i) ++
                      [" "%char] ++ list_ascii_of_string (show_int v)) ++
               "010"%char :: next)).
      rewrite extract_string_word; [|exact Hpre|discriminate|reflexivity|reflexivity].
      cbn [failbit is_nil app].
      change (String.eqb (string_of_list_ascii (list_ascii_of_string "write")) "read") with false.
      change (String.eqb (string_of_list_ascii (list_ascii_of_string "write")) "write") with true.
      cbv iota. rewrite <- !app_assoc.
      change (" "%char :: list_ascii_of_string (show_N i) ++
              (" "%char :: list_ascii_of_string (show_int v)) ++ "010"%char :: next)
        with ([" "%char] ++ list_ascii_of_string (show_N i) ++
              ([" "%char] ++ list_ascii_of_string (show_int v) ++ "010"%char :: next)).
      rewrite extract_size_t_shown; [|exact Hi|reflexivity|reflexivity].
      cbn [is_nil app].
      change (" "%char :: list_ascii_of_string (show_int v) ++ "010"%char :: next)
        with ([" "%char] ++ list_ascii_of_string (show_int v) ++ "010"%char :: next).
      rewrite extract_int_shown; [|exact Hv|reflexivity|reflexivity].
      cbn [is_nil]. rewrite Hnext, <- app_assoc. reflexivity.
    + change (pre ++ list_ascii_of_string "string" ++ "010"%char :: next)
        with (pre ++ list_ascii_of_string "string" ++ (["010"%char] ++ next)).
      rewrite extract_string_word; [|exact Hpre|discriminate|reflexivity|reflexivity].
      cbn [failbit is_nil app].
      change (String.eqb (string_of_list_ascii (list_ascii_of_string "string")) "read") with false.
      change (String.eqb (string_of_list_ascii (list_ascii_of_string "string")) "write") with false.
      change (String.eqb (string_of_list_ascii (list_ascii_of_string "string")) "string") with true.
      cbv iota. change ("010"%char :: next) with (["010"%char] ++ next).
      rewrite Hnext, <- app_assoc. reflexivity.
    + destruct Hl as (Hne & Hw & Hcmd & Htail & Hnl).
      rewrite <- app_assoc.
      rewrite extract_string_word; [|exact Hpre|exact Hne|exact Hw|].
      2:{ destruct tail; [reflexivity | exact Htail]. }
      cbn [failbit].
      unfold is_command in Hcmd. apply orb_false_iff in Hcmd. destruct Hcmd as [Hcmd Hs].
      apply orb_false_iff in Hcmd. destruct Hcmd as [Hr Hwr]. rewrite Hr, Hwr, Hs.
      replace (is_nil (tail ++ "010"%char :: next)) with false by (destruct tail; reflexivity).
      rewrite getline_tail by exact Hnl.
      rewrite (demo_load_loop_fuel ui uv fuel (S (List.length ([] ++ next))))
        by (subst fuel; cbn [buf app]; rewrite ?length_app; simpl; rewrite ?length_app; simpl; lia).
      apply (IH [] ops); [reflexivity | lia].
Qed.

(** X6. The loader of demo_lab4.cpp on a well-formed file: each command line
    gives its one operation, in order; a line that starts with another word
    gives none, whatever follows the word on that line. *)
Lemma demo_loader_line_by_line (ui : N) (uv : Z) (ls : list line) :
  Forall well_formed_line ls ->
  Demo.load_ops_from_file ui uv (Some (string_of_list_ascii (file_text ls))) =
  flat_map line_ops ls.
Proof.
  intros H. unfold Demo.load_ops_from_file, ifstream.
  rewrite list_ascii_of_string_of_list_ascii. cbn [buf].
  apply (demo_load_lines ui uv ls H [] []); [reflexivity | simpl; lia].
Qed.

(** C8. On the text [foo read 1], a line that starts with a word that is
    no command, [load_ops] of lab4.cpp skips that word only and goes on with
    the words that follow on the same line, so it loads READ 1;
    [load_ops_from_file] of demo_lab4.cpp drops the rest of the line and
    loads nothing from it, and goes on with the next line. *)
Theorem lab4_loader_keeps_rest_of_line :
  (forall u, Lab4.load_ops u (Some ("foo read 1" ++ newline)%string) =
             [Lab4.mkOp Lab4.READ 1 0]) /\
  (forall ui uv, Demo.load_ops_from_file ui uv (Some ("foo read 1" ++ newline)%string) = []) /\
  (forall ui uv,
      Demo.load_ops_from_file ui uv
        (Some ("foo read 1" ++ newline ++ "write 2 -5" ++ newline ++ "string" ++ newline)%string) =
      [Demo.mkOp Demo.WRITE 2 (-5); Demo.mkOp Demo.STRING 0 0]).
Proof. repeat split. Qed.

(** C9. A line whose number is malformed is not skipped: on the text
    [read x] followed by the line [write 0 5], both loaders load a READ of
    index 0 for the first line and then stop, so the write of the second
    line is lost.  A file that cannot be opened gives the empty stream. *)
Theorem malformed_number_ends_the_load :
  (forall u, Lab4.load_ops u (Some ("read x" ++ newline ++ "write 0 5" ++ newline)%string) =
             [Lab4.mkOp Lab4.READ 0 0]) /\
  (forall ui uv,
      Demo.load_ops_from_file ui uv (Some ("read x" ++ newline ++ "write 0 5" ++ newline)%string) =
      [Demo.mkOp Demo.READ 0 0]) /\
  (forall u, Lab4.load_ops u None = []) /\
  (forall ui uv, Demo.load_ops_from_file ui uv None = []).
Proof. repeat split. Qed.

(** * Further properties of the store and of the workers *)

(** ** Calls that do not write *)

Lemma read_final (i : N) (mf : MultiField) : final (read i mf) = mf.
Proof.
  destruct (N.leb_spec (size mf) i) as [H|H];
    [rewrite read_out_of_range by exact H | rewrite read_in_range by exact H]; reflexivity.
Qed.

Lemma spec_run_no_write (opening closing : string) (cs : list call) (mf : MultiField) :
  (forall i v, ~ In (CallWrite i v) cs) ->
  final (spec_run (to_string_with opening closing) cs mf) = mf.
Proof.
  intros H. rewrite spec_run_final.
  assert (E : fold_left field_effect cs (vals mf) = vals mf).
  { revert H. generalize (vals mf). induction cs as [|c cs IH]; intros vs H; [reflexivity|].
    simpl. destruct c as [i | i v |]; simpl.
    - apply IH. intros j w Hin. apply (H j w). right; exact Hin.
    - exfalso. apply (H i v). left; reflexivity.
    - apply IH. intros j w Hin. apply (H j w). right; exact Hin. }
  rewrite E. destruct mf; reflexivity.
Qed.

(** X1. A stream without a WRITE leaves the store exactly as it was, with
    either worker; so a read gives the same value before and after it. *)
Theorem stream_without_write_keeps_store
    (lops : list Lab4.Op) (dops : list Demo.Op) (mf : MultiField) (i : N) :
  (forall op, In op lops -> Lab4.type op <> Lab4.WRITE) ->
  (forall op, In op dops -> Demo.type op <> Demo.WRITE) ->
  final (Lab4.worker lops mf) = mf /\
  final (Demo.execute_ops dops mf) = mf /\
  result (read i (final (Lab4.worker lops mf))) = result (read i mf) /\
  result (read i (final (Demo.execute_ops dops mf))) = result (read i mf).
Proof.
  intros HL HD.
  assert (EL : final (Lab4.worker lops mf) = mf).
  { rewrite lab4_worker_spec. apply spec_run_no_write. intros j v Hin.
    apply in_map_iff in Hin. destruct Hin as (op & E & Hop).
    unfold lab4_call in E. destruct (Lab4.type op) eqn:T; try discriminate.
    exact (HL op Hop T). }
  assert (ED : final (Demo.execute_ops dops mf) = mf).
  { rewrite demo_execute_ops_spec. apply spec_run_no_write. intros j v Hin.
    apply in_map_iff in Hin. destruct Hin as (op & E & Hop).
    unfold demo_call in E. destruct (Demo.type op) eqn:T; try discriminate.
    exact (HD op Hop T). }
  rewrite EL, ED. repeat split.
Qed.

Lemma stream_without_write_keeps_store_witness :
  let lops := [Lab4.mkOp Lab4.READ 1 0; Lab4.mkOp Lab4.STRING 0 0; Lab4.mkOp Lab4.READ (-4) 0] in
  let dops := [Demo.mkOp Demo.STRING 0 0; Demo.mkOp Demo.READ 7 0] in
  let mf := Demo.MultiField 3 9 in
  final (Lab4.worker lops mf) = mf /\
  final (Demo.execute_ops dops mf) = mf /\
  result (read 2 (final (Lab4.worker lops mf))) = result (read 2 mf) /\
  result (read 2 (final (Demo.execute_ops dops mf))) = result (read 2 mf).
Proof.
  apply (stream_without_write_keeps_store
           [Lab4.mkOp Lab4.READ 1 0; Lab4.mkOp Lab4.STRING 0 0; Lab4.mkOp Lab4.READ (-4) 0]
           [Demo.mkOp Demo.STRING 0 0; Demo.mkOp Demo.READ 7 0] (Demo.MultiField 3 9) 2).
  - intros op [<- | [<- | [<- | []]]]; discriminate.
  - intros op [<- | [<- | []]]; discriminate.
Defined.

(** ** Writes composed *)

Lemma set_nth_twice (n : nat) (v w : Z) (l : list Z) :
  set_nth n w (set_nth n v l) = set_nth n w l.
Proof.
  revert n; induction l as [|x l IH]; intros [|n]; simpl; try reflexivity.
  rewrite IH. reflexivity.
Qed.

Lemma set_nth_swap (n k : nat) (v w : Z) (l : list Z) :
  n <> k -> set_nth n v (set_nth k w l) = set_nth k w (set_nth n v l).
Proof.
  revert n k; induction l as [|x l IH]; intros [|n] [|k] H; simpl; try reflexivity.
  - congruence.
  - rewrite IH by congruence. reflexivity.
Qed.

Lemma write_final (i : N) (v : Z) (mf : MultiField) :
  final (write i v mf) =
  mkMultiField (if size mf <=? i then vals mf else set_nth (N.to_nat i) v (vals mf)) (locks mf).
Proof. rewrite write_field_effect. reflexivity. Qed.

(** X2. A write is seen by the next read of the same field, whatever the
    field held, and of two writes to one field the later one stays: the
    store after both is the store after the second alone. *)
Theorem last_write_wins (mf : MultiField) (i : N) (v w : Z) :
  i < size mf ->
  result (read i (final (write i v mf))) = v /\
  final (write i w (final (write i v mf))) = final (write i w mf).
Proof.
  intros H. pose proof H as H'. apply N.leb_gt in H'.
  rewrite !write_final. rewrite H'. split.
  - rewrite read_result. unfold size in *. cbn [vals]. rewrite set_nth_length, H'.
    apply nth_set_nth_same. lia.
  - unfold size in *. cbn [vals locks]. rewrite set_nth_length, H', set_nth_twice. reflexivity.
Qed.

Lemma last_write_wins_witness :
  let mf := Demo.MultiField 3 9 in
  result (read 1 (final (write 1 4 mf))) = 4%Z /\
  final (write 1 6 (final (write 1 4 mf))) = final (write 1 6 mf).
Proof. apply (last_write_wins (Demo.MultiField 3 9) 1 4 6). reflexivity. Defined.

(** X3. Writes to two different indices commute: either order leaves the
    same store, also when one or both indices are out of range. *)
Theorem writes_to_different_fields_commute (mf : MultiField) (i j : N) (v w : Z) :
  i <> j ->
  final (write i v (final (write j w mf))) = final (write j w (final (write i v mf))).
Proof.
  intros H. rewrite !write_final. unfold size. cbn [vals locks].
  destruct (N.of_nat (List.length (vals mf)) <=? i) eqn:Ei;
    destruct (N.of_nat (List.length (vals mf)) <=? j) eqn:Ej;
    rewrite ?set_nth_length, ?Ei, ?Ej; try reflexivity.
  rewrite set_nth_swap; [reflexivity|]. intros E. apply H. apply N2Nat.inj; exact E.
Qed.

Lemma writes_to_different_fields_commute_witness :
  let mf := Demo.MultiField 3 9 in
  final (write 0 4 (final (write 2 6 mf))) = final (write 2 6 (final (write 0 4 mf))).
Proof. apply (writes_to_different_fields_commute (Demo.MultiField 3 9) 0 2 4 6). discriminate. Defined.

(** ** Every access is under its guard *)

Lemma guarded_app (t1 t2 : list event) (h : holding) :
  guarded h t1 -> guarded (fold_left after_action (map action_of t1) h) t2 ->
  guarded h (t1 ++ t2).
Proof.
  revert h; induction t1 as [|e t1 IH]; intros h H1 H2; simpl in *; [exact H2|].
  destruct H1 as [He H1]. split; [exact He | apply IH; assumption].
Qed.

Lemma guarded_locks (l : list N) (h : holding) : guarded h (map LockShared l).
Proof. revert h; induction l as [|i l IH]; intros h; simpl; [exact I | split; [exact I | apply IH]]. Qed.

Lemma guarded_unlocks (l : list N) (h : holding) : guarded h (map Unlock l).
Proof. revert h; induction l as [|i l IH]; intros h; simpl; [exact I | split; [exact I | apply IH]]. Qed.

Lemma guarded_loads (f : N -> Z) (l : list N) (h : holding) :
  (forall i, In i l -> In (i, Shared) h) -> guarded h (map (fun i => Load i (f i)) l).
Proof.
  induction l as [|i l IH]; intros H; simpl; [exact I|].
  split; [apply H; left; reflexivity | apply IH; intros j Hj; apply H; right; exact Hj].
Qed.

Lemma snapshot_trace_guarded (opening closing : string) (mf : MultiField) :
  well_formed mf ->
  guarded [] (trace (to_string_with opening closing mf)) /\
  held_after (trace (to_string_with opening closing mf)) = [].
Proof.
  intros W. rewrite to_string_with_eq. unfold trace; cbn [snd].
  unfold well_formed in W. rewrite W. fold (size mf). set (all := indices (size mf)).
  assert (HL : Forall is_load (map (fun i => Load i (field_at mf i)) all)).
  { apply Forall_forall. intros e He. apply in_map_iff in He. destruct He as (i & <- & _). exact I. }
  split.
  - apply guarded_app; [apply guarded_locks|]. rewrite acquire_all_shared. cbn [app].
    apply guarded_app; [|apply guarded_unlocks].
    apply guarded_loads. intros i Hi. apply in_map_iff. exists i. split; [reflexivity | exact Hi].
  - rewrite held_after_app. unfold held_after. rewrite acquire_all_shared. cbn [app].
    rewrite map_app, fold_left_app, (loads_hold_nothing_more _ _ HL). apply release_all_shared.
Qed.

Lemma call_trace_guarded (opening closing : string) (c : call) (mf : MultiField) :
  well_formed mf ->
  guarded [] (trace (spec_dispatch (to_string_with opening closing) c mf)) /\
  held_after (trace (spec_dispatch (to_string_with opening closing) c mf)) = [].
Proof.
  intros W. destruct c as [i | i v |]; unfold spec_dispatch, bind.
  - destruct (N.leb_spec (size mf) i) as [H|H];
      [rewrite read_out_of_range by exact H | rewrite read_in_range by exact H];
      unfold trace, held_after; simpl; rewrite ?N.eqb_refl; auto.
  - destruct (N.leb_spec (size mf) i) as [H|H];
      [rewrite write_out_of_range by exact H | rewrite write_in_range by exact H];
      unfold trace, held_after; simpl; rewrite ?N.eqb_refl; auto.
  - pose proof (snapshot_trace_guarded opening closing mf W) as G.
    destruct (to_string_with opening closing mf) as [[s mf1] t1].
    unfold trace, ret in *; cbn [snd] in *. rewrite app_nil_r. exact G.
Qed.

Lemma spec_run_guarded (opening closing : string) (cs : list call) (mf : MultiField) :
  well_formed mf ->
  guarded [] (trace (spec_run (to_string_with opening closing) cs mf)) /\
  held_after (trace (spec_run (to_string_with opening closing) cs mf)) = [].
Proof.
  revert mf; induction cs as [|c cs IH]; intros mf W.
  - split; [exact I | reflexivity].
  - destruct (call_trace_guarded opening closing c mf W) as [G1 B1].
    assert (W1 : well_formed (final (spec_dispatch (to_string_with opening closing) c mf))).
    { rewrite spec_dispatch_final. unfold well_formed in *. cbn [vals locks].
      rewrite field_effect_length. exact W. }
    specialize (IH _ W1). unfold spec_run in *. cbn [for_each]. unfold bind.
    destruct (spec_dispatch _ c mf) as [[u mf1] t1].
    unfold final, trace in G1, B1, W1, IH. cbn [fst snd] in G1, B1, W1, IH.
    destruct (for_each cs _ mf1) as [[u2 mf2] t2].
    unfold trace in *. cbn [snd] in *. destruct IH as [G2 B2]. split.
    + apply guarded_app; [exact G1|]. unfold held_after in B1. rewrite B1. exact G2.
    + rewrite held_after_app. rewrite B1. exact B2.
Qed.

(** X4. In a store with one guard per field, every field access of a worker
    is made under the guard of that field: each load while the worker holds
    the shared lock of the field, each store while it holds the exclusive
    lock; and when the worker returns it holds no lock. *)
Theorem worker_accesses_are_guarded
    (lops : list Lab4.Op) (dops : list Demo.Op) (mf : MultiField) :
  well_formed mf ->
  guarded [] (trace (Lab4.worker lops mf)) /\
  held_after (trace (Lab4.worker lops mf)) = [] /\
  guarded [] (trace (Demo.execute_ops dops mf)) /\
  held_after (trace (Demo.execute_ops dops mf)) = [].
Proof.
  intros W. rewrite lab4_worker_spec, demo_execute_ops_spec.
  destruct (spec_run_guarded "{" "}" (map lab4_call lops) mf W) as [G1 B1].
  destruct (spec_run_guarded "[" "]" (map demo_call dops) mf W) as [G2 B2].
  repeat split; assumption.
Qed.

Lemma worker_accesses_are_guarded_witness :
  let lops := [Lab4.mkOp Lab4.WRITE 1 5; Lab4.mkOp Lab4.STRING 0 0; Lab4.mkOp Lab4.READ 2 0] in
  let dops := [Demo.mkOp Demo.STRING 0 0; Demo.mkOp Demo.WRITE 0 8] in
  let mf := Demo.MultiField 3 9 in
  guarded [] (trace (Lab4.worker lops mf)) /\
  held_after (trace (Lab4.worker lops mf)) = [] /\
  guarded [] (trace (Demo.execute_ops dops mf)) /\
  held_after (trace (Demo.execute_ops dops mf)) = [].
Proof.
  apply (worker_accesses_are_guarded
           [Lab4.mkOp Lab4.WRITE 1 5; Lab4.mkOp Lab4.STRING 0 0; Lab4.mkOp Lab4.READ 2 0]
           [Demo.mkOp Demo.STRING 0 0; Demo.mkOp Demo.WRITE 0 8] (Demo.MultiField 3 9)).
  reflexivity.
Defined.

(** ** A negative index in lab4.cpp *)

(** X5. In lab4.cpp the index of an operation is an [int] handed to a
    [size_t] parameter, so a negative index arrives as a value of at least
    2^64 - 2^31: on any store of fewer fields a READ or a WRITE with a
    negative index does nothing at all, no lock, no load, no store. *)
Theorem lab4_negative_index_is_noop (op : Lab4.Op) (mf : MultiField) :
  Lab4.type op <> Lab4.STRING ->
  (INT_MIN <= Lab4.idx op < 0)%Z ->
  size mf <= 2 ^ 64 - 2 ^ 31 ->
  Lab4.dispatch op mf = (tt, mf, []).
Proof.
  intros T Hi Hs.
  assert (E : size mf <= Lab4.size_t_of_int (Lab4.idx op)).
  { unfold Lab4.size_t_of_int, INT_MIN in *.
    assert (M : (Lab4.idx op mod 2 ^ 64 = 2 ^ 64 + Lab4.idx op)%Z).
    { symmetry. apply Z.mod_unique with (q := (-1)%Z); lia. }
    rewrite M. apply N2Z.inj_le. rewrite Z2N.id by lia.
    apply N2Z.inj_le in Hs. rewrite N2Z.inj_sub in Hs by (apply N.pow_le_mono_r; lia).
    rewrite !N2Z.inj_pow in Hs. simpl Z.of_N in Hs. lia. }
  unfold Lab4.dispatch. destruct (Lab4.type op); try congruence.
  - unfold bind. rewrite read_out_of_range by exact E. reflexivity.
  - apply write_out_of_range; exact E.
Qed.

Lemma lab4_negative_index_is_noop_witness :
  Lab4.dispatch (Lab4.mkOp Lab4.WRITE (-1) 5) (Lab4.MultiField 3) = (tt, Lab4.MultiField 3, []).
Proof.
  apply (lab4_negative_index_is_noop (Lab4.mkOp Lab4.WRITE (-1) 5) (Lab4.MultiField 3)).
  - discriminate.
  - unfold INT_MIN; simpl; lia.
  - vm_compute; discriminate.
Defined.

(** * Further properties of the loaders *)

Lemma space_is_no_digit (c : ascii) : isspace c = true -> isdigit c = false.
Proof.
  unfold isspace, isdigit. intros H. apply orb_true_iff in H.
  apply andb_false_iff. left. apply N.leb_gt.
  destruct H as [H | H]; [apply N.eqb_eq in H; lia|].
  apply andb_true_iff in H. destruct H as [_ H]. apply N.leb_le in H. lia.
Qed.

Lemma separator_ends (sep next : list ascii) :
  sep <> [] -> forallb isspace sep = true ->
  ends_word (sep ++ next) /\ ends_number (sep ++ next) /\ is_nil (sep ++ next) = false.
Proof.
  intros Hne Hs. destruct sep as [|c sep]; [congruence|].
  cbn [forallb] in Hs. apply andb_true_iff in Hs. destruct Hs as [Hc _].
  cbn [app ends_word ends_number is_nil]. repeat split; [exact Hc | apply space_is_no_digit; exact Hc].
Qed.

Lemma items_text_cons (p : item * list ascii) (its : list (item * list ascii)) :
  items_text (p :: its) = item_text (fst p) ++ snd p ++ items_text its.
Proof. unfold items_text. simpl. rewrite <- app_assoc. reflexivity. Qed.

Lemma lab4_load_items (u : Z) (its : list (item * list ascii)) :
  Forall well_formed_item its ->
  forall (pre : list ascii) (ops : list Lab4.Op) (fuel : nat),
    forallb isspace pre = true ->
    (List.length (pre ++ items_text its) < fuel)%nat ->
    Lab4.load_loop u fuel (mkIstream (pre ++ items_text its) false false) ops =
    ops ++ flat_map (fun p => item_ops (fst p)) its.
Proof.
  induction 1 as [|[it sep] its Hit _ IH]; intros pre ops fuel Hpre Hfuel.
  - destruct fuel as [|fuel]; [simpl in Hfuel; lia|].
    cbn [Lab4.load_loop items_text flat_map]. unfold extract_string, sentry, good.
    cbn [buf failbit eofbit negb andb]. rewrite skip_ws_app by exact Hpre.
    cbn [skip_ws failbit]. rewrite app_nil_r. reflexivity.
  - rewrite (lab4_load_loop_fuel u fuel (S (S (List.length (pre ++ items_text ((it, sep) :: its))))))
      by (cbn [buf]; lia).
    clear fuel Hfuel. rewrite items_text_cons. cbn [fst snd].
    destruct Hit as (Hne & Hsep & Hit). cbn [fst snd] in Hne, Hsep, Hit.
    set (next := items_text its) in *.
    destruct (separator_ends sep next Hne Hsep) as (Ew & En & Enil).
    assert (Hnext : forall ops',
      Lab4.load_loop u (S (List.length (pre ++ item_text it ++ sep ++ next)))
        (mkIstream (sep ++ next) false false) ops' =
      ops' ++ flat_map (fun p => item_ops (fst p)) its).
    { intros ops'. apply IH; [exact Hsep|]. rewrite !length_app. lia. }
    remember (S (List.length (pre ++ item_text it ++ sep ++ next))) as fuel eqn:Hf.
    cbn [Lab4.load_loop flat_map fst].
    destruct it as [i | i v | | word]; cbn [item_text item_ops] in *.
    + change (pre ++ (list_ascii_of_string "read " ++ list_ascii_of_string (show_int i)) ++
              sep ++ next)
        with (pre ++ list_ascii_of_string "read" ++
              ([" "%char] ++ list_ascii_of_string (show_int i) ++ sep ++ next)).
      rewrite extract_string_word; [|exact Hpre|discriminate|reflexivity|reflexivity].
      cbn [failbit is_nil app].
      change (String.eqb (string_of_list_ascii (list_ascii_of_string "read")) "read") with true.
      cbv iota.
      change (" "%char :: list_ascii_of_string (show_int i) ++ sep ++ next)
        with ([" "%char] ++ list_ascii_of_string (show_int i) ++ sep ++ next).
      rewrite extract_int_shown; [|exact Hit|reflexivity|exact En].
      rewrite Enil, Hnext, <- app_assoc. reflexivity.
    + destruct Hit as [Hi Hv].
      change (pre ++ (list_ascii_of_string "write " ++ list_ascii_of_string (show_int i) ++
                      list_ascii_of_string " " ++ list_ascii_of_string (show_int v)) ++
              sep ++ next)
        with (pre ++ list_ascii_of_string "write" ++
              ([" "%char] ++ (list_ascii_of_string (show_int i) ++
                      [" "%char] ++ list_ascii_of_string (show_int v)) ++
               sep ++ next)).
      rewrite extract_string_word; [|exact Hpre|discriminate|reflexivity|reflexivity].
      cbn [failbit is_nil app].
      change (String.eqb (string_of_list_ascii (list_ascii_of_string "write")) "read") with false.
      change (String.eqb (string_of_list_ascii (list_ascii_of_string "write")) "write") with true.
      cbv iota. rewrite <- !app_assoc.
      change (" "%char :: list_ascii_of_string (show_int i) ++
              (" "%char :: list_ascii_of_string (show_int v)) ++ sep ++ next)
        with ([" "%char] ++ list_ascii_of_string (show_int i) ++
              ([" "%char] ++ list_ascii_of_string (show_int v) ++ sep ++ next)).
      rewrite extract_int_shown; [|exact Hi|reflexivity|reflexivity].
      cbn [is_nil app].
      change (" "%char :: list_ascii_of_string (show_int v) ++ sep ++ next)
        with ([" "%char] ++ list_ascii_of_string (show_int v) ++ sep ++ next).
      rewrite extract_int_shown; [|exact Hv|reflexivity|exact En].
      rewrite Enil, Hnext, <- app_assoc. reflexivity.
    + rewrite extract_string_word; [|exact Hpre|discriminate|reflexivity|exact Ew].
      cbn [failbit].
      change (String.eqb (string_of_list_ascii (list_ascii_of_string "string")) "read") with false.
      change (String.eqb (string_of_list_ascii (list_ascii_of_string "string")) "write") with false.
      change (String.eqb (string_of_list_ascii (list_ascii_of_string "string")) "string") with true.
      cbv iota. rewrite Enil, Hnext, <- app_assoc. reflexivity.
    + destruct Hit as (Hwne & Hw & Hcmd).
      rewrite extract_string_word; [|exact Hpre|exact Hwne|exact Hw|exact Ew].
      cbn [failbit].
      unfold is_command in Hcmd. apply orb_false_iff in Hcmd. destruct Hcmd as [Hcmd Hs].
      apply orb_false_iff in Hcmd. destruct Hcmd as [Hr Hwr]. rewrite Hr, Hwr, Hs.
      rewrite Enil, Hnext. reflexivity.
Qed.

Lemma demo_loader_line_by_line_witness :
  let ls := [ReadLine 1;
             OtherLine (list_ascii_of_string "foo") (list_ascii_of_string " read 1");
             WriteLine 2 (-5); StringLine] in
  Demo.load_ops_from_file 7 8 (Some (string_of_list_ascii (file_text ls))) =
  flat_map line_ops ls.
Proof.
  apply (demo_loader_line_by_line 7 8
           [ReadLine 1;
            OtherLine (list_ascii_of_string "foo") (list_ascii_of_string " read 1");
            WriteLine 2 (-5); StringLine]).
  repeat constructor; try (vm_compute; discriminate).
  intros H. vm_compute in H. repeat (destruct H as [H | H]; [discriminate H|]). exact H.
Defined.

(** X7. The loader of lab4.cpp reads a file word by word: each command with
    its numbers gives its one operation, in order, a word that is no command
    gives none, and only that word is passed over, however the words are
    spread over the lines. *)
Theorem lab4_loader_word_by_word (u : Z) (its : list (item * list ascii)) :
  Forall well_formed_item its ->
  Lab4.load_ops u (Some (string_of_list_ascii (items_text its))) =
  flat_map (fun p => item_ops (fst p)) its.
Proof.
  intros H. unfold Lab4.load_ops, ifstream.
  rewrite list_ascii_of_string_of_list_ascii. cbn [buf].
  apply (lab4_load_items u its H [] []); [reflexivity | simpl; lia].
Qed.

Lemma lab4_loader_word_by_word_witness :
  let its := [(OtherItem (list_ascii_of_string "foo"), [" "%char]);
              (ReadItem (-1), ["010"%char]);
              (WriteItem 2 (-5), [" "%char; " "%char]);
              (StringItem, ["010"%char])] in
  Lab4.load_ops 7 (Some (string_of_list_ascii (items_text its))) =
  flat_map (fun p => item_ops (fst p)) its.
Proof.
  apply (lab4_loader_word_by_word 7
           [(OtherItem (list_ascii_of_string "foo"), [" "%char]);
            (ReadItem (-1), ["010"%char]);
            (WriteItem 2 (-5), [" "%char; " "%char]);
            (StringItem, ["010"%char])]).
  repeat constructor; try (vm_compute; discriminate).
Defined.

(** ** The two loaders on the files the programs write *)

Lemma show_int_of_N (i : N) : show_int (Z.of_N i) = show_N i.
Proof.
  unfold show_int. replace (Z.of_N i <? 0)%Z with false by (symmetry; apply Z.ltb_ge; lia).
  rewrite N2Z.id. reflexivity.
Qed.

Lemma plain_line_text (l : line) :
  plain_line l ->
  line_text l ++ ["010"%char] = item_text (fst (item_of_line l)) ++ snd (item_of_line l).
Proof.
  destruct l as [i | i v | | word tail]; cbn [plain_line line_text item_of_line item_text fst snd];
    intros H; rewrite ?show_int_of_N; try reflexivity.
  destruct H as [-> _]. rewrite app_nil_r. reflexivity.
Qed.

Lemma plain_file_text (ls : list line) :
  Forall plain_line ls -> file_text ls = items_text (map item_of_line ls).
Proof.
  induction 1 as [|l ls Hl _ IH]; [reflexivity|].
  unfold file_text, items_text in *. cbn [flat_map map].
  rewrite IH, plain_line_text by exact Hl. reflexivity.
Qed.

Lemma plain_line_well_formed (l : line) :
  plain_line l -> well_formed_line l /\ well_formed_item (item_of_line l).
Proof.
  unfold well_formed_item.
  destruct l as [i | i v | | word tail];
    cbn [plain_line well_formed_line item_of_line fst snd]; unfold INT_MAX, INT_MIN, SIZE_MAX.
  - intros H. repeat split; try discriminate; lia.
  - intros [H1 H2]. repeat split; try discriminate; lia.
  - intros _. repeat split; discriminate.
  - intros (-> & H1 & H2 & H3). repeat split; try discriminate; try assumption. intros [].
Qed.

Lemma plain_line_calls (l : line) :
  plain_line l ->
  map lab4_call (item_ops (fst (item_of_line l))) = map demo_call (line_ops l).
Proof.
  assert (E : forall i, (Z.of_N i <= INT_MAX)%Z -> Lab4.size_t_of_int (Z.of_N i) = i).
  { intros i H. unfold Lab4.size_t_of_int, INT_MAX in *.
    rewrite Z.mod_small by lia. apply N2Z.id. }
  destruct l as [i | i v | | word tail]; cbn [plain_line item_of_line fst item_ops line_ops map];
    unfold lab4_call, demo_call; cbn [Lab4.type Lab4.idx Lab4.value Demo.type Demo.idx Demo.value].
  - intros H. rewrite E by exact H. reflexivity.
  - intros [H _]. rewrite E by exact H. reflexivity.
  - reflexivity.
  - reflexivity.
Qed.

(** X8. On a file of command lines whose indices fit an [int], and of lone
    words, the two loaders load the same calls on the store: what one
    program writes as a workload, the other runs in the same way. *)
Theorem loaders_agree_on_plain_files (u : Z) (ui : N) (uv : Z) (ls : list line) :
  Forall plain_line ls ->
  map lab4_call (Lab4.load_ops u (Some (string_of_list_ascii (file_text ls)))) =
  map demo_call (Demo.load_ops_from_file ui uv (Some (string_of_list_ascii (file_text ls)))).
Proof.
  intros H.
  assert (HD : Forall well_formed_line ls).
  { eapply Forall_impl; [|exact H]. intros l Hl. apply plain_line_well_formed; exact Hl. }
  assert (HL : Forall well_formed_item (map item_of_line ls)).
  { apply Forall_map. eapply Forall_impl; [|exact H]. intros l Hl.
    apply plain_line_well_formed; exact Hl. }
  unfold Lab4.load_ops, Demo.load_ops_from_file, ifstream.
  rewrite list_ascii_of_string_of_list_ascii. cbn [buf].
  rewrite (demo_load_lines ui uv ls HD [] []) by (try reflexivity; simpl; lia).
  rewrite (plain_file_text ls H).
  rewrite (lab4_load_items u _ HL [] []) by (try reflexivity; simpl; lia).
  cbn [app]. clear HD HL. induction H as [|l ls Hl _ IH]; [reflexivity|].
  cbn [map flat_map]. rewrite !map_app, IH, plain_line_calls by exact Hl. reflexivity.
Qed.

Lemma loaders_agree_on_plain_files_witness :
  let ls := [ReadLine 1; WriteLine 2 (-5); OtherLine (list_ascii_of_string "foo") [];
             StringLine] in
  map lab4_call (Lab4.load_ops 7 (Some (string_of_list_ascii (file_text ls)))) =
  map demo_call (Demo.load_ops_from_file 8 9 (Some (string_of_list_ascii (file_text ls)))).
Proof.
  apply (loaders_agree_on_plain_files 7 8 9
           [ReadLine 1; WriteLine 2 (-5); OtherLine (list_ascii_of_string "foo") [];
            StringLine]).
  repeat constructor; try (vm_compute; discriminate).
Defined.

(** ** How much a loader can load *)

Lemma lab4_load_loop_bound (u : Z) (fuel : nat) (ifs : istream) (ops : list Lab4.Op) :
  (List.length (Lab4.load_loop u fuel ifs ops) <= List.length ops + List.length (buf ifs))%nat /\
  (List.length ops <= List.length (Lab4.load_loop u fuel ifs ops))%nat.
Proof.
  revert ifs ops; induction fuel as [|fuel IH]; intros ifs ops; [simpl; lia|].
  cbn [Lab4.load_loop]. pose proof (extract_string_shrinks EmptyString ifs) as S.
  destruct (extract_string EmptyString ifs) as [cmd ifs1]. simpl in S.
  destruct (failbit ifs1); [lia|]. specialize (S eq_refl).
  destruct (String.eqb cmd "read").
  { pose proof (extract_int_length u ifs1) as L.
    destruct (extract_int u ifs1) as [idx ifs2]. simpl in L.
    specialize (IH ifs2 (ops ++ [Lab4.mkOp Lab4.READ idx 0])).
    rewrite length_app in IH. simpl in IH. lia. }
  destruct (String.eqb cmd "write").
  { pose proof (extract_int_length u ifs1) as L.
    destruct (extract_int u ifs1) as [idx ifs2]. simpl in L.
    pose proof (extract_int_length u ifs2) as L'.
    destruct (extract_int u ifs2) as [val ifs3]. simpl in L'.
    specialize (IH ifs3 (ops ++ [Lab4.mkOp Lab4.WRITE idx val])).
    rewrite length_app in IH. simpl in IH. lia. }
  destruct (String.eqb cmd "string").
  { specialize (IH ifs1 (ops ++ [Lab4.mkOp Lab4.STRING 0 0])).
    rewrite length_app in IH. simpl in IH. lia. }
  specialize (IH ifs1 ops). lia.
Qed.

Lemma demo_load_loop_bound (ui : N) (uv : Z) (fuel : nat) (ifs : istream) (ops : list Demo.Op) :
  (List.length (Demo.load_loop ui uv fuel ifs ops) <= List.length ops + List.length (buf ifs))%nat /\
  (List.length ops <= List.length (Demo.load_loop ui uv fuel ifs ops))%nat.
Proof.
  revert ifs ops; induction fuel as [|fuel IH]; intros ifs ops; [simpl; lia|].
  cbn [Demo.load_loop]. pose proof (extract_string_shrinks EmptyString ifs) as S.
  destruct (extract_string EmptyString ifs) as [cmd ifs1]. simpl in S.
  destruct (failbit ifs1); [lia|]. specialize (S eq_refl).
  destruct (String.eqb cmd "read").
  { pose proof (extract_size_t_length ui ifs1) as L.
    destruct (extract_size_t ui ifs1) as [idx ifs2]. simpl in L.
    specialize (IH ifs2 (ops ++ [Demo.mkOp Demo.READ idx 0])).
    rewrite length_app in IH. simpl in IH. lia. }
  destruct (String.eqb cmd "write").
  { pose proof (extract_size_t_length ui ifs1) as L.
    destruct (extract_size_t ui ifs1) as [idx ifs2]. simpl in L.
    pose proof (extract_int_length uv ifs2) as L'.
    destruct (extract_int uv ifs2) as [val ifs3]. simpl in L'.
    specialize (IH ifs3 (ops ++ [Demo.mkOp Demo.WRITE idx val])).
    rewrite length_app in IH. simpl in IH. lia. }
  destruct (String.eqb cmd "string").
  { specialize (IH ifs1 (ops ++ [Demo.mkOp Demo.STRING 0 0])).
    rewrite length_app in IH. simpl in IH. lia. }
  pose proof (getline_length EmptyString ifs1) as L.
  destruct (getline EmptyString ifs1) as [rest ifs2]. simpl in L.
  specialize (IH ifs2 ops). lia.
Qed.

Lemma length_list_ascii_of_string (s : string) :
  List.length (list_ascii_of_string s) = String.length s.
Proof. induction s as [|c s IH]; simpl; [reflexivity | rewrite IH; reflexivity]. Qed.

(** X9. Both loading loops end by themselves: every turn that loads an
    operation takes at least one character off the text, so a loader never
    loads more operations than the file has characters, and letting the
    loop run for more turns than that changes nothing. *)
Theorem loaders_end_by_themselves (u : Z) (ui : N) (uv : Z) (text : string) (fuel : nat) :
  (String.length text < fuel)%nat ->
  Lab4.load_loop u fuel (mkIstream (list_ascii_of_string text) false false) [] =
    Lab4.load_ops u (Some text) /\
  Demo.load_loop ui uv fuel (mkIstream (list_ascii_of_string text) false false) [] =
    Demo.load_ops_from_file ui uv (Some text) /\
  (List.length (Lab4.load_ops u (Some text)) <= String.length text)%nat /\
  (List.length (Demo.load_ops_from_file ui uv (Some text)) <= String.length text)%nat.
Proof.
  intros H. unfold Lab4.load_ops, Demo.load_ops_from_file, ifstream. cbn [buf].
  rewrite <- length_list_ascii_of_string in *.
  split; [apply lab4_load_loop_fuel; cbn [buf]; lia|].
  split; [apply demo_load_loop_fuel; cbn [buf]; lia|].
  split.
  - pose proof (lab4_load_loop_bound u (S (List.length (list_ascii_of_string text)))
                  (mkIstream (list_ascii_of_string text) false false) []) as [B _].
    exact B.
  - pose proof (demo_load_loop_bound ui uv (S (List.length (list_ascii_of_string text)))
                  (mkIstream (list_ascii_of_string text) false false) []) as [B _].
    exact B.
Qed.

Lemma loaders_end_by_themselves_witness :
  let text := ("write 2 -5" ++ newline ++ "foo string" ++ newline)%string in
  Lab4.load_loop 7 100 (mkIstream (list_ascii_of_string text) false false) [] =
    Lab4.load_ops 7 (Some text) /\
  Demo.load_loop 8 9 100 (mkIstream (list_ascii_of_string text) false false) [] =
    Demo.load_ops_from_file 8 9 (Some text) /\
  (List.length (Lab4.load_ops 7 (Some text)) <= String.length text)%nat /\
  (List.length (Demo.load_ops_from_file 8 9 (Some text)) <= String.length text)%nat.
Proof.
  apply (loaders_end_by_themselves 7 8 9
           ("write 2 -5" ++ newline ++ "foo string" ++ newline)%string 100).
  vm_compute. lia.
Defined.

(** X10. A file that holds nothing but white space, the empty file among
    them, gives the empty stream with both loaders. *)
Theorem blank_file_loads_nothing (u : Z) (ui : N) (uv : Z) (text : string) :
  forallb isspace (list_ascii_of_string text) = true ->
  Lab4.load_ops u (Some text) = [] /\ Demo.load_ops_from_file ui uv (Some text) = [].
Proof.
  intros H. unfold Lab4.load_ops, Demo.load_ops_from_file, ifstream. cbn [buf].
  cbn [Lab4.load_loop Demo.load_loop]. unfold extract_string, sentry, good.
  cbn [buf failbit eofbit negb andb].
  assert (E : skip_ws (list_ascii_of_string text) = []).
  { rewrite <- (app_nil_r (list_ascii_of_string text)).
    rewrite skip_ws_app by exact H. reflexivity. }
  rewrite E. cbn [failbit]. split; reflexivity.
Qed.

Lemma blank_file_loads_nothing_witness :
  let text := (" " ++ newline ++ newline ++ "  ")%string in
  Lab4.load_ops 7 (Some text) = [] /\ Demo.load_ops_from_file 8 9 (Some text) = [].
Proof.
  apply (blank_file_loads_nothing 7 8 9 (" " ++ newline ++ newline ++ "  ")%string).
  reflexivity.
Defined.

(** * Properties of the generators *)

(** ** Generated lines, loaded *)

Lemma line_within_plain (m : N) (lo hi : Z) (l : line) :
  m <= 2147483648 -> (INT_MIN <= lo)%Z -> (hi <= INT_MAX)%Z ->
  line_within m lo hi l -> plain_line l.
Proof.
  unfold INT_MIN, INT_MAX. intros Hm Hlo Hhi.
  destruct l as [i | i v | | word tail]; cbn [line_within plain_line]; unfold INT_MIN, INT_MAX.
  - intros H. lia.
  - intros [H1 H2]. lia.
  - auto.
  - intros [].
Qed.

Lemma line_within_calls (m : N) (lo hi : Z) (ls : list line) :
  Forall (line_within m lo hi) ls ->
  Forall (call_within m lo hi) (flat_map line_calls ls) /\
  List.length (flat_map line_calls ls) = List.length ls.
Proof.
  induction 1 as [|l ls Hl _ [IH1 IH2]]; [split; [constructor | reflexivity]|].
  cbn [flat_map]. rewrite length_app, IH2.
  destruct l as [i | i v | | word tail]; cbn [line_within] in Hl; try contradiction;
    cbn [line_calls line_ops map app List.length]; unfold demo_call;
    cbn [Demo.type Demo.idx Demo.value]; (split; [constructor; assumption | reflexivity]).
Qed.

Lemma lab4_load_plain (u : Z) (ls : list line) :
  Forall plain_line ls ->
  map lab4_call (Lab4.load_ops u (Some (string_of_list_ascii (file_text ls)))) =
  flat_map line_calls ls.
Proof.
  intros H.
  assert (HL : Forall well_formed_item (map item_of_line ls)).
  { apply Forall_map. eapply Forall_impl; [|exact H]. intros l Hl.
    apply plain_line_well_formed; exact Hl. }
  unfold Lab4.load_ops, ifstream.
  rewrite list_ascii_of_string_of_list_ascii. cbn [buf].
  rewrite (plain_file_text ls H).
  rewrite (lab4_load_items u _ HL [] []) by (try reflexivity; simpl; lia).
  cbn [app]. clear HL. induction H as [|l ls Hl _ IH]; [reflexivity|].
  cbn [map flat_map]. rewrite !map_app, IH, plain_line_calls by exact Hl. reflexivity.
Qed.

Lemma demo_load_plain (ui : N) (uv : Z) (ls : list line) :
  Forall well_formed_line ls ->
  map demo_call (Demo.load_ops_from_file ui uv (Some (string_of_list_ascii (file_text ls)))) =
  flat_map line_calls ls.
Proof.
  intros H. unfold Demo.load_ops_from_file, ifstream.
  rewrite list_ascii_of_string_of_list_ascii. cbn [buf].
  rewrite (demo_load_lines ui uv ls H [] []) by (try reflexivity; simpl; lia).
  cbn [app]. clear H. induction ls as [|l ls IH]; [reflexivity|].
  cbn [flat_map]. rewrite map_app, IH. reflexivity.
Qed.

(** A generated file, loaded by lab4.cpp. *)
Lemma lab4_loads_generated (u : Z) (m : N) (lo hi : Z) (ls : list line) :
  m <= 2147483648 -> (INT_MIN <= lo)%Z -> (hi <= INT_MAX)%Z ->
  Forall (line_within m lo hi) ls ->
  List.length (Lab4.load_ops u (Some (string_of_list_ascii (file_text ls)))) = List.length ls /\
  Forall (call_within m lo hi)
    (map lab4_call (Lab4.load_ops u (Some (string_of_list_ascii (file_text ls))))).
Proof.
  intros Hm Hlo Hhi H.
  assert (P : Forall plain_line ls).
  { eapply Forall_impl; [|exact H]. intros l. apply line_within_plain; assumption. }
  pose proof (lab4_load_plain u ls P) as E.
  destruct (line_within_calls m lo hi ls H) as [C L].
  rewrite E. split; [|exact C].
  rewrite <- L, <- E. symmetry. apply length_map.
Qed.

Ltac text_eq :=
  unfold put; rewrite ?file_text_cons; cbn [line_text]; rewrite <- ?app_assoc; reflexivity.

Section Lab4Generators.
Variable R : random_source.
Hypothesis RL : lawful R.

Lemma variant6_loop_lines (count : nat) (g : rng R) (ofs : list ascii) :
  exists ls,
    fst (Lab4Gen.variant6_loop R count g ofs) = ofs ++ file_text ls /\
    List.length ls = count /\ Forall (line_within 3 1 100) ls.
Proof.
  revert g ofs; induction count as [|count IH]; intros g ofs.
  - exists []. simpl. rewrite app_nil_r. repeat split. constructor.
  - cbn [Lab4Gen.variant6_loop].
    pose proof (discrete_range R RL 7 g ltac:(lia)) as Ha.
    destruct (discrete R 7 g) as [action g1]. cbn [fst] in Ha.
    assert (Hc : action = 0 \/ action = 1 \/ action = 2 \/ action = 3 \/ action = 4 \/
                 action = 5 \/ action = 6) by lia.
    destruct Hc as [-> | [-> | [-> | [-> | [-> | [-> | ->]]]]]].
    + destruct (IH g1 (put ofs ("read 0" ++ newline))) as (ls & E & L & F).
      exists (ReadLine 0 :: ls). rewrite E. split; [text_eq|].
      split; [simpl; lia | constructor; [simpl; lia | exact F]].
    + pose proof (uniform_int_range R RL 1 100 g1 ltac:(lia)) as Hv.
      destruct (uniform_int R 1 100 g1) as [v g2]. cbn [fst] in Hv.
      destruct (IH g2 (put (put (put ofs "write 0 ") (show_int v)) newline)) as (ls & E & L & F).
      exists (WriteLine 0 v :: ls). rewrite E. split; [text_eq|].
      split; [simpl; lia | constructor; [simpl; split; lia | exact F]].
    + destruct (IH g1 (put ofs ("read 1" ++ newline))) as (ls & E & L & F).
      exists (ReadLine 1 :: ls). rewrite E. split; [text_eq|].
      split; [simpl; lia | constructor; [simpl; lia | exact F]].
    + pose proof (uniform_int_range R RL 1 100 g1 ltac:(lia)) as Hv.
      destruct (uniform_int R 1 100 g1) as [v g2]. cbn [fst] in Hv.
      destruct (IH g2 (put (put (put ofs "write 1 ") (show_int v)) newline)) as (ls & E & L & F).
      exists (WriteLine 1 v :: ls). rewrite E. split; [text_eq|].
      split; [simpl; lia | constructor; [simpl; split; lia | exact F]].
    + destruct (IH g1 (put ofs ("read 2" ++ newline))) as (ls & E & L & F).
      exists (ReadLine 2 :: ls). rewrite E. split; [text_eq|].
      split; [simpl; lia | constructor; [simpl; lia | exact F]].
    + pose proof (uniform_int_range R RL 1 100 g1 ltac:(lia)) as Hv.
      destruct (uniform_int R 1 100 g1) as [v g2]. cbn [fst] in Hv.
      destruct (IH g2 (put (put (put ofs "write 2 ") (show_int v)) newline)) as (ls & E & L & F).
      exists (WriteLine 2 v :: ls). rewrite E. split; [text_eq|].
      split; [simpl; lia | constructor; [simpl; split; lia | exact F]].
    + destruct (IH g1 (put ofs ("string" ++ newline))) as (ls & E & L & F).
      exists (StringLine :: ls). rewrite E. split; [text_eq|].
      split; [simpl; lia | constructor; [exact I | exact F]].
Qed.

Lemma show_int_nonneg (z : Z) : (0 <= z)%Z -> show_int z = show_N (Z.to_N z).
Proof.
  intros H. unfold show_int.
  replace (z <? 0)%Z with false by (symmetry; apply Z.ltb_ge; exact H). reflexivity.
Qed.

Lemma uniform_loop_lines (m : Z) (count : nat) (g : rng R) (ofs : list ascii) :
  (1 <= m)%Z ->
  exists ls,
    fst (Lab4Gen.uniform_loop R m count g ofs) = ofs ++ file_text ls /\
    List.length ls = count /\ Forall (line_within (Z.to_N m) 1 100) ls.
Proof.
  intros Hm. revert g ofs; induction count as [|count IH]; intros g ofs.
  - exists []. simpl. rewrite app_nil_r. repeat split. constructor.
  - cbn [Lab4Gen.uniform_loop].
    destruct (uniform_int R 0 2 g) as [t g1].
    destruct (t =? 0)%Z; [|destruct (t =? 1)%Z].
    + pose proof (uniform_int_range R RL 0 (m - 1) g1 ltac:(lia)) as Hf.
      destruct (uniform_int R 0 (m - 1) g1) as [f g2]. cbn [fst] in Hf.
      destruct (IH g2 (put (put (put ofs "read ") (show_int f)) newline)) as (ls & E & L & F).
      exists (ReadLine (Z.to_N f) :: ls). rewrite E. rewrite show_int_nonneg by lia.
      split; [text_eq|].
      split; [simpl; lia | constructor; [simpl; lia | exact F]].
    + pose proof (uniform_int_range R RL 0 (m - 1) g1 ltac:(lia)) as Hf.
      destruct (uniform_int R 0 (m - 1) g1) as [f g2]. cbn [fst] in Hf.
      pose proof (uniform_int_range R RL 1 100 g2 ltac:(lia)) as Hv.
      destruct (uniform_int R 1 100 g2) as [v g3]. cbn [fst] in Hv.
      destruct (IH g3 (put (put (put (put (put ofs "write ") (show_int f)) " ") (show_int v))
                         newline)) as (ls & E & L & F).
      exists (WriteLine (Z.to_N f) v :: ls). rewrite E. rewrite (show_int_nonneg f) by lia.
      split; [text_eq|].
      split; [simpl; lia | constructor; [simpl; split; lia | exact F]].
    + destruct (IH g1 (put ofs ("string" ++ newline))) as (ls & E & L & F).
      exists (StringLine :: ls). rewrite E. split; [text_eq|].
      split; [simpl; lia | constructor; [exact I | exact F]].
Qed.

Lemma skewed_loop_lines (count : nat) (g : rng R) (ofs : list ascii) :
  exists ls,
    fst (Lab4Gen.skewed_loop R count g ofs) = ofs ++ file_text ls /\
    List.length ls = count /\
    Forall (fun l => l = StringLine \/ exists v, l = WriteLine 0 v /\ (1 <= v <= 100)%Z) ls.
Proof.
  revert g ofs; induction count as [|count IH]; intros g ofs.
  - exists []. simpl. rewrite app_nil_r. repeat split. constructor.
  - cbn [Lab4Gen.skewed_loop].
    destruct (engine R g) as [r g1]. destruct (r mod 100 <? 90).
    + pose proof (uniform_int_range R RL 1 100 g1 ltac:(lia)) as Hv.
      destruct (uniform_int R 1 100 g1) as [v g2]. cbn [fst] in Hv.
      destruct (IH g2 (put (put (put ofs "write 0 ") (show_int v)) newline)) as (ls & E & L & F).
      exists (WriteLine 0 v :: ls). rewrite E. split; [text_eq|].
      split; [simpl; lia | constructor; [right; exists v; split; [reflexivity | exact Hv] | exact F]].
    + destruct (IH g1 (put ofs ("string" ++ newline))) as (ls & E & L & F).
      exists (StringLine :: ls). rewrite E. split; [text_eq|].
      split; [simpl; lia | constructor; [left; reflexivity | exact F]].
Qed.

(** X11. The file [generate_variant6_files] writes for a thread has the name
    [run_test] loads for that thread, and [load_ops] loads from it exactly
    [count] operations, each a snapshot or a read or write of field 0, 1 or
    2, with written values from 1 to 100. *)
Theorem lab4_variant6_file_loads_back (u : Z) (count : N) (thread_idx : Z) (g : rng R) :
  let '(fname, text, _) := Lab4Gen.generate_variant6_files R count thread_idx g in
  fname = Lab4Gen.run_test_file "var6" thread_idx /\
  List.length (Lab4.load_ops u (Some (string_of_list_ascii text))) = N.to_nat count /\
  Forall (call_within 3 1 100)
    (map lab4_call (Lab4.load_ops u (Some (string_of_list_ascii text)))).
Proof.
  unfold Lab4Gen.generate_variant6_files.
  destruct (variant6_loop_lines (N.to_nat count) g []) as (ls & E & L & F).
  destruct (Lab4Gen.variant6_loop R (N.to_nat count) g []) as [ofs g']. cbn [fst app] in E.
  subst ofs. split; [reflexivity|]. rewrite <- L.
  apply (lab4_loads_generated u 3 1 100 ls); unfold INT_MIN, INT_MAX; try lia. exact F.
Qed.

(** X12. For a field count [m] from 1 to 2^31, the file
    [generate_uniform_files] writes for a thread has the name [run_test]
    loads for that thread, and [load_ops] loads from it exactly [count]
    operations, each a snapshot or a read or write of a field below [m],
    with written values from 1 to 100. *)
Theorem lab4_uniform_file_loads_back
    (u : Z) (count : N) (thread_idx : Z) (m : Z) (g : rng R) :
  (1 <= m <= 2147483648)%Z ->
  let '(fname, text, _) := Lab4Gen.generate_uniform_files R count thread_idx m g in
  fname = Lab4Gen.run_test_file "uniform" thread_idx /\
  List.length (Lab4.load_ops u (Some (string_of_list_ascii text))) = N.to_nat count /\
  Forall (call_within (Z.to_N m) 1 100)
    (map lab4_call (Lab4.load_ops u (Some (string_of_list_ascii text)))).
Proof.
  intros Hm. unfold Lab4Gen.generate_uniform_files.
  destruct (uniform_loop_lines m (N.to_nat count) g [] ltac:(lia)) as (ls & E & L & F).
  destruct (Lab4Gen.uniform_loop R m (N.to_nat count) g []) as [ofs g']. cbn [fst app] in E.
  subst ofs. split; [reflexivity|]. rewrite <- L.
  apply (lab4_loads_generated u (Z.to_N m) 1 100 ls); unfold INT_MIN, INT_MAX; try lia. exact F.
Qed.

(** X13. The file [generate_skewed_files] writes for a thread has the name
    [run_test] loads for that thread, and [load_ops] loads from it exactly
    [count] operations, each a snapshot or a write to field 0 of a value
    from 1 to 100: the skewed workload never reads and never touches another
    field. *)
Theorem lab4_skewed_file_loads_back (u : Z) (count : N) (thread_idx : Z) (g : rng R) :
  let '(fname, text, _) := Lab4Gen.generate_skewed_files R count thread_idx g in
  fname = Lab4Gen.run_test_file "skewed" thread_idx /\
  List.length (Lab4.load_ops u (Some (string_of_list_ascii text))) = N.to_nat count /\
  Forall (fun c => c = CallSnapshot \/ exists v, c = CallWrite 0 v /\ (1 <= v <= 100)%Z)
    (map lab4_call (Lab4.load_ops u (Some (string_of_list_ascii text)))).
Proof.
  unfold Lab4Gen.generate_skewed_files.
  destruct (skewed_loop_lines (N.to_nat count) g []) as (ls & E & L & F).
  destruct (Lab4Gen.skewed_loop R (N.to_nat count) g []) as [ofs g']. cbn [fst app] in E.
  subst ofs. split; [reflexivity|]. rewrite <- L.
  assert (W : Forall (line_within 1 1 100) ls).
  { eapply Forall_impl; [|exact F]. intros l [-> | (v & -> & Hv)]; simpl; [exact I | split; lia]. }
  destruct (lab4_loads_generated u 1 1 100 ls) as [Len _]; unfold INT_MIN, INT_MAX; try lia;
    [exact W|].
  split; [exact Len|].
  assert (P : Forall plain_line ls).
  { eapply Forall_impl; [|exact W]. intros l. apply line_within_plain; unfold INT_MIN, INT_MAX; lia. }
  rewrite (lab4_load_plain u ls P). clear -F.
  induction F as [|l ls Hl _ IH]; [constructor|].
  cbn [flat_map]. apply Forall_app. split; [|exact IH].
  destruct Hl as [-> | (v & -> & Hv)]; cbn [line_calls line_ops map]; unfold demo_call;
    cbn [Demo.type Demo.idx Demo.value]; (apply Forall_cons; [|apply Forall_nil]).
  - left; reflexivity.
  - right. exists v. split; [reflexivity | exact Hv].
Qed.

End Lab4Generators.

Lemma counting_source_lawful : lawful counting_source.
Proof.
  constructor; cbn [discrete uniform_int uniform_size engine counting_source fst].
  - intros n g Hn. eapply N.le_lt_trans; [apply N.Div0.mod_le|]. apply N.mod_lt. lia.
  - intros a b g H. pose proof (Z.mod_pos_bound (Z.of_N g) (b - a + 1) ltac:(lia)) as B.
    generalize dependent (Z.of_N g mod (b - a + 1))%Z. intros x B. lia.
  - intros a b g H. change N in (type of g).
    pose proof (N.mod_lt g (b - a + 1) ltac:(lia)) as B.
    generalize dependent (g mod (b - a + 1)). intros x B. lia.
Qed.

Lemma lab4_variant6_file_loads_back_witness :
  let '(fname, text, _) := Lab4Gen.generate_variant6_files counting_source 9 2 0 in
  fname = Lab4Gen.run_test_file "var6" 2 /\
  List.length (Lab4.load_ops 7 (Some (string_of_list_ascii text))) = N.to_nat 9 /\
  Forall (call_within 3 1 100)
    (map lab4_call (Lab4.load_ops 7 (Some (string_of_list_ascii text)))).
Proof.
  exact (lab4_variant6_file_loads_back counting_source counting_source_lawful 7 9 2 0).
Defined.

Lemma lab4_uniform_file_loads_back_witness :
  let '(fname, text, _) := Lab4Gen.generate_uniform_files counting_source 9 1 3 0 in
  fname = Lab4Gen.run_test_file "uniform" 1 /\
  List.length (Lab4.load_ops 7 (Some (string_of_list_ascii text))) = N.to_nat 9 /\
  Forall (call_within (Z.to_N 3) 1 100)
    (map lab4_call (Lab4.load_ops 7 (Some (string_of_list_ascii text)))).
Proof.
  apply (lab4_uniform_file_loads_back counting_source counting_source_lawful 7 9 1 3 0). lia.
Defined.

Lemma lab4_skewed_file_loads_back_witness :
  let '(fname, text, _) := Lab4Gen.generate_skewed_files counting_source 9 0 85 in
  fname = Lab4Gen.run_test_file "skewed" 0 /\
  List.length (Lab4.load_ops 7 (Some (string_of_list_ascii text))) = N.to_nat 9 /\
  Forall (fun c => c = CallSnapshot \/ exists v, c = CallWrite 0 v /\ (1 <= v <= 100)%Z)
    (map lab4_call (Lab4.load_ops 7 (Some (string_of_list_ascii text)))).
Proof.
  exact (lab4_skewed_file_loads_back counting_source counting_source_lawful 7 9 0 85).
Defined.

(** ** The generators of demo_lab4.cpp *)

Lemma line_within_well_formed (m : N) (lo hi : Z) (l : line) :
  m <= SIZE_MAX + 1 -> (INT_MIN <= lo)%Z -> (hi <= INT_MAX)%Z ->
  line_within m lo hi l -> well_formed_line l.
Proof.
  unfold SIZE_MAX. intros Hm Hlo Hhi.
  destruct l as [i | i v | | word tail]; cbn [line_within well_formed_line]; unfold SIZE_MAX.
  - intros H. lia.
  - intros [H1 H2]. split; lia.
  - auto.
  - intros [].
Qed.

(** A generated file, loaded by demo_lab4.cpp. *)
Lemma demo_loads_generated (ui : N) (uv : Z) (m : N) (lo hi : Z) (ls : list line) :
  m <= SIZE_MAX + 1 -> (INT_MIN <= lo)%Z -> (hi <= INT_MAX)%Z ->
  Forall (line_within m lo hi) ls ->
  List.length (Demo.load_ops_from_file ui uv (Some (string_of_list_ascii (file_text ls)))) =
    List.length ls /\
  Forall (call_within m lo hi)
    (map demo_call (Demo.load_ops_from_file ui uv (Some (string_of_list_ascii (file_text ls))))).
Proof.
  intros Hm Hlo Hhi H.
  assert (P : Forall well_formed_line ls).
  { eapply Forall_impl; [|exact H]. intros l. apply line_within_well_formed; assumption. }
  pose proof (demo_load_plain ui uv ls P) as E.
  destruct (line_within_calls m lo hi ls H) as [C L].
  rewrite E. split; [|exact C].
  rewrite <- L, <- E. symmetry. apply length_map.
Qed.

Section DemoGenerators.
Variable R : random_source.
Hypothesis RL : lawful R.

Lemma files_spec (loop : rng R -> list ascii -> list ascii * rng R) (P : list line -> Prop)
    (prefix : string) :
  (forall g, exists ls, fst (loop g []) = file_text ls /\ P ls) ->
  forall (threads : nat) (t : N) (g : rng R),
    map fst (fst (DemoGen.files R loop prefix threads t g)) =
      map (fun k => DemoGen.file_name prefix (t + N.of_nat k)) (seq 0 threads) /\
    Forall (fun nt => exists ls, snd nt = file_text ls /\ P ls)
      (fst (DemoGen.files R loop prefix threads t g)).
Proof.
  intros HL. induction threads as [|threads IH]; intros t g.
  - split; [reflexivity | constructor].
  - cbn [DemoGen.files]. destruct (HL g) as (ls & E & HP).
    destruct (loop g []) as [ofs g1]. cbn [fst] in E.
    destruct (IH (t + 1) g1) as [IN IF].
    destruct (DemoGen.files R loop prefix threads (t + 1) g1) as [rest g2].
    cbn [fst snd map] in *. split.
    + rewrite IN. cbn [seq map]. rewrite N.add_0_r. f_equal.
      rewrite <- seq_shift, map_map. apply map_ext. intros k.
      f_equal. lia.
    + constructor; [exists ls; split; assumption | exact IF].
Qed.

Lemma demo_matching_loop_lines (rw ww : list (real R)) (sp : real R) (n : nat)
    (count : nat) (g : rng R) (ofs : list ascii) :
  List.length rw = n -> List.length ww = n -> (0 < n)%nat ->
  exists ls,
    fst (DemoGen.matching_loop R rw ww sp count g ofs) = ofs ++ file_text ls /\
    List.length ls = count /\ Forall (line_within (N.of_nat n) 1 1000) ls.
Proof.
  intros Hr Hw Hn. revert g ofs; induction count as [|count IH]; intros g ofs.
  - exists []. simpl. rewrite app_nil_r. repeat split. constructor.
  - cbn [DemoGen.matching_loop]. rewrite Hr, Hw.
    destruct (uniform_real R g) as [p g1]. destruct (real_lt R p sp).
    + destruct (IH g1 (put ofs ("string" ++ newline))) as (ls & E & L & F).
      exists (StringLine :: ls). rewrite E. split; [text_eq|].
      split; [simpl; lia | constructor; [exact I | exact F]].
    + destruct (uniform_real R g1) as [c g2]. destruct (real_lt R c (r0_5 R)).
      * pose proof (discrete_range R RL n g2 Hn) as Hi.
        destruct (discrete R n g2) as [idx g3]. cbn [fst] in Hi.
        destruct (IH g3 (put (put (put ofs "read ") (show_N idx)) newline)) as (ls & E & L & F).
        exists (ReadLine idx :: ls). rewrite E. split; [text_eq|].
        split; [simpl; lia | constructor; [exact Hi | exact F]].
      * pose proof (discrete_range R RL n g2 Hn) as Hi.
        destruct (discrete R n g2) as [idx g3]. cbn [fst] in Hi.
        pose proof (uniform_int_range R RL 1 1000 g3 ltac:(lia)) as Hv.
        destruct (uniform_int R 1 1000 g3) as [v g4]. cbn [fst] in Hv.
        destruct (IH g4 (put (put (put (put (put ofs "write ") (show_N idx)) " ") (show_int v))
                           newline)) as (ls & E & L & F).
        exists (WriteLine idx v :: ls). rewrite E. split; [text_eq|].
        split; [simpl; lia | constructor; [split; assumption | exact F]].
Qed.

Lemma size_t_pred_eq (m : N) : 1 <= m <= SIZE_MAX -> DemoGen.size_t_pred m = m - 1.
Proof.
  unfold DemoGen.size_t_pred, SIZE_MAX. intros H.
  replace (m + 18446744073709551615) with (m - 1 + 1 * (18446744073709551615 + 1)) by lia.
  rewrite N.Div0.mod_add. apply N.mod_small. lia.
Qed.

Lemma demo_uniform_loop_lines (m : N) (count : nat) (g : rng R) (ofs : list ascii) :
  1 <= m <= SIZE_MAX ->
  exists ls,
    fst (DemoGen.uniform_loop R m count g ofs) = ofs ++ file_text ls /\
    List.length ls = count /\ Forall (line_within m 1 1000) ls.
Proof.
  intros Hm. revert g ofs; induction count as [|count IH]; intros g ofs.
  - exists []. simpl. rewrite app_nil_r. repeat split. constructor.
  - cbn [DemoGen.uniform_loop]. rewrite size_t_pred_eq by exact Hm.
    destruct (engine R g) as [x g1]. cbv zeta.
    destruct (x mod 3 =? 0); [|destruct (x mod 3 =? 1)].
    + pose proof (uniform_size_range R RL 0 (m - 1) g1 ltac:(lia)) as Hi.
      destruct (uniform_size R 0 (m - 1) g1) as [idx g2]. cbn [fst] in Hi.
      destruct (IH g2 (put (put (put ofs "read ") (show_N idx)) newline)) as (ls & E & L & F).
      exists (ReadLine idx :: ls). rewrite E. split; [text_eq|].
      split; [simpl; lia | constructor; [simpl; lia | exact F]].
    + pose proof (uniform_size_range R RL 0 (m - 1) g1 ltac:(lia)) as Hi.
      destruct (uniform_size R 0 (m - 1) g1) as [idx g2]. cbn [fst] in Hi.
      pose proof (uniform_int_range R RL 1 1000 g2 ltac:(lia)) as Hv.
      destruct (uniform_int R 1 1000 g2) as [v g3]. cbn [fst] in Hv.
      destruct (IH g3 (put (put (put (put (put ofs "write ") (show_N idx)) " ") (show_int v))
                         newline)) as (ls & E & L & F).
      exists (WriteLine idx v :: ls). rewrite E. split; [text_eq|].
      split; [simpl; lia | constructor; [simpl; split; lia | exact F]].
    + destruct (IH g1 (put ofs ("string" ++ newline))) as (ls & E & L & F).
      exists (StringLine :: ls). rewrite E. split; [text_eq|].
      split; [simpl; lia | constructor; [exact I | exact F]].
Qed.
Lemma demo_skewed_loop_lines (m : N) (count : nat) (g : rng R) (ofs : list ascii) :
  2 <= m <= SIZE_MAX ->
  exists ls,
    fst (DemoGen.skewed_loop R m count g ofs) = ofs ++ file_text ls /\
    (count <= List.length ls <= 2 * count)%nat /\ Forall (line_within m 1 1000) ls.
Proof.
  intros Hm. revert g ofs; induction count as [|count IH]; intros g ofs.
  - exists []. simpl. rewrite app_nil_r. repeat split; try lia. constructor.
  - cbn [DemoGen.skewed_loop].
    destruct (engine R g) as [x g1]. cbv zeta.
    match goal with
    | |- context [let (ofs1, g2) := ?first in _] =>
        assert (H1 : exists l1, fst first = ofs ++ file_text [l1] /\ line_within m 1 1000 l1);
        [|destruct first as [ofs1 g2]]
    end.
    { destruct (real_lt R (hundredth R (x mod 100)) (r0_7 R)).
      - exists (ReadLine 0). split; [cbn [fst]; text_eq | simpl; lia].
      - destruct (real_lt R (hundredth R (x mod 100)) (r0_85 R)).
        + pose proof (uniform_int_range R RL 1 1000 g1 ltac:(lia)) as Hv.
          destruct (uniform_int R 1 1000 g1) as [v ga]. cbn [fst] in *.
          exists (WriteLine 0 v). split; [text_eq | simpl; split; lia].
        + destruct (engine R g1) as [y ga]. cbv zeta.
          replace (1 <? m) with true by (symmetry; apply N.ltb_lt; lia).
          rewrite size_t_pred_eq by lia.
          assert (Hy : y mod (m - 1) < m - 1) by (apply N.mod_lt; lia).
          assert (Hidx : (1 + y mod (m - 1)) mod (SIZE_MAX + 1) < m).
          { generalize dependent (y mod (m - 1)). intros k Hk.
            rewrite N.mod_small; unfold SIZE_MAX in *; lia. }
          generalize dependent ((1 + y mod (m - 1)) mod (SIZE_MAX + 1)). intros idx Hidx.
          destruct (engine R ga) as [z gb].
          destruct (z mod 2 =? 0).
          * exists (ReadLine idx). split; [cbn [fst]; text_eq | exact Hidx].
          * pose proof (uniform_int_range R RL 1 1000 gb ltac:(lia)) as Hv.
            destruct (uniform_int R 1 1000 gb) as [v gc]. cbn [fst] in *.
            exists (WriteLine idx v). split; [text_eq | split; assumption]. }
    destruct H1 as (l1 & E1 & W1). cbn [fst] in E1. subst ofs1.
    destruct (engine R g2) as [w g3]. destruct (w mod 1000 =? 0).
    + destruct (IH g3 (put (ofs ++ file_text [l1]) ("string" ++ newline))) as (ls & E & L & F).
      exists (l1 :: StringLine :: ls). rewrite E. split.
      { unfold put. rewrite !file_text_cons. cbn [file_text flat_map line_text].
        rewrite <- !app_assoc. reflexivity. }
      split; [simpl; lia | repeat constructor; assumption].
    + destruct (IH g3 (ofs ++ file_text [l1])) as (ls & E & L & F).
      exists (l1 :: ls). rewrite E. split.
      { rewrite !file_text_cons. cbn [file_text flat_map]. rewrite <- !app_assoc. reflexivity. }
      split; [simpl; lia | constructor; assumption].
Qed.

(** The files of a generator: one per thread, named after the thread, each
    loading back what its lines are. *)
Lemma generated_files_load_back (ui : N) (uv : Z)
    (loop : rng R -> list ascii -> list ascii * rng R)
    (m : N) (lo hi : Z) (Q : nat -> Prop) (prefix : string) (threads : N) (g : rng R) :
  m <= SIZE_MAX + 1 -> (INT_MIN <= lo)%Z -> (hi <= INT_MAX)%Z ->
  (forall g, exists ls, fst (loop g []) = file_text ls /\
                        (Q (List.length ls) /\ Forall (line_within m lo hi) ls)) ->
  map fst (fst (DemoGen.files R loop prefix (N.to_nat threads) 0 g)) =
    map (DemoGen.file_name prefix) (indices threads) /\
  Forall (fun nt =>
            Q (List.length (Demo.load_ops_from_file ui uv (Some (string_of_list_ascii (snd nt))))) /\
            Forall (call_within m lo hi)
              (map demo_call
                 (Demo.load_ops_from_file ui uv (Some (string_of_list_ascii (snd nt))))))
    (fst (DemoGen.files R loop prefix (N.to_nat threads) 0 g)).
Proof.
  intros Hm Hlo Hhi HL.
  destruct (files_spec loop _ prefix HL (N.to_nat threads) 0 g) as [IN IF]. split.
  - rewrite IN. unfold indices. rewrite map_map. reflexivity.
  - eapply Forall_impl; [|exact IF]. intros [name text] (ls & E & HQ & HW). cbn [snd] in *.
    subst text. destruct (demo_loads_generated ui uv m lo hi ls Hm Hlo Hhi HW) as [Len C].
    rewrite Len. split; assumption.
Qed.

(** X14. With at least one thread and [n] read weights and [n] write
    weights, [generate_files_matching_distribution] writes one file per
    thread, named prefix_thread0.txt, prefix_thread1.txt, ..., and
    [load_ops_from_file] loads from each exactly [total_ops / threads]
    operations, each a snapshot or a read or write of a field below [n] (the
    number of weights, not the parameter [m], which the function ignores),
    with written values from 1 to 1000. *)
Theorem demo_matching_files_load_back (ui : N) (uv : Z) (m : N)
    (read_weights write_weights : list (real R)) (string_prob : real R)
    (total_ops threads : N) (prefix : string) (g : rng R) (n : nat) :
  0 < threads ->
  List.length read_weights = n -> List.length write_weights = n ->
  (0 < n)%nat -> N.of_nat n <= SIZE_MAX + 1 ->
  exists fs g',
    DemoGen.generate_files_matching_distribution R m read_weights write_weights string_prob
      total_ops threads prefix g = Some (fs, g') /\
    map fst fs = map (DemoGen.file_name prefix) (indices threads) /\
    Forall (fun nt =>
              List.length (Demo.load_ops_from_file ui uv (Some (string_of_list_ascii (snd nt)))) =
                N.to_nat (total_ops / threads) /\
              Forall (call_within (N.of_nat n) 1 1000)
                (map demo_call
                   (Demo.load_ops_from_file ui uv (Some (string_of_list_ascii (snd nt))))))
      fs.
Proof.
  intros Ht Hr Hw Hn Hs. unfold DemoGen.generate_files_matching_distribution.
  replace (threads =? 0) with false by (symmetry; apply N.eqb_neq; lia).
  set (loop := DemoGen.matching_loop R read_weights write_weights string_prob
                 (N.to_nat (total_ops / threads))).
  destruct (generated_files_load_back ui uv loop (N.of_nat n) 1 1000
              (fun k => k = N.to_nat (total_ops / threads)) prefix threads g) as [IN IF];
    unfold INT_MIN, INT_MAX; try lia.
  { intros g0. unfold loop.
    destruct (demo_matching_loop_lines read_weights write_weights string_prob n
                (N.to_nat (total_ops / threads)) g0 [] Hr Hw Hn) as (ls & E & L & F).
    exists ls. auto. }
  destruct (DemoGen.files R loop prefix (N.to_nat threads) 0 g) as [fs g'].
  exists fs, g'. auto.
Qed.

(** X15. With at least one thread and a field count [m] from 1 to the
    largest [size_t], [generate_uniform_files] of demo_lab4.cpp writes one
    file per thread, named prefix_thread0.txt, prefix_thread1.txt, ..., and
    [load_ops_from_file] loads from each exactly [total_ops / threads]
    operations, each a snapshot or a read or write of a field below [m],
    with written values from 1 to 1000. *)
Theorem demo_uniform_files_load_back (ui : N) (uv : Z)
    (m total_ops threads : N) (prefix : string) (g : rng R) :
  0 < threads -> 1 <= m <= SIZE_MAX ->
  exists fs g',
    DemoGen.generate_uniform_files R m total_ops threads prefix g = Some (fs, g') /\
    map fst fs = map (DemoGen.file_name prefix) (indices threads) /\
    Forall (fun nt =>
              List.length (Demo.load_ops_from_file ui uv (Some (string_of_list_ascii (snd nt)))) =
                N.to_nat (total_ops / threads) /\
              Forall (call_within m 1 1000)
                (map demo_call
                   (Demo.load_ops_from_file ui uv (Some (string_of_list_ascii (snd nt))))))
      fs.
Proof.
  intros Ht Hm. unfold DemoGen.generate_uniform_files.
  replace (threads =? 0) with false by (symmetry; apply N.eqb_neq; lia).
  set (loop := DemoGen.uniform_loop R m (N.to_nat (total_ops / threads))).
  destruct (generated_files_load_back ui uv loop m 1 1000
              (fun k => k = N.to_nat (total_ops / threads)) prefix threads g) as [IN IF];
    unfold INT_MIN, INT_MAX; try lia.
  { intros g0. unfold loop.
    destruct (demo_uniform_loop_lines m (N.to_nat (total_ops / threads)) g0 [] Hm)
      as (ls & E & L & F).
    exists ls. auto. }
  destruct (DemoGen.files R loop prefix (N.to_nat threads) 0 g) as [fs g'].
  exists fs, g'. auto.
Qed.

(** X16. With at least one thread and a field count [m] of at least 2,
    [generate_skewed_files] of demo_lab4.cpp writes one file per thread,
    named prefix_thread0.txt, prefix_thread1.txt, ..., and
    [load_ops_from_file] loads from each at least [total_ops / threads] and
    at most twice as many operations (a turn of the loop may add a snapshot),
    each a snapshot or a read or write of a field below [m], with written
    values from 1 to 1000. *)
Theorem demo_skewed_files_load_back (ui : N) (uv : Z)
    (m total_ops threads : N) (prefix : string) (g : rng R) :
  0 < threads -> 2 <= m <= SIZE_MAX ->
  exists fs g',
    DemoGen.generate_skewed_files R m total_ops threads prefix g = Some (fs, g') /\
    map fst fs = map (DemoGen.file_name prefix) (indices threads) /\
    Forall (fun nt =>
              (N.to_nat (total_ops / threads) <=
               List.length (Demo.load_ops_from_file ui uv (Some (string_of_list_ascii (snd nt)))) <=
               2 * N.to_nat (total_ops / threads))%nat /\
              Forall (call_within m 1 1000)
                (map demo_call
                   (Demo.load_ops_from_file ui uv (Some (string_of_list_ascii (snd nt))))))
      fs.
Proof.
  intros Ht Hm. unfold DemoGen.generate_skewed_files.
  replace (threads =? 0) with false by (symmetry; apply N.eqb_neq; lia).
  set (loop := DemoGen.skewed_loop R m (N.to_nat (total_ops / threads))).
  destruct (generated_files_load_back ui uv loop m 1 1000
              (fun k => (N.to_nat (total_ops / threads) <= k <=
                         2 * N.to_nat (total_ops / threads))%nat) prefix threads g) as [IN IF];
    unfold INT_MIN, INT_MAX; try lia.
  { intros g0. unfold loop.
    destruct (demo_skewed_loop_lines m (N.to_nat (total_ops / threads)) g0 [] Hm)
      as (ls & E & L & F).
    exists ls. auto. }
  destruct (DemoGen.files R loop prefix (N.to_nat threads) 0 g) as [fs g'].
  exists fs, g'. auto.
Qed.

End DemoGenerators.

Lemma demo_matching_files_load_back_witness :
  exists fs g',
    DemoGen.generate_files_matching_distribution counting_source 16 [1; 1; 8] [2; 6; 1] 5
      20 3 "case_a" 0 = Some (fs, g') /\
    map fst fs = map (DemoGen.file_name "case_a") (indices 3) /\
    Forall (fun nt =>
              List.length (Demo.load_ops_from_file 7 8 (Some (string_of_list_ascii (snd nt)))) =
                N.to_nat (20 / 3) /\
              Forall (call_within (N.of_nat 3) 1 1000)
                (map demo_call
                   (Demo.load_ops_from_file 7 8 (Some (string_of_list_ascii (snd nt))))))
      fs.
Proof.
  apply (demo_matching_files_load_back counting_source counting_source_lawful 7 8 16
           [1; 1; 8] [2; 6; 1] 5 20 3 "case_a" 0 3); try reflexivity; try lia.
  vm_compute; discriminate.
Defined.

Lemma demo_uniform_files_load_back_witness :
  exists fs g',
    DemoGen.generate_uniform_files counting_source 16 20 3 "case_b" 0 = Some (fs, g') /\
    map fst fs = map (DemoGen.file_name "case_b") (indices 3) /\
    Forall (fun nt =>
              List.length (Demo.load_ops_from_file 7 8 (Some (string_of_list_ascii (snd nt)))) =
                N.to_nat (20 / 3) /\
              Forall (call_within 16 1 1000)
                (map demo_call
                   (Demo.load_ops_from_file 7 8 (Some (string_of_list_ascii (snd nt))))))
      fs.
Proof.
  apply (demo_uniform_files_load_back counting_source counting_source_lawful 7 8 16 20 3
           "case_b" 0); [reflexivity | split; vm_compute; discriminate].
Defined.

Lemma demo_skewed_files_load_back_witness :
  exists fs g',
    DemoGen.generate_skewed_files counting_source 16 20 3 "case_c" 0 = Some (fs, g') /\
    map fst fs = map (DemoGen.file_name "case_c") (indices 3) /\
    Forall (fun nt =>
              (N.to_nat (20 / 3) <=
               List.length (Demo.load_ops_from_file 7 8 (Some (string_of_list_ascii (snd nt)))) <=
               2 * N.to_nat (20 / 3))%nat /\
              Forall (call_within 16 1 1000)
                (map demo_call
                   (Demo.load_ops_from_file 7 8 (Some (string_of_list_ascii (snd nt))))))
      fs.
Proof.
  apply (demo_skewed_files_load_back counting_source counting_source_lawful 7 8 16 20 3
           "case_c" 0); [reflexivity | split; vm_compute; discriminate].
Defined.

(** * Workers in parallel on a shared store *)

(** ** The system without its values is the system of the guards *)

Lemma action_of_instr (e : event) : instr_action (instr_of e) = action_of e.
Proof. destruct e; reflexivity. Qed.

Lemma call_instrs_actions (m : N) (c : call) :
  map instr_action (call_instrs m c) = call_actions m c.
Proof.
  unfold call_instrs, call_actions. rewrite map_map. apply map_ext. apply action_of_instr.
Qed.

Lemma erase_launch (mf : MultiField) (streams : list (list call)) :
  erase (launch mf streams) = start (size mf) streams.
Proof.
  unfold erase, launch, start. cbn [workers]. rewrite map_map. apply map_ext. intros cs.
  unfold erase_worker. cbn [w_holds w_todo]. f_equal.
  induction cs as [|c cs IH]; [reflexivity|].
  cbn [flat_map]. rewrite map_app, IH, call_instrs_actions. reflexivity.
Qed.

Lemma others_map {A B : Type} (f : A -> B) (k : nat) (l : list A) :
  others k (map f l) = map f (others k l).
Proof. unfold others. rewrite firstn_map, skipn_map, map_app. reflexivity. Qed.

Lemma replace_map {A B : Type} (f : A -> B) (k : nat) (a : A) (l : list A) :
  replace k (f a) (map f l) = map f (replace k a l).
Proof.
  revert k; induction l as [|x l IH]; intros [|k]; simpl; try reflexivity.
  rewrite IH. reflexivity.
Qed.

Lemma erased_holds (k : nat) (ws : list worker_state) :
  map holds (others k (map erase_worker ws)) = map w_holds (others k ws).
Proof. rewrite others_map, map_map. reflexivity. Qed.

Lemma step_worker_erase (k : nat) (s s' : system) :
  step_worker k s = Some s' -> step_thread k (erase s) = Some (erase s').
Proof.
  unfold step_worker, step_thread, erase. rewrite nth_error_map.
  destruct (nth_error (workers s) k) as [w|]; [|discriminate]. cbn [option_map erase_worker todo holds].
  destruct (w_todo w) as [|x rest]; [discriminate|]. cbn [map].
  rewrite erased_holds. destruct (enabled _ _); [|discriminate].
  intros H. injection H as <-. cbn [workers]. rewrite <- replace_map. reflexivity.
Qed.

Lemma step_thread_erase (k : nat) (s : system) (st' : list thread) :
  step_thread k (erase s) = Some st' ->
  exists s', step_worker k s = Some s' /\ erase s' = st'.
Proof.
  unfold step_worker, step_thread, erase. rewrite nth_error_map.
  destruct (nth_error (workers s) k) as [w|]; [|discriminate]. cbn [option_map erase_worker todo holds].
  destruct (w_todo w) as [|x rest]; [discriminate|]. cbn [map].
  rewrite erased_holds. destruct (enabled _ _); [|discriminate].
  intros H. injection H as <-. eexists. split; [reflexivity|].
  cbn [workers]. rewrite <- replace_map. reflexivity.
Qed.

Lemma run_system_erase (schedule : list nat) (s s' : system) :
  run_system schedule s = Some s' -> run schedule (erase s) = Some (erase s').
Proof.
  revert s; induction schedule as [|k schedule IH]; intros s H; simpl in *.
  - injection H as <-. reflexivity.
  - destruct (step_worker k s) as [s1|] eqn:E; [|discriminate].
    rewrite (step_worker_erase k s s1 E). apply IH; exact H.
Qed.

Lemma all_joined_erase (s : system) : all_joined s = all_returned (erase s).
Proof.
  unfold all_joined, all_returned, erase.
  induction (workers s) as [|w ws IH]; [reflexivity|].
  cbn [map forallb]. rewrite IH. unfold erase_worker at 1 2. cbn [todo holds].
  destruct (w_todo w); reflexivity.
Qed.

(** ** What every reachable state keeps *)

Lemma covered_of_guarded (t : list event) (h : holding) :
  guarded h t -> covered h (map instr_of t).
Proof.
  revert h; induction t as [|e t IH]; intros h H; simpl in *; [exact I|].
  destruct H as [He H]. rewrite action_of_instr. split; [|apply IH; exact H].
  destruct e; exact He.
Qed.

Lemma covered_app (p1 p2 : list instr) (h : holding) :
  covered h p1 -> covered (fold_left after_action (map instr_action p1) h) p2 ->
  covered h (p1 ++ p2).
Proof.
  revert h; induction p1 as [|x p1 IH]; intros h H1 H2; simpl in *; [exact H2|].
  destruct H1 as [Hx H1]. split; [exact Hx | apply IH; assumption].
Qed.

Lemma call_instrs_covered (m : N) (c : call) :
  covered [] (call_instrs m c) /\
  fold_left after_action (map instr_action (call_instrs m c)) [] = [].
Proof.
  destruct (MultiField_new_well_formed m 0) as [W _].
  destruct (call_trace_guarded "[" "]" c (MultiField_new m 0) W) as [G B].
  unfold call_instrs, Demo.to_string. split; [apply covered_of_guarded; exact G|].
  unfold held_after in B. rewrite map_map.
  rewrite (map_ext _ action_of action_of_instr). exact B.
Qed.

Lemma stream_instrs_covered (m : N) (cs : list call) :
  covered [] (flat_map (call_instrs m) cs).
Proof.
  induction cs as [|c cs IH]; [exact I|].
  cbn [flat_map]. destruct (call_instrs_covered m c) as [C B].
  apply covered_app; [exact C | rewrite B; exact IH].
Qed.

Lemma launch_sound (mf : MultiField) (streams : list (list call)) :
  sound (List.length (vals mf)) (launch mf streams).
Proof.
  split; [reflexivity|]. rewrite erase_launch.
  split; [apply start_ok|].
  split; [apply (guards_exclude (size mf) streams []); reflexivity|].
  unfold launch. cbn [workers]. apply Forall_forall. intros w Hw.
  apply in_map_iff in Hw. destruct Hw as (cs & <- & _). cbn [w_holds w_todo].
  apply stream_instrs_covered.
Qed.

Lemma step_worker_inv (k : nat) (s s' : system) :
  step_worker k s = Some s' ->
  exists w x rest,
    nth_error (workers s) k = Some w /\ w_todo w = x :: rest /\
    fields s' = match x with
                | IStore i v => set_nth (N.to_nat i) v (fields s)
                | _ => fields s
                end /\
    workers s' =
      replace k (mkWorker (after_action (w_holds w) (instr_action x)) rest
                   match x with
                   | ILoad i => w_seen w ++ [(i, nth (N.to_nat i) (fields s) 0%Z)]
                   | _ => w_seen w
                   end) (workers s).
Proof.
  unfold step_worker. destruct (nth_error (workers s) k) as [w|] eqn:Ek; [|discriminate].
  destruct (w_todo w) as [|x rest] eqn:Et; [discriminate|].
  destruct (enabled _ _); [|discriminate].
  intros H. injection H as <-. exists w, x, rest. auto.
Qed.

Lemma step_sound (n k : nat) (s s' : system) :
  sound n s -> step_worker k s = Some s' -> sound n s'.
Proof.
  intros (HL & HD & HE & HC) H.
  pose proof (step_worker_erase k s s' H) as HS.
  destruct (step_keeps_discipline k _ _ HD HS) as [HD' _].
  pose proof (step_keeps_exclusion k _ _ HE HS) as HE'.
  destruct (step_worker_inv k s s' H) as (w & x & rest & Hk & Ht & Hf & Hw).
  split; [|split; [exact HD' | split; [exact HE'|]]].
  - rewrite Hf. destruct x; try exact HL. rewrite set_nth_length. exact HL.
  - rewrite Hw. apply replace_Forall; [exact HC|]. cbn [w_holds w_todo].
    rewrite Forall_forall in HC. specialize (HC w (nth_error_In _ _ Hk)).
    rewrite Ht in HC. apply HC.
Qed.

Lemma run_sound (n : nat) (schedule : list nat) (s s' : system) :
  sound n s -> run_system schedule s = Some s' -> sound n s'.
Proof.
  revert s; induction schedule as [|k schedule IH]; intros s HS H; simpl in H.
  - injection H as <-. exact HS.
  - destruct (step_worker k s) as [s1|] eqn:E; [|discriminate].
    apply (IH s1); [eapply step_sound; eassumption | exact H].
Qed.

(** A step changes a field only if the thread that moves holds the guard of
    that field exclusively. *)
Lemma step_changes_under_exclusive (n k : nat) (s s' : system) (w : worker_state) (i : nat) :
  sound n s -> step_worker k s = Some s' -> nth_error (workers s) k = Some w ->
  nth i (fields s') 0%Z <> nth i (fields s) 0%Z ->
  exists idx, N.to_nat idx = i /\ In (idx, Exclusive) (w_holds w).
Proof.
  intros (_ & _ & _ & HC) H Hk Hne.
  destruct (step_worker_inv k s s' H) as (w0 & x & rest & Hk0 & Ht & Hf & _).
  rewrite Hk in Hk0. injection Hk0 as <-.
  rewrite Forall_forall in HC. specialize (HC w (nth_error_In _ _ Hk)). rewrite Ht in HC.
  destruct x as [m j | j | j | j v]; try (rewrite Hf in Hne; congruence).
  destruct HC as [Hin _]. exists j. split; [|exact Hin].
  destruct (Nat.eq_dec (N.to_nat j) i) as [E|E]; [exact E|].
  exfalso. apply Hne. rewrite Hf. apply nth_set_nth_other. congruence.
Qed.

(** X17. While a thread holds the guard of a field, in shared or in
    exclusive mode, no step of another thread changes that field: in every
    state the threads of [run_test] can reach, a step of thread [k] leaves
    field [i] as it is when another thread [j] holds guard [i]. *)
Theorem held_guard_freezes_field
    (mf : MultiField) (streams : list (list call)) (schedule : list nat)
    (s s' : system) (k j : nat) (wj : worker_state) (i : N) (m : mode) :
  run_system schedule (launch mf streams) = Some s ->
  step_worker k s = Some s' ->
  j <> k -> nth_error (workers s) j = Some wj -> In (i, m) (w_holds wj) ->
  nth (N.to_nat i) (fields s') 0%Z = nth (N.to_nat i) (fields s) 0%Z.
Proof.
  intros Hrun Hstep Hjk Hj Hin.
  pose proof (run_sound _ _ _ _ (launch_sound mf streams) Hrun) as HS.
  destruct (Z.eq_dec (nth (N.to_nat i) (fields s') 0%Z) (nth (N.to_nat i) (fields s) 0%Z))
    as [E|E]; [exact E|exfalso].
  destruct (step_worker_inv k s s' Hstep) as (wk & x & rest & Hk & _).
  destruct (step_changes_under_exclusive _ k s s' wk _ HS Hstep Hk E) as (idx & Ei & Hx).
  apply N2Nat.inj in Ei. subst idx.
  destruct HS as (_ & _ & HE & _).
  apply (HE k j (erase_worker wk) (erase_worker wj) i m); auto.
  - unfold erase. rewrite nth_error_map, Hk. reflexivity.
  - unfold erase. rewrite nth_error_map, Hj. reflexivity.
Qed.

Lemma held_guard_freezes_field_witness :
  let s := mkSystem [0; 0]%Z
             [mkWorker [(0, Shared)] [ILock Shared 1; ILoad 0; ILoad 1; IUnlock 0; IUnlock 1] [];
              mkWorker [(1, Exclusive)]
                [IStore 1 7; IUnlock 1; ILock Exclusive 0; IStore 0 3; IUnlock 0] []] in
  let s' := mkSystem [0; 7]%Z
              [mkWorker [(0, Shared)] [ILock Shared 1; ILoad 0; ILoad 1; IUnlock 0; IUnlock 1] [];
               mkWorker [(1, Exclusive)]
                 [IUnlock 1; ILock Exclusive 0; IStore 0 3; IUnlock 0] []] in
  nth (N.to_nat 0) (fields s') 0%Z = nth (N.to_nat 0) (fields s) 0%Z.
Proof.
  apply (held_guard_freezes_field (Demo.MultiField 2 0)
           [[CallSnapshot]; [CallWrite 1 7; CallWrite 0 3]] [0; 1]%nat
           (mkSystem [0; 0]%Z
             [mkWorker [(0, Shared)] [ILock Shared 1; ILoad 0; ILoad 1; IUnlock 0; IUnlock 1] [];
              mkWorker [(1, Exclusive)]
                [IStore 1 7; IUnlock 1; ILock Exclusive 0; IStore 0 3; IUnlock 0] []])
           (mkSystem [0; 7]%Z
              [mkWorker [(0, Shared)] [ILock Shared 1; ILoad 0; ILoad 1; IUnlock 0; IUnlock 1] [];
               mkWorker [(1, Exclusive)]
                 [IUnlock 1; ILock Exclusive 0; IStore 0 3; IUnlock 0] []])
           1%nat 0%nat
           (mkWorker [(0, Shared)] [ILock Shared 1; ILoad 0; ILoad 1; IUnlock 0; IUnlock 1] [])
           0 Shared).
  - reflexivity.
  - reflexivity.
  - discriminate.
  - reflexivity.
  - left; reflexivity.
Defined.

(** ** A snapshot sees the store of one instant *)

Lemma set_nth_out_of_range (k : nat) (v : Z) (l : list Z) :
  (List.length l <= k)%nat -> set_nth k v l = l.
Proof.
  revert k; induction l as [|x l IH]; intros [|k] H; simpl in *; try reflexivity; try lia.
  rewrite IH by lia. reflexivity.
Qed.

Lemma step_other_worker (k' k : nat) (s s' : system) (w : worker_state) :
  step_worker k' s = Some s' -> k <> k' -> nth_error (workers s) k = Some w ->
  nth_error (workers s') k = Some w.
Proof.
  intros H Hk Hw. destruct (step_worker_inv k' s s' H) as (w0 & x & rest & _ & _ & _ & E).
  rewrite E, nth_error_replace_other by exact Hk. exact Hw.
Qed.

Lemma step_same_worker (k : nat) (s s' : system) (w : worker_state) :
  step_worker k s = Some s' -> nth_error (workers s) k = Some w ->
  exists x rest,
    w_todo w = x :: rest /\
    fields s' = match x with
                | IStore i v => set_nth (N.to_nat i) v (fields s)
                | _ => fields s
                end /\
    nth_error (workers s') k =
      Some (mkWorker (after_action (w_holds w) (instr_action x)) rest
              match x with
              | ILoad i => w_seen w ++ [(i, nth (N.to_nat i) (fields s) 0%Z)]
              | _ => w_seen w
              end).
Proof.
  intros H Hw. destruct (step_worker_inv k s s' H) as (w0 & x & rest & Hk & Ht & Hf & E).
  rewrite Hw in Hk. injection Hk as <-. exists x, rest. split; [exact Ht|]. split; [exact Hf|].
  rewrite E. clear -Hw. revert k Hw. induction (workers s) as [|a l IH]; intros [|k] Hw;
    simpl in *; try discriminate; [reflexivity | apply IH; exact Hw].
Qed.

Lemma todo_never_grows (schedule : list nat) (s s2 : system) (k : nat) (w : worker_state) :
  run_system schedule s = Some s2 -> nth_error (workers s) k = Some w ->
  exists w2, nth_error (workers s2) k = Some w2 /\
             (List.length (w_todo w2) <= List.length (w_todo w))%nat.
Proof.
  revert s w; induction schedule as [|k' schedule IH]; intros s w H Hw; simpl in H.
  - injection H as <-. exists w. split; [exact Hw | lia].
  - destruct (step_worker k' s) as [s1|] eqn:E; [|discriminate].
    destruct (Nat.eq_dec k k') as [->|Hk].
    + destruct (step_same_worker k' s s1 w E Hw) as (x & rest & Ht & _ & Hw1).
      destruct (IH s1 _ H Hw1) as (w2 & Hw2 & L). exists w2. split; [exact Hw2|].
      cbn [w_todo] in L. rewrite Ht. simpl. lia.
    + pose proof (step_other_worker k' k s s1 w E Hk Hw) as Hw1.
      destruct (IH s1 _ H Hw1) as (w2 & Hw2 & L). exists w2. split; assumption.
Qed.

(** A thread that holds every guard of the store keeps every other thread
    from changing the store. *)
Lemma step_under_all_guards (n k' k : nat) (s s' : system) (w : worker_state) :
  sound n s -> step_worker k' s = Some s' -> k <> k' ->
  nth_error (workers s) k = Some w ->
  (forall i, (i < n)%nat -> exists md, In (N.of_nat i, md) (w_holds w)) ->
  fields s' = fields s.
Proof.
  intros HS H Hk Hw Hall.
  destruct (step_worker_inv k' s s' H) as (w' & x & rest & Hk' & Ht & Hf & _).
  rewrite Hf. destruct x as [m j | j | j | j v]; try reflexivity.
  destruct HS as (HL & _ & HE & HC).
  destruct (Nat.lt_ge_cases (N.to_nat j) n) as [Hj|Hj];
    [|apply set_nth_out_of_range; lia].
  exfalso. destruct (Hall _ Hj) as [md Hin]. rewrite N2Nat.id in Hin.
  rewrite Forall_forall in HC. specialize (HC w' (nth_error_In _ _ Hk')). rewrite Ht in HC.
  destruct HC as [Hx _].
  apply (HE k' k (erase_worker w') (erase_worker w) j md); auto.
  - unfold erase. rewrite nth_error_map, Hk'. reflexivity.
  - unfold erase. rewrite nth_error_map, Hw. reflexivity.
Qed.

Lemma loads_under_all_guards (n : nat) (schedule : list nat) :
  forall (s s2 : system) (k : nat) (w w2 : worker_state) (L : list N) (rest : list instr),
    sound n s -> nth_error (workers s) k = Some w ->
    (forall i, (i < n)%nat -> exists md, In (N.of_nat i, md) (w_holds w)) ->
    w_todo w = map ILoad L ++ rest ->
    run_system schedule s = Some s2 ->
    nth_error (workers s2) k = Some w2 -> w_todo w2 = rest ->
    fields s2 = fields s /\
    w_seen w2 = w_seen w ++ map (fun i => (i, nth (N.to_nat i) (fields s) 0%Z)) L.
Proof.
  induction schedule as [|k' schedule IH]; intros s s2 k w w2 L rest HS Hw Hall Ht Hrun Hw2 Ht2.
  - simpl in Hrun. injection Hrun as <-. rewrite Hw in Hw2. injection Hw2 as <-.
    assert (L = []) as ->.
    { destruct L as [|i L]; [reflexivity|]. exfalso.
      apply (f_equal (@List.length instr)) in Ht. rewrite Ht2 in Ht at 1.
      rewrite length_app in Ht. simpl in Ht. lia. }
    rewrite app_nil_r. split; reflexivity.
  - simpl in Hrun. destruct (step_worker k' s) as [s1|] eqn:E; [|discriminate].
    pose proof (step_sound n k' s s1 HS E) as HS1.
    destruct (Nat.eq_dec k k') as [->|Hk].
    + destruct (step_same_worker k' s s1 w E Hw) as (x & rest' & Hx & Hf & Hw1).
      destruct L as [|i L].
      * exfalso. simpl in Ht.
        destruct (todo_never_grows schedule s1 s2 k' _ Hrun Hw1) as (w2' & Hw2' & Len).
        rewrite Hw2 in Hw2'. injection Hw2' as <-. cbn [w_todo] in Len.
        rewrite Ht2, <- Ht, Hx in Len. simpl in Len. lia.
      * simpl in Ht. rewrite Hx in Ht. injection Ht as -> ->.
        cbn [instr_action after_action] in Hw1.
        destruct (IH s1 s2 k' _ w2 L rest HS1 Hw1 Hall eq_refl Hrun Hw2 Ht2) as [F S].
        cbn [w_seen] in S. rewrite Hf in *. split; [exact F|].
        rewrite S, <- app_assoc. reflexivity.
    + pose proof (step_other_worker k' k s s1 w E Hk Hw) as Hw1.
      pose proof (step_under_all_guards n k' k s s1 w HS E Hk Hw Hall) as Hf.
      destruct (IH s1 s2 k w w2 L rest HS1 Hw1 Hall Ht Hrun Hw2 Ht2) as [F S].
      rewrite Hf in *. split; assumption.
Qed.

(** X18. A snapshot sees the store of one instant.  Take a thread that has
    acquired the shared lock of all guards and is about to do the loads of
    [to_string]: whatever the other threads do in between, when it has done
    those loads the store is still the one it started the loads on, and the
    values it has seen are the fields of that store, in index order. *)
Theorem snapshot_sees_one_instant
    (mf : MultiField) (streams : list (list call)) (before during : list nat)
    (s1 s2 : system) (k : nat) (w1 w2 : worker_state) (rest : list instr) :
  run_system before (launch mf streams) = Some s1 ->
  nth_error (workers s1) k = Some w1 ->
  w_holds w1 = map (fun i => (i, Shared)) (indices (size mf)) ->
  w_todo w1 = map ILoad (indices (size mf)) ++ rest ->
  run_system during s1 = Some s2 ->
  nth_error (workers s2) k = Some w2 -> w_todo w2 = rest ->
  fields s2 = fields s1 /\
  w_seen w2 =
    w_seen w1 ++ map (fun i => (i, nth (N.to_nat i) (fields s1) 0%Z)) (indices (size mf)).
Proof.
  intros Hb Hw1 Hh Ht Hd Hw2 Ht2.
  pose proof (run_sound _ _ _ _ (launch_sound mf streams) Hb) as HS.
  apply (loads_under_all_guards _ during s1 s2 k w1 w2 _ rest HS Hw1); try assumption.
  intros i Hi. exists Shared. rewrite Hh. apply in_map_iff. exists (N.of_nat i).
  split; [reflexivity|]. unfold indices, size. rewrite Nat2N.id.
  apply in_map. apply in_seq. lia.
Qed.

Lemma snapshot_sees_one_instant_witness :
  let s1 := mkSystem [0; 7]%Z
              [mkWorker [(0, Shared); (1, Shared)] [ILoad 0; ILoad 1; IUnlock 0; IUnlock 1] [];
               mkWorker [] [ILock Exclusive 0; IStore 0 3; IUnlock 0] []] in
  let s2 := mkSystem [0; 7]%Z
              [mkWorker [(0, Shared); (1, Shared)] [IUnlock 0; IUnlock 1] [(0, 0%Z); (1, 7%Z)];
               mkWorker [] [ILock Exclusive 0; IStore 0 3; IUnlock 0] []] in
  fields s2 = fields s1 /\
  [(0, 0%Z); (1, 7%Z)] =
    [] ++ map (fun i => (i, nth (N.to_nat i) (fields s1) 0%Z)) (indices (size (Demo.MultiField 2 0))).
Proof.
  apply (snapshot_sees_one_instant (Demo.MultiField 2 0)
           [[CallSnapshot]; [CallWrite 1 7; CallWrite 0 3]] [1; 1; 1; 0; 0]%nat [0; 0]%nat
           (mkSystem [0; 7]%Z
              [mkWorker [(0, Shared); (1, Shared)] [ILoad 0; ILoad 1; IUnlock 0; IUnlock 1] [];
               mkWorker [] [ILock Exclusive 0; IStore 0 3; IUnlock 0] []])
           (mkSystem [0; 7]%Z
              [mkWorker [(0, Shared); (1, Shared)] [IUnlock 0; IUnlock 1] [(0, 0%Z); (1, 7%Z)];
               mkWorker [] [ILock Exclusive 0; IStore 0 3; IUnlock 0] []])
           0%nat
           (mkWorker [(0, Shared); (1, Shared)] [ILoad 0; ILoad 1; IUnlock 0; IUnlock 1] [])
           (mkWorker [(0, Shared); (1, Shared)] [IUnlock 0; IUnlock 1] [(0, 0%Z); (1, 7%Z)])
           [IUnlock 0; IUnlock 1]); reflexivity.
Defined.

(** ** What the fields can hold *)

Lemma call_instrs_eq (m : N) (c : call) :
  call_instrs m c =
  match c with
  | CallRead i => if m <=? i then [] else [ILock Shared i; ILoad i; IUnlock i]
  | CallWrite i v => if m <=? i then [] else [ILock Exclusive i; IStore i v; IUnlock i]
  | CallSnapshot =>
      map (ILock Shared) (indices m) ++ map ILoad (indices m) ++ map IUnlock (indices m)
  end.
Proof.
  unfold call_instrs, Demo.to_string.
  destruct (MultiField_new_well_formed m 0) as [W S].
  destruct c as [i | i v |]; unfold spec_dispatch, bind.
  - destruct (N.leb_spec m i) as [H|H]; rewrite <- S in H;
      [rewrite read_out_of_range by exact H | rewrite read_in_range by exact H]; reflexivity.
  - destruct (N.leb_spec m i) as [H|H]; rewrite <- S in H;
      [rewrite write_out_of_range by exact H | rewrite write_in_range by exact H]; reflexivity.
  - rewrite to_string_with_eq. unfold well_formed in W. rewrite W. fold (size (MultiField_new m 0)).
    rewrite S. unfold trace, ret; cbn [snd]. rewrite app_nil_r, !map_app, !map_map. reflexivity.
Qed.

Lemma store_of_call (m : N) (c : call) (i : N) (v : Z) :
  In (IStore i v) (call_instrs m c) -> c = CallWrite i v /\ i < m.
Proof.
  rewrite call_instrs_eq. destruct c as [j | j w |].
  - destruct (m <=? j); simpl; intros H; repeat (destruct H as [H | H]; try discriminate H);
      contradiction.
  - destruct (N.leb_spec m j) as [L|L]; simpl; intros H; [contradiction|].
    destruct H as [H | [H | [H | []]]]; try discriminate H.
    injection H as -> ->. split; [reflexivity | exact L].
  - rewrite !in_app_iff, !in_map_iff.
    intros [(x & H & _) | [(x & H & _) | (x & H & _)]]; discriminate H.
Qed.

Lemma store_of_stream (m : N) (cs : list call) (i : N) (v : Z) :
  In (IStore i v) (flat_map (call_instrs m) cs) -> In (CallWrite i v) cs /\ i < m.
Proof.
  intros H. apply in_flat_map in H. destruct H as (c & Hc & Hi).
  destruct (store_of_call m c i v Hi) as [-> L]. split; assumption.
Qed.

Lemma In_replace {A : Type} (k : nat) (a x : A) (l : list A) :
  In x (replace k a l) -> x = a \/ In x l.
Proof.
  revert k; induction l as [|y l IH]; intros [|k]; simpl; try tauto.
  - intros [H | H]; auto.
  - intros [H | H]; auto. destruct (IH k H); auto.
Qed.

Lemma nth_set_nth_cases (k i : nat) (v d : Z) (l : list Z) :
  nth i (set_nth k v l) d = nth i l d \/ (i = k /\ nth i (set_nth k v l) d = v).
Proof.
  destruct (Nat.eq_dec i k) as [->|H]; [|left; apply nth_set_nth_other; exact H].
  destruct (Nat.lt_ge_cases k (List.length l)) as [L|L].
  - right. split; [reflexivity | apply nth_set_nth_same; exact L].
  - left. rewrite set_nth_out_of_range by exact L. reflexivity.
Qed.

Lemma provenance_run (W : N -> Z -> Prop) (init : list Z) (schedule : list nat) :
  forall s s',
    (forall w, In w (workers s) -> forall i v, In (IStore i v) (w_todo w) -> W i v) ->
    (forall i, nth (N.to_nat i) (fields s) 0%Z = nth (N.to_nat i) init 0%Z \/
               W i (nth (N.to_nat i) (fields s) 0%Z)) ->
    run_system schedule s = Some s' ->
    forall i, nth (N.to_nat i) (fields s') 0%Z = nth (N.to_nat i) init 0%Z \/
              W i (nth (N.to_nat i) (fields s') 0%Z).
Proof.
  induction schedule as [|k schedule IH]; intros s s' HQ HP H; simpl in H.
  - injection H as <-. exact HP.
  - destruct (step_worker k s) as [s1|] eqn:E; [|discriminate].
    destruct (step_worker_inv k s s1 E) as (w & x & rest & Hk & Ht & Hf & Hw).
    apply (IH s1 s'); [| |exact H].
    + intros w' Hin i v Hi. rewrite Hw in Hin. apply In_replace in Hin.
      destruct Hin as [-> | Hin]; [|apply (HQ w' Hin i v Hi)].
      cbn [w_todo] in Hi. apply (HQ w (nth_error_In _ _ Hk)). rewrite Ht. right; exact Hi.
    + intros i. rewrite Hf. destruct x as [m j | j | j | j v]; try apply HP.
      destruct (nth_set_nth_cases (N.to_nat j) (N.to_nat i) v 0%Z (fields s)) as [-> | [Ej ->]];
        [apply HP|].
      right. apply N2Nat.inj in Ej. subst j.
      apply (HQ w (nth_error_In _ _ Hk)). rewrite Ht. left; reflexivity.
Qed.

(** X19. The threads never bring a value into the store that no stream
    writes: in every state they can reach the store has the fields it was
    started with, and each field holds its first value or a value that
    some stream writes to that very field; so a field no stream writes
    keeps its first value. *)
Theorem fields_hold_only_written_values
    (mf : MultiField) (streams : list (list call)) (schedule : list nat) (s : system) :
  run_system schedule (launch mf streams) = Some s ->
  List.length (fields s) = List.length (vals mf) /\
  (forall i,
      nth (N.to_nat i) (fields s) 0%Z = nth (N.to_nat i) (vals mf) 0%Z \/
      exists cs, In cs streams /\ In (CallWrite i (nth (N.to_nat i) (fields s) 0%Z)) cs) /\
  (forall i,
      (forall cs v, In cs streams -> ~ In (CallWrite i v) cs) ->
      nth (N.to_nat i) (fields s) 0%Z = nth (N.to_nat i) (vals mf) 0%Z).
Proof.
  intros H.
  pose proof (run_sound _ _ _ _ (launch_sound mf streams) H) as (HL & _).
  assert (P : forall i,
      nth (N.to_nat i) (fields s) 0%Z = nth (N.to_nat i) (vals mf) 0%Z \/
      exists cs, In cs streams /\ In (CallWrite i (nth (N.to_nat i) (fields s) 0%Z)) cs).
  { apply (provenance_run (fun i v => exists cs, In cs streams /\ In (CallWrite i v) cs)
             (vals mf) schedule (launch mf streams) s); [| |exact H].
    - intros w Hw i v Hi. unfold launch in Hw. cbn [workers] in Hw.
      apply in_map_iff in Hw. destruct Hw as (cs & <- & Hcs). cbn [w_todo] in Hi.
      exists cs. split; [exact Hcs | apply (store_of_stream _ _ _ _ Hi)].
    - intros i. left. reflexivity. }
  split; [exact HL|]. split; [exact P|].
  intros i Hno. destruct (P i) as [E | (cs & Hcs & Hin)]; [exact E|].
  exfalso. exact (Hno cs _ Hcs Hin).
Qed.

Lemma fields_hold_only_written_values_witness :
  let s := mkSystem [0; 7]%Z
             [mkWorker [(0, Shared)] [ILock Shared 1; ILoad 0; ILoad 1; IUnlock 0; IUnlock 1] [];
              mkWorker [(1, Exclusive)]
                [IUnlock 1; ILock Exclusive 0; IStore 0 3; IUnlock 0] []] in
  let mf := Demo.MultiField 2 0 in
  let streams := [[CallSnapshot]; [CallWrite 1 7; CallWrite 0 3]] in
  List.length (fields s) = List.length (vals mf) /\
  (forall i,
      nth (N.to_nat i) (fields s) 0%Z = nth (N.to_nat i) (vals mf) 0%Z \/
      exists cs, In cs streams /\ In (CallWrite i (nth (N.to_nat i) (fields s) 0%Z)) cs) /\
  (forall i,
      (forall cs v, In cs streams -> ~ In (CallWrite i v) cs) ->
      nth (N.to_nat i) (fields s) 0%Z = nth (N.to_nat i) (vals mf) 0%Z).
Proof.
  apply (fields_hold_only_written_values (Demo.MultiField 2 0)
           [[CallSnapshot]; [CallWrite 1 7; CallWrite 0 3]] [0; 1; 1]%nat).
  reflexivity.
Defined.

(** ** The threads always join *)

Lemma step_worker_under_step (grants : policy) (past : list nat) (k : nat) (s s' : system) :
  step_worker_under grants past k s = Some s' -> step_worker k s = Some s'.
Proof.
  unfold step_worker_under. destruct (nth_error (workers s) k) as [w|]; [|discriminate].
  destruct (w_todo w) as [|x rest]; [discriminate|].
  destruct (admitted _ _ _ _ _); [intros H; exact H | discriminate].
Qed.

Lemma run_system_under_run (grants : policy) (schedule past : list nat) (s s' : system) :
  run_system_under grants past schedule s = Some s' -> run_system schedule s = Some s'.
Proof.
  revert past s; induction schedule as [|k schedule IH]; intros past s H; simpl in *;
    [exact H|].
  destruct (step_worker_under grants past k s) as [s1|] eqn:E; [|discriminate].
  rewrite (step_worker_under_step _ _ _ _ _ E). apply (IH _ _ H).
Qed.

Lemma run_system_under_app (grants : policy) (s1 s2 past : list nat) (a b : system) :
  run_system_under grants past s1 a = Some b ->
  run_system_under grants past (s1 ++ s2) a = run_system_under grants (past ++ s1) s2 b.
Proof.
  revert past a; induction s1 as [|k s1 IH]; intros past a H; simpl in *.
  - injection H as <-. rewrite app_nil_r. reflexivity.
  - destruct (step_worker_under grants past k a) as [c|]; [|discriminate].
    rewrite (IH _ _ H), <- app_assoc. reflexivity.
Qed.

Lemma step_under_erase (grants : policy) (past : list nat) (k : nat) (s : system)
    (st' : list thread) :
  step_under grants past k (erase s) = Some st' ->
  exists s', step_worker_under grants past k s = Some s' /\ erase s' = st'.
Proof.
  intros H. pose proof (step_under_step _ _ _ _ _ H) as H'.
  destruct (step_thread_erase k s st' H') as (s' & E & <-).
  exists s'. split; [|reflexivity].
  unfold step_under in H. unfold step_worker_under. unfold erase in H at 1.
  rewrite nth_error_map in H.
  destruct (nth_error (workers s) k) as [w|]; [|discriminate].
  cbn [option_map erase_worker todo holds] in H.
  destruct (w_todo w) as [|x rest]; [discriminate|]. cbn [map] in H.
  destruct (admitted grants past (erase s) k (instr_action x)); [exact E | discriminate].
Qed.

Lemma run_under_erase (grants : policy) (schedule past : list nat) (s : system)
    (st' : list thread) :
  run_under grants past schedule (erase s) = Some st' ->
  exists s', run_system_under grants past schedule s = Some s' /\ erase s' = st'.
Proof.
  revert past s; induction schedule as [|k schedule IH]; intros past s H; simpl in *.
  - injection H as <-. exists s. split; reflexivity.
  - destruct (step_under grants past k (erase s)) as [st1|] eqn:E; [|discriminate].
    destruct (step_under_erase grants past k s st1 E) as (s1 & E1 & <-).
    rewrite E1. apply IH; exact H.
Qed.

Lemma in_order_erase (mf : MultiField) (streams : list (list call)) (schedule : list nat)
    (s : system) :
  run_system schedule (launch mf streams) = Some s -> Forall (in_order (size mf)) (erase s).
Proof.
  intros H. apply run_system_erase in H. rewrite erase_launch in H.
  apply (run_keeps_order (size mf) schedule _ _ (start_in_order (size mf) streams) H).
Qed.

(** X20. The joins of [run_test] always return, under any lock that grants a
    guard nobody holds to one of the threads asking for it: in every state
    the threads can reach, either all threads have returned or some thread
    can move, and the run can always be carried on until every thread has
    returned, with no guard held and the store at its size. *)
Theorem threads_always_join
    (grants : policy) (mf : MultiField) (streams : list (list call)) (schedule : list nat)
    (s : system) :
  grants_free_guards grants ->
  run_system_under grants [] schedule (launch mf streams) = Some s ->
  (all_joined s = false -> exists k s1, step_worker_under grants schedule k s = Some s1) /\
  (exists rest s',
      run_system_under grants [] (schedule ++ rest) (launch mf streams) = Some s' /\
      all_joined s' = true /\
      List.length (fields s') = List.length (vals mf)).
Proof.
  intros G H. pose proof (run_system_under_run _ _ _ _ _ H) as H'.
  pose proof (run_sound _ _ _ _ (launch_sound mf streams) H') as HS.
  pose proof (in_order_erase mf streams schedule s H') as HO.
  pose proof HS as (_ & HD & _). split.
  - intros Hj. rewrite all_joined_erase in Hj.
    destruct (progress_under grants schedule (size mf) (erase s) G HD HO) as (k & st1 & E).
    + intros R. rewrite (nothing_left _ HD R) in Hj. discriminate.
    + destruct (step_under_erase grants schedule k s st1 E) as (s1 & E1 & _).
      exists k, s1. exact E1.
  - destruct (runs_to_completion_under grants (size mf) (remaining (erase s)) schedule
                (erase s) G HD HO eq_refl) as (rest & st' & Hrun & Hdone).
    destruct (run_under_erase grants rest schedule s st' Hrun) as (s' & Hrun' & <-).
    exists rest, s'. rewrite (run_system_under_app grants schedule rest [] _ s H).
    split; [exact Hrun'|]. split; [rewrite all_joined_erase; exact Hdone|].
    apply (run_sound _ _ _ _ HS (run_system_under_run _ _ _ _ _ Hrun')).
Qed.

Lemma threads_always_join_witness :
  let s := mkSystem [0; 0]%Z
             [mkWorker [(0, Shared)] [ILock Shared 1; ILoad 0; ILoad 1; IUnlock 0; IUnlock 1] [];
              mkWorker [(1, Exclusive)]
                [IStore 1 7; IUnlock 1; ILock Exclusive 0; IStore 0 3; IUnlock 0] [];
              mkWorker [] [ILock Shared 1; ILoad 1; IUnlock 1] []] in
  let mf := Demo.MultiField 2 0 in
  let streams := [[CallSnapshot]; [CallWrite 1 7; CallWrite 0 3]; [CallRead 1]] in
  (all_joined s = false ->
   exists k s1, step_worker_under writer_preferring [0; 1]%nat k s = Some s1) /\
  (exists rest s',
      run_system_under writer_preferring [] ([0; 1]%nat ++ rest) (launch mf streams) = Some s' /\
      all_joined s' = true /\
      List.length (fields s') = List.length (vals mf)).
Proof.
  apply (threads_always_join writer_preferring (Demo.MultiField 2 0)
           [[CallSnapshot]; [CallWrite 1 7; CallWrite 0 3]; [CallRead 1]] [0; 1]%nat).
  - exact writer_preferring_grants_free_guards.
  - reflexivity.
Defined.

(** ** A field with one writer *)

Lemma last_store_app (i : N) (p q : list instr) (d : Z) :
  last_store i (p ++ q) d = last_store i q (last_store i p d).
Proof. unfold last_store. apply fold_left_app. Qed.

Lemma last_store_no_store (i : N) (p : list instr) (d : Z) :
  (forall j v, ~ In (IStore j v) p) -> last_store i p d = d.
Proof.
  unfold last_store. revert d; induction p as [|x p IH]; intros d H; [reflexivity|].
  simpl. destruct x as [m j | j | j | j v];
    try (apply IH; intros j' v' Hin; apply (H j' v'); right; exact Hin).
  exfalso. apply (H j v). left; reflexivity.
Qed.

Lemma last_store_call (i : N) (c : call) (vs : list Z) :
  last_store i (call_instrs (N.of_nat (List.length vs)) c) (nth (N.to_nat i) vs 0%Z) =
  nth (N.to_nat i) (field_effect vs c) 0%Z.
Proof.
  destruct c as [j | j v |].
  - apply last_store_no_store. intros j' v' Hin. apply store_of_call in Hin.
    destruct Hin as [Hc _]. discriminate Hc.
  - rewrite call_instrs_eq. cbn [field_effect].
    destruct (N.leb_spec (N.of_nat (List.length vs)) j) as [L|L]; [reflexivity|].
    unfold last_store. simpl. destruct (N.eqb_spec j i) as [->|Hne].
    + symmetry. apply nth_set_nth_same. lia.
    + symmetry. apply nth_set_nth_other. intros E. apply Hne. apply N2Nat.inj. congruence.
  - apply last_store_no_store. intros j' v' Hin. apply store_of_call in Hin.
    destruct Hin as [Hc _]. discriminate Hc.
Qed.

Lemma last_store_stream (i : N) (cs : list call) (vs : list Z) :
  last_store i (flat_map (call_instrs (N.of_nat (List.length vs))) cs) (nth (N.to_nat i) vs 0%Z) =
  nth (N.to_nat i) (fold_left field_effect cs vs) 0%Z.
Proof.
  revert vs; induction cs as [|c cs IH]; intros vs; [reflexivity|].
  cbn [flat_map fold_left]. rewrite last_store_app, last_store_call.
  rewrite <- IH, field_effect_length. reflexivity.
Qed.

Lemma single_writer_run (i : N) (k n : nat) (prog : list instr) (d : Z) (schedule : list nat) :
  (forall idx v, In (IStore idx v) prog -> (N.to_nat idx < n)%nat) ->
  forall s s',
    List.length (fields s) = n ->
    (exists w done, nth_error (workers s) k = Some w /\ prog = done ++ w_todo w /\
                    nth (N.to_nat i) (fields s) 0%Z = last_store i done d) ->
    (forall j w, j <> k -> nth_error (workers s) j = Some w ->
                 forall v, ~ In (IStore i v) (w_todo w)) ->
    run_system schedule s = Some s' ->
    exists w done, nth_error (workers s') k = Some w /\ prog = done ++ w_todo w /\
                   nth (N.to_nat i) (fields s') 0%Z = last_store i done d.
Proof.
  intros Hrange. induction schedule as [|k' schedule IH]; intros s s' HL HK HO H; simpl in H.
  - injection H as <-. exact HK.
  - destruct (step_worker k' s) as [s1|] eqn:E; [|discriminate].
    destruct (step_worker_inv k' s s1 E) as (w' & x & rest & Hk' & Ht & Hf & Hw).
    destruct HK as (w & done & Hk & Hp & Hv).
    apply (IH s1 s'); [| | |exact H].
    + rewrite Hf. destruct x; try exact HL. rewrite set_nth_length. exact HL.
    + destruct (Nat.eq_dec k k') as [->|Hne].
      * rewrite Hk in Hk'. injection Hk' as <-.
        destruct (step_same_worker k' s s1 w E Hk) as (x0 & rest0 & Ht0 & _ & Hw1).
        rewrite Ht in Ht0. injection Ht0 as <- <-.
        eexists. exists (done ++ [x]). split; [exact Hw1|]. cbn [w_todo].
        split; [rewrite Hp, Ht, <- app_assoc; reflexivity|].
        rewrite last_store_app, <- Hv, Hf. unfold last_store. cbn [fold_left].
        destruct x as [m j | j | j | j v]; try reflexivity.
        destruct (N.eqb_spec j i) as [->|Hji].
        -- apply nth_set_nth_same. rewrite HL. apply (Hrange i v).
           rewrite Hp, Ht. apply in_or_app. right. left. reflexivity.
        -- apply nth_set_nth_other. intros Eq. apply Hji. apply N2Nat.inj. congruence.
      * exists w, done. split; [apply (step_other_worker k' k s s1 w E Hne Hk)|].
        split; [exact Hp|]. rewrite <- Hv, Hf.
        destruct x as [m j | j | j | j v]; try reflexivity.
        apply nth_set_nth_other. intros Eq. apply N2Nat.inj in Eq. subst j.
        apply (HO k' w' (not_eq_sym Hne) Hk' v). rewrite Ht. left; reflexivity.
    + intros j wj Hj Hwj v Hin. rewrite Hw in Hwj.
      destruct (Nat.eq_dec j k') as [->|Hjk].
      * apply nth_error_replace_same in Hwj. subst wj. cbn [w_todo] in Hin.
        apply (HO k' w' Hj Hk' v). rewrite Ht. right; exact Hin.
      * rewrite nth_error_replace_other in Hwj by exact Hjk.
        apply (HO j wj Hj Hwj v Hin).
Qed.

(** X21. A field that one stream alone writes ends as if that stream had
    run alone: when no other stream has a write to field [i], then once the
    thread of stream [k] has returned, and from then on, field [i] holds
    what the worker leaves there when it runs stream [k] on the store with
    no other thread, whatever the other threads did or still do. *)
Theorem single_writer_field_ends_as_alone
    (mf : MultiField) (streams : list (list call)) (schedule : list nat) (s : system)
    (k : nat) (cs : list call) (w : worker_state) (i : N) :
  run_system schedule (launch mf streams) = Some s ->
  nth_error streams k = Some cs ->
  (forall j cs' v, j <> k -> nth_error streams j = Some cs' -> ~ In (CallWrite i v) cs') ->
  nth_error (workers s) k = Some w -> w_todo w = [] ->
  nth (N.to_nat i) (fields s) 0%Z =
  nth (N.to_nat i) (vals (final (spec_run Demo.to_string cs mf))) 0%Z.
Proof.
  intros Hrun Hcs Hothers Hw Hdone.
  destruct (single_writer_run i k (List.length (vals mf))
              (flat_map (call_instrs (size mf)) cs) (nth (N.to_nat i) (vals mf) 0%Z) schedule)
    with (s := launch mf streams) (s' := s) as (w' & done & Hw' & Hp & Hv).
  - intros idx v Hin. apply store_of_stream in Hin. destruct Hin as [_ L].
    unfold size in L. lia.
  - reflexivity.
  - exists (mkWorker [] (flat_map (call_instrs (size mf)) cs) []), [].
    split; [|split; reflexivity].
    unfold launch. cbn [workers]. rewrite nth_error_map, Hcs. reflexivity.
  - intros j wj Hj Hwj v Hin. unfold launch in Hwj. cbn [workers] in Hwj.
    rewrite nth_error_map in Hwj. destruct (nth_error streams j) as [cs'|] eqn:Ej; [|discriminate].
    injection Hwj as <-. cbn [w_todo] in Hin. apply store_of_stream in Hin.
    exact (Hothers j cs' v Hj Ej (proj1 Hin)).
  - exact Hrun.
  - rewrite Hw in Hw'. injection Hw' as <-. rewrite Hdone, app_nil_r in Hp.
    rewrite Hv, <- Hp. unfold size. rewrite last_store_stream.
    unfold Demo.to_string. rewrite spec_run_final. reflexivity.
Qed.

Lemma single_writer_field_ends_as_alone_witness :
  let s := mkSystem [0; 7]%Z
             [mkWorker [(0, Shared); (1, Shared)] [ILoad 0; ILoad 1; IUnlock 0; IUnlock 1] [];
              mkWorker [] [] []] in
  nth (N.to_nat 1) (fields s) 0%Z =
  nth (N.to_nat 1) (vals (final (spec_run Demo.to_string [CallWrite 1 4; CallWrite 1 7]
                                   (Demo.MultiField 2 0)))) 0%Z.
Proof.
  apply (single_writer_field_ends_as_alone (Demo.MultiField 2 0)
           [[CallSnapshot]; [CallWrite 1 4; CallWrite 1 7]] [1; 1; 1; 1; 1; 1; 0; 0]%nat
           (mkSystem [0; 7]%Z
             [mkWorker [(0, Shared); (1, Shared)] [ILoad 0; ILoad 1; IUnlock 0; IUnlock 1] [];
              mkWorker [] [] []])
           1%nat [CallWrite 1 4; CallWrite 1 7] (mkWorker [] [] []) 1).
  - reflexivity.
  - reflexivity.
  - intros [|[|j]] cs' v Hj E; simpl in E; try congruence.
    + injection E as <-. intros [H | []]. discriminate H.
    + destruct j; discriminate E.
  - reflexivity.
  - reflexivity.
Defined.

(** * The report of run_test_case *)

Lemma substring_all (s : string) : substring 0 (String.length s) s = s.
Proof. induction s as [|c s IH]; simpl; [reflexivity | rewrite IH; reflexivity]. Qed.

Lemma substring_length (n : nat) (s : string) :
  (n <= String.length s)%nat -> String.length (substring 0 n s) = n.
Proof.
  revert n; induction s as [|c s IH]; intros [|n] H; simpl in *; try reflexivity; try lia.
  rewrite IH by lia. reflexivity.
Qed.

Lemma substring_prefix (n : nat) (s : string) :
  (n <= String.length s)%nat ->
  exists t, s = (substring 0 n s ++ t)%string.
Proof.
  revert n; induction s as [|c s IH]; intros [|n] H; simpl in *; try lia.
  - exists EmptyString. reflexivity.
  - exists (String c s). reflexivity.
  - destruct (IH n ltac:(lia)) as [t E]. exists t. rewrite <- E. reflexivity.
Qed.

Lemma string_length_append (a b : string) :
  String.length (a ++ b) = (String.length a + String.length b)%nat.
Proof. induction a as [|c a IH]; simpl; [reflexivity | rewrite IH; reflexivity]. Qed.

(** X22. The final state [run_test_case] prints is the snapshot text itself
    when that has at most 200 characters; a longer text is cut to its first
    200 characters followed by three dots, so the printed state never has
    more than 203 characters (it is cut by characters, not by fields). *)
Theorem final_state_is_cut_at_200 (s : string) :
  ((String.length s <= 200)%nat -> final_state_text s = s) /\
  ((200 < String.length s)%nat ->
     exists t, final_state_text s = (substring 0 200 s ++ "...")%string /\
               s = (substring 0 200 s ++ t)%string /\
               String.length (substring 0 200 s) = 200%nat) /\
  (String.length (final_state_text s) <= 203)%nat.
Proof.
  unfold final_state_text.
  destruct (Nat.ltb_spec 200 (String.length s)) as [L|L].
  - rewrite Nat.min_r by lia. split; [lia|]. split.
    + intros _. destruct (substring_prefix 200 s ltac:(lia)) as [t E].
      exists t. split; [reflexivity|]. split; [exact E | apply substring_length; lia].
    + rewrite string_length_append, substring_length by lia. simpl. lia.
  - rewrite Nat.min_l by lia. rewrite substring_all, append_empty_r.
    split; [reflexivity|]. split; [lia|]. lia.
Qed.

Lemma final_state_is_cut_at_200_witness : final_state_text "[3, 0, 17, 0]" = "[3, 0, 17, 0]"%string.
Proof. apply (proj1 (final_state_is_cut_at_200 "[3, 0, 17, 0]")). simpl. lia. Defined.

(** * No data race, no value out of thin air *)

(** X23. The threads never race on a field: in every state they can reach,
    when the next step of one thread is a store to a field, the next step of
    no other thread is a load or a store of that field. *)
Theorem no_data_race
    (mf : MultiField) (streams : list (list call)) (schedule : list nat) (s : system)
    (j k : nat) (wj wk : worker_state) (i i' : N) (v : Z) (x : instr)
    (rest_j rest_k : list instr) :
  run_system schedule (launch mf streams) = Some s ->
  j <> k ->
  nth_error (workers s) j = Some wj -> w_todo wj = IStore i v :: rest_j ->
  nth_error (workers s) k = Some wk -> w_todo wk = x :: rest_k ->
  accessed x = Some i' ->
  i' <> i.
Proof.
  intros Hrun Hjk Hj Htj Hk Htk Hx ->.
  pose proof (run_sound _ _ _ _ (launch_sound mf streams) Hrun) as (_ & _ & HE & HC).
  rewrite Forall_forall in HC.
  pose proof (HC wj (nth_error_In _ _ Hj)) as Cj. rewrite Htj in Cj. destruct Cj as [Cj _].
  pose proof (HC wk (nth_error_In _ _ Hk)) as Ck. rewrite Htk in Ck. destruct Ck as [Ck _].
  assert (Hin : exists m, In (i, m) (w_holds wk)).
  { destruct x as [m a | a | a | a b]; try discriminate Hx; injection Hx as ->;
      [exists Shared | exists Exclusive]; exact Ck. }
  destruct Hin as [m Hin].
  apply (HE j k (erase_worker wj) (erase_worker wk) i m); auto.
  - unfold erase. rewrite nth_error_map, Hj. reflexivity.
  - unfold erase. rewrite nth_error_map, Hk. reflexivity.
Qed.

Lemma no_data_race_witness : (0 : N) <> 1.
Proof.
  apply (no_data_race (Demo.MultiField 2 0) [[CallRead 0]; [CallWrite 1 7]] [0; 1]%nat
           (mkSystem [0; 0]%Z
              [mkWorker [(0, Shared)] [ILoad 0; IUnlock 0] [];
               mkWorker [(1, Exclusive)] [IStore 1 7; IUnlock 1] []])
           1%nat 0%nat
           (mkWorker [(1, Exclusive)] [IStore 1 7; IUnlock 1] [])
           (mkWorker [(0, Shared)] [ILoad 0; IUnlock 0] [])
           1 0 7 (ILoad 0) [IUnlock 1] [IUnlock 0]); try reflexivity.
  discriminate.
Defined.

Lemma seen_run (W : N -> Z -> Prop) (init : list Z) (schedule : list nat) :
  forall s s',
    (forall w, In w (workers s) -> forall i v, In (IStore i v) (w_todo w) -> W i v) ->
    (forall i, nth (N.to_nat i) (fields s) 0%Z = nth (N.to_nat i) init 0%Z \/
               W i (nth (N.to_nat i) (fields s) 0%Z)) ->
    (forall w, In w (workers s) -> forall i v, In (i, v) (w_seen w) ->
               v = nth (N.to_nat i) init 0%Z \/ W i v) ->
    run_system schedule s = Some s' ->
    forall w, In w (workers s') -> forall i v, In (i, v) (w_seen w) ->
              v = nth (N.to_nat i) init 0%Z \/ W i v.
Proof.
  induction schedule as [|k schedule IH]; intros s s' HQ HP HS H; simpl in H.
  - injection H as <-. exact HS.
  - destruct (step_worker k s) as [s1|] eqn:E; [|discriminate].
    destruct (step_worker_inv k s s1 E) as (w & x & rest & Hk & Ht & Hf & Hw).
    apply (IH s1 s'); [| | |exact H].
    + intros w' Hin i v Hi. rewrite Hw in Hin. apply In_replace in Hin.
      destruct Hin as [-> | Hin]; [|apply (HQ w' Hin i v Hi)].
      cbn [w_todo] in Hi. apply (HQ w (nth_error_In _ _ Hk)). rewrite Ht. right; exact Hi.
    + apply (provenance_run W init [k] s s1 HQ HP). simpl. rewrite E. reflexivity.
    + intros w' Hin i v Hi. rewrite Hw in Hin. apply In_replace in Hin.
      destruct Hin as [-> | Hin]; [|apply (HS w' Hin i v Hi)].
      cbn [w_seen] in Hi. destruct x as [m a | a | a | a b];
        try (apply (HS w (nth_error_In _ _ Hk) i v Hi)).
      apply in_app_or in Hi. destruct Hi as [Hi | [Hi | []]];
        [apply (HS w (nth_error_In _ _ Hk) i v Hi)|].
      injection Hi as -> <-. destruct (HP i) as [P | P]; [left; exact P | right; exact P].
Qed.

(** X24. No read and no snapshot returns a value out of thin air: every
    value a thread has loaded from a field is the first value of that field
    or a value that some stream writes to that very field. *)
Theorem loads_see_only_written_values
    (mf : MultiField) (streams : list (list call)) (schedule : list nat) (s : system)
    (w : worker_state) (i : N) (v : Z) :
  run_system schedule (launch mf streams) = Some s ->
  In w (workers s) -> In (i, v) (w_seen w) ->
  v = nth (N.to_nat i) (vals mf) 0%Z \/ exists cs, In cs streams /\ In (CallWrite i v) cs.
Proof.
  intros H Hw Hv.
  apply (seen_run (fun i v => exists cs, In cs streams /\ In (CallWrite i v) cs)
           (vals mf) schedule (launch mf streams) s) with (w := w); try assumption.
  - intros w0 Hw0 j u Hi. unfold launch in Hw0. cbn [workers] in Hw0.
    apply in_map_iff in Hw0. destruct Hw0 as (cs & <- & Hcs). cbn [w_todo] in Hi.
    exists cs. split; [exact Hcs | apply (store_of_stream _ _ _ _ Hi)].
  - intros j. left. reflexivity.
  - intros w0 Hw0 j u Hi. unfold launch in Hw0. cbn [workers] in Hw0.
    apply in_map_iff in Hw0. destruct Hw0 as (cs & <- & Hcs). destruct Hi.
Qed.

Lemma loads_see_only_written_values_witness :
  7%Z = nth (N.to_nat 1) (vals (Demo.MultiField 2 0)) 0%Z \/
  exists cs, In cs [[CallSnapshot]; [CallWrite 1 7; CallWrite 0 3]] /\ In (CallWrite 1 7) cs.
Proof.
  apply (loads_see_only_written_values (Demo.MultiField 2 0)
           [[CallSnapshot]; [CallWrite 1 7; CallWrite 0 3]] [1; 1; 1; 0; 0; 0; 0]%nat
           (mkSystem [0; 7]%Z
              [mkWorker [(0, Shared); (1, Shared)] [IUnlock 0; IUnlock 1] [(0, 0%Z); (1, 7%Z)];
               mkWorker [] [ILock Exclusive 0; IStore 0 3; IUnlock 0] []])
           (mkWorker [(0, Shared); (1, Shared)] [IUnlock 0; IUnlock 1] [(0, 0%Z); (1, 7%Z)])
           1 7).
  - reflexivity.
  - left; reflexivity.
  - right; left; reflexivity.
Defined.

(** * From the generator to the parallel run *)

Lemma lab4_skewed_stream_calls (R : random_source) (u : Z) (gen : N * Z * rng R) :
  lawful R ->
  Forall (fun c => c = CallSnapshot \/ exists v, c = CallWrite 0 v)
    (lab4_skewed_stream R u gen).
Proof.
  intros RL. destruct gen as [[count t] g]. unfold lab4_skewed_stream, Lab4Gen.generate_skewed_files.
  destruct (skewed_loop_lines R RL (N.to_nat count) g []) as (ls & E & _ & F).
  destruct (Lab4Gen.skewed_loop R (N.to_nat count) g []) as [ofs g']. cbn [fst app] in E.
  subst ofs.
  assert (P : Forall plain_line ls).
  { eapply Forall_impl; [|exact F]. intros l [-> | (v & -> & Hv)]; simpl; unfold INT_MIN, INT_MAX;
      [exact I | lia]. }
  rewrite (lab4_load_plain u ls P). clear P.
  induction F as [|l ls Hl _ IH]; [constructor|].
  cbn [flat_map]. apply Forall_app. split; [|exact IH].
  destruct Hl as [-> | (v & -> & Hv)]; cbn [line_calls line_ops map]; unfold demo_call;
    cbn [Demo.type Demo.idx Demo.value]; (apply Forall_cons; [|apply Forall_nil]).
  - left; reflexivity.
  - right. exists v. reflexivity.
Qed.

(** X25. The skewed case of lab4.cpp touches field 0 only: when every thread
    runs a file written by [generate_skewed_files] and loaded by [load_ops],
    whatever the random draws and the interleaving, every field other than
    field 0 holds its first value in every state the threads reach. *)
Theorem lab4_skewed_run_keeps_other_fields
    (R : random_source) (u : Z) (gens : list (N * Z * rng R))
    (mf : MultiField) (schedule : list nat) (s : system) (i : N) :
  lawful R ->
  run_system schedule (launch mf (map (lab4_skewed_stream R u) gens)) = Some s ->
  i <> 0 ->
  nth (N.to_nat i) (fields s) 0%Z = nth (N.to_nat i) (vals mf) 0%Z.
Proof.
  intros RL H Hi.
  set (streams := map (lab4_skewed_stream R u) gens) in *.
  destruct (provenance_run (fun i v => exists cs, In cs streams /\ In (CallWrite i v) cs)
              (vals mf) schedule (launch mf streams) s) with (i := i) as [E | (cs & Hcs & Hin)];
    try assumption.
  - intros w Hw j v Hj. unfold launch in Hw. cbn [workers] in Hw.
    apply in_map_iff in Hw. destruct Hw as (cs & <- & Hcs). cbn [w_todo] in Hj.
    exists cs. split; [exact Hcs | apply (store_of_stream _ _ _ _ Hj)].
  - intros j. left. reflexivity.
  - exfalso. unfold streams in Hcs. apply in_map_iff in Hcs. destruct Hcs as (gen & <- & _).
    pose proof (lab4_skewed_stream_calls R u gen RL) as F. rewrite Forall_forall in F.
    destruct (F _ Hin) as [C | (v & C)]; [discriminate C|].
    injection C as C _. apply Hi. exact C.
Qed.

Lemma lab4_skewed_run_keeps_other_fields_witness :
  let s := mkSystem [2; 0; 0]%Z
             [mkWorker [] [ILock Exclusive 0; IStore 0 4; IUnlock 0] [];
              mkWorker [(0, Shared)]
                [ILock Shared 1; ILock Shared 2; ILoad 0; ILoad 1; ILoad 2;
                 IUnlock 0; IUnlock 1; IUnlock 2] []] in
  nth (N.to_nat 2) (fields s) 0%Z = nth (N.to_nat 2) (vals (Lab4.MultiField 3)) 0%Z.
Proof.
  apply (lab4_skewed_run_keeps_other_fields counting_source 7 [(2, 0%Z, 0); (1, 1%Z, 95)]
           (Lab4.MultiField 3) [0; 0; 0; 1]%nat
           (mkSystem [2; 0; 0]%Z
              [mkWorker [] [ILock Exclusive 0; IStore 0 4; IUnlock 0] [];
               mkWorker [(0, Shared)]
                 [ILock Shared 1; ILock Shared 2; ILoad 0; ILoad 1; ILoad 2;
                  IUnlock 0; IUnlock 1; IUnlock 2] []]) 2).
  - exact counting_source_lawful.
  - vm_compute. reflexivity.
  - discriminate.
Defined.

(** * The final state of a small store is printed in full *)

Lemma show_int_up_to_1000 (v : Z) :
  (0 <= v <= 1000)%Z -> (String.length (show_int v) <= 4)%nat.
Proof.
  intros H.
  assert (B : forallb (fun k => (String.length (show_int (Z.of_nat k)) <=? 4)%nat)
                (seq 0 1001) = true) by (vm_compute; reflexivity).
  rewrite forallb_forall in B. specialize (B (Z.to_nat v)).
  rewrite Z2Nat.id in B by lia. apply Nat.leb_le. apply B. apply in_seq. lia.
Qed.

Lemma with_commas_length (vs : list Z) :
  Forall (fun v => (0 <= v <= 1000)%Z) vs ->
  (String.length (with_commas (map show_int vs)) <= 6 * List.length vs)%nat.
Proof.
  induction 1 as [|v vs Hv _ IH]; [simpl; lia|].
  cbn [map with_commas fold_right List.length]. fold (with_commas (map show_int vs)).
  rewrite !string_length_append. pose proof (show_int_up_to_1000 v Hv).
  change (String.length ", ") with 2%nat. lia.
Qed.

Lemma snapshot_text_length (opening closing : string) (vs : list Z) :
  Forall (fun v => (0 <= v <= 1000)%Z) vs ->
  (String.length (spec_snapshot_text opening closing vs) <=
   String.length opening + String.length closing + 6 * List.length vs)%nat.
Proof.
  intros H. unfold spec_snapshot_text. rewrite !string_length_append.
  destruct H as [|v vs Hv H]; [simpl; lia|].
  cbn [map]. rewrite comma_separated_cons, string_length_append.
  pose proof (show_int_up_to_1000 v Hv). pose proof (with_commas_length vs H).
  cbn [List.length]. lia.
Qed.

(** X26. For a store of at most 33 fields that all hold values from 0 to
    1000 (the first value 0 and the values the generators of demo_lab4.cpp
    write), the final state [run_test_case] prints is the whole snapshot
    text: the text has at most 200 characters and is not cut. *)
Theorem small_store_is_printed_in_full (mf : MultiField) :
  (List.length (vals mf) <= 33)%nat ->
  Forall (fun v => (0 <= v <= 1000)%Z) (vals mf) ->
  (String.length (result (Demo.to_string mf)) <= 200)%nat /\
  final_state_text (result (Demo.to_string mf)) = result (Demo.to_string mf).
Proof.
  intros Hn Hv. unfold Demo.to_string. rewrite to_string_with_eq. unfold result; cbn [fst].
  pose proof (snapshot_text_length "[" "]" (vals mf) Hv) as L.
  change (String.length "[") with 1%nat in L. change (String.length "]") with 1%nat in L.
  assert (B : (String.length (spec_snapshot_text "[" "]" (vals mf)) <= 200)%nat) by lia.
  split; [exact B|]. unfold final_state_text.
  rewrite Nat.min_l by exact B. rewrite substring_all.
  replace (200 <? String.length (spec_snapshot_text "[" "]" (vals mf)))%nat with false
    by (symmetry; apply Nat.ltb_ge; exact B).
  apply append_empty_r.
Qed.

Lemma small_store_is_printed_in_full_witness :
  let mf := mkMultiField [3; 0; 1000; 17]%Z 4 in
  (String.length (result (Demo.to_string mf)) <= 200)%nat /\
  final_state_text (result (Demo.to_string mf)) = result (Demo.to_string mf).
Proof.
  apply (small_store_is_printed_in_full (mkMultiField [3; 0; 1000; 17]%Z 4)).
  - simpl; lia.
  - repeat constructor; lia.
Defined.
